(** * App.jsx: scroll-triggered animators (useInView, Counter, Typewriter, Reveal)

    A shallow embedding of the hooks and components of [src/App.jsx] that
    carry state or timing logic, and the properties of the specification
    stated over it.

    JavaScript numbers are IEEE 754 binary64 values; they are modelled with
    the Standard Library's executable specification [SpecFloat] at precision
    53 and maximal exponent 1024, so that [end / (duration / 16)] and the
    repeated [start += step] round exactly as they do in the browser. *)

From Stdlib Require Import ZArith Bool List String Ascii Lia DecimalString.
From Stdlib Require Import Floats.SpecFloat.
Import ListNotations.
Local Open Scope Z_scope.

(** ** JavaScript numbers *)

Module JS.

Definition number := spec_float.

Definition prec : Z := 53.
Definition emax : Z := 1024.

Definition add (x y : number) : number := SFadd prec emax x y.
Definition div (x y : number) : number := SFdiv prec emax x y.

(** [x >= y], false as soon as one side is NaN. *)
Definition ge (x y : number) : bool := SFleb y x.

(** [x - y], [x * y], and [x > y], false as soon as one side is NaN. *)
Definition sub (x y : number) : number := SFsub prec emax x y.
Definition mul (x y : number) : number := SFmul prec emax x y.
Definition gt (x y : number) : bool := SFltb y x.

(** An integer literal of the source, or an integer-valued argument. *)
Definition of_Z (z : Z) : number := binary_normalize prec emax z 0 false.

(** A decimal literal [n / 10^k] such as [0.15]: the source text denotes the
    binary64 value nearest to the decimal, which is what the correctly
    rounded quotient of the two integers is. *)
Definition decimal (n : Z) (pow10 : Z) : number := div (of_Z n) (of_Z pow10).

Definition NaN : number := S754_nan.
Definition Infinity : number := S754_infinity false.

(** [Math.floor]. A finite value with a non-negative exponent is an integer
    already; otherwise the mantissa is shifted right, rounding toward minus
    infinity. [Math.floor(-0)] is [-0], and NaN and the infinities are
    returned unchanged. *)
Definition floor (x : number) : number :=
  match x with
  | S754_finite s m e =>
      if 0 <=? e then x
      else
        let q := Z.shiftr (cond_Zopp s (Zpos m)) (- e) in
        binary_normalize prec emax q 0 false
  | _ => x
  end.

(** Truthiness of a number: [0], [-0] and [NaN] are falsy. *)
Definition truthy (x : number) : bool :=
  match x with
  | S754_zero _ | S754_nan => false
  | _ => true
  end.

(** The integer a number denotes, when it denotes one. *)
Definition to_Z (x : number) : option Z :=
  match x with
  | S754_zero _ => Some 0
  | S754_finite s m e =>
      if 0 <=? e then Some (cond_Zopp s (Zpos m) * 2 ^ e)
      else if Z.land (Zpos m) (Z.ones (- e)) =? 0
           then Some (Z.shiftr (cond_Zopp s (Zpos m)) (- e))
           else None
  | _ => None
  end.

End JS.

(** *** Canonical representations *)

(** The exponent a binary64 value of magnitude [2^e] is stored with. *)
Definition fexp64 (e : Z) : Z := Z.max (e - 53) (-1074).

(** The mantissa and exponent of a finite binary64 value are the ones
    [SpecFloat.canonical_mantissa] accepts. *)
Definition canonical64 (m : positive) (e : Z) : Prop :=
  fexp64 (Zdigits2 (Zpos m) + e) = e.

(** A number that is not negative: [+0], a positive finite binary64
    value in canonical form, or [+Infinity]. *)
Definition canon (x : JS.number) : Prop :=
  match x with
  | S754_zero false | S754_infinity false => True
  | S754_finite false m e => canonical64 m e /\ e <= 971
  | _ => False
  end.

(** The same, whatever the representation. *)
Definition nonneg (x : JS.number) : Prop :=
  match x with
  | S754_zero false | S754_infinity false | S754_finite false _ _ => True
  | _ => False
  end.

(** The place of a non-negative canonical number in the order of
    representations, counted from zero. *)
Definition rank (x : JS.number) : Z :=
  match x with
  | S754_finite false m e => (e + 1075) * 2 ^ 53 + Zpos m
  | _ => 0
  end.

(** A positive finite number in canonical form. *)
Definition positive_finite (x : JS.number) : Prop :=
  match x with
  | S754_finite false m e => canonical64 m e /\ e <= 971
  | _ => False
  end.

(** A finite number, of either sign, whose magnitude is at most that of
    the canonical [mb * 2^eb]. *)
Definition within (x : JS.number) (mb : positive) (eb : Z) : Prop :=
  match x with
  | S754_zero _ => True
  | S754_finite _ m e =>
      canonical64 m e /\ (e < eb \/ (e = eb /\ Zpos m <= Zpos mb))
  | _ => False
  end.

(** ** Values compared by dependency arrays *)

Inductive value :=
| VBool (b : bool)
| VNumber (n : JS.number)
| VString (s : string).

Definition number_same (x y : JS.number) : bool :=
  match x, y with
  | S754_zero a, S754_zero b => Bool.eqb a b
  | S754_infinity a, S754_infinity b => Bool.eqb a b
  | S754_nan, S754_nan => true
  | S754_finite a m e, S754_finite b n f =>
      Bool.eqb a b && Pos.eqb m n && Z.eqb e f
  | _, _ => false
  end.

(** [Object.is], the comparison React applies to each dependency. *)
Definition same_value (x y : value) : bool :=
  match x, y with
  | VBool a, VBool b => Bool.eqb a b
  | VNumber a, VNumber b => number_same a b
  | VString a, VString b => String.eqb a b
  | _, _ => false
  end.

Fixpoint same_deps (xs ys : list value) : bool :=
  match xs, ys with
  | [], [] => true
  | x :: xs', y :: ys' => same_value x y && same_deps xs' ys'
  | _, _ => false
  end.

(** ** useInView: the options it hands to the IntersectionObserver *)

(** The [options] argument; a field that is absent reads as [undefined]. *)
Record InViewOptions := {
  opt_threshold : option JS.number;
  opt_rootMargin : option string;
}.

Record ObserverInit := {
  threshold : JS.number;
  rootMargin : string;
}.

(** [x || d] on an optional number and on an optional string. *)
Definition number_or (x : option JS.number) (d : JS.number) : JS.number :=
  match x with
  | Some n => if JS.truthy n then n else d
  | None => d
  end.

Definition string_or (x : option string) (d : string) : string :=
  match x with
  | Some s => if String.eqb s "" then d else s
  | None => d
  end.

Definition observer_init (options : InViewOptions) : ObserverInit :=
  {| threshold := number_or (opt_threshold options) (JS.decimal 15 100);
     rootMargin := string_or (opt_rootMargin options) "0px" |}.

(** What the observer passes to its callback: the hook reads only
    [isIntersecting] of the first entry. *)
Record IntersectionObserverEntry := {
  isIntersecting : bool;
  intersectionRatio : JS.number;
}.

(** The observer callback of [useInView],
    [([entry]) => { if (entry.isIntersecting) setIsInView(true); }],
    as a function of the current [isInView]. *)
Definition useInView_callback (entry : IntersectionObserverEntry) (isInView : bool)
  : bool :=
  if isIntersecting entry then true else isInView.

(** ** The host's timers and React's effect protocol *)

(** What happens to a component instance. [Render] is React rendering and
    committing the component, for whatever reason (a state update of its
    own, or its parent); [Fire] is the host running the callback of a timer;
    the order of events is the host's choice. *)
Inductive event :=
| Intersect (entry : IntersectionObserverEntry)
| Render
| Fire (id : nat)
| Unmount.

(** Ghost record of what the instance did with timers. *)
Inductive action :=
| SetTimeout (id : nat)
| SetInterval (id : nat)
| Cleared (id : nat)
| Fired (id : nat)
| Unmounted.

Module React.
Section Runtime.

(** [state]: the component's own [useState] cells; [closure]: the
    functions it hands to [setTimeout] and [setInterval], each with the
    variables it captured. *)
Context {props state closure : Type}.

Record timer := {
  timer_id : nat;
  timer_repeats : bool;
  timer_ms : JS.number;
  timer_fn : closure;
}.

Record store := {
  cells : state;
  timers : list timer;
  next_id : nat;
  log : list action;
}.

(** Component code runs in a state monad over the store. *)
Definition M (A : Type) : Type := store -> A * store.

Definition ret {A} (a : A) : M A := fun s => (a, s).

Definition bind {A B} (m : M A) (k : A -> M B) : M B :=
  fun s => let '(a, s') := m s in k a s'.

Definition setState (f : state -> state) : M unit :=
  fun s => (tt, {| cells := f (cells s); timers := timers s;
                   next_id := next_id s; log := log s |}).

Definition schedule (repeats : bool) (fn : closure) (ms : JS.number) : M nat :=
  fun s =>
    let id := next_id s in
    (id, {| cells := cells s;
            timers := timers s ++ [{| timer_id := id; timer_repeats := repeats;
                                      timer_ms := ms; timer_fn := fn |}];
            next_id := S id;
            log := (if repeats then SetInterval id else SetTimeout id) :: log s |}).

Definition setTimeout := schedule false.
Definition setInterval := schedule true.

(** [clearTimeout] and [clearInterval] share one pool of identifiers;
    clearing an identifier that is not pending does nothing. *)
Definition clearTimer (id : nat) : M unit :=
  fun s => (tt, {| cells := cells s;
                   timers := filter (fun t => negb (Nat.eqb (timer_id t) id)) (timers s);
                   next_id := next_id s;
                   log := Cleared id :: log s |}).

Definition clearTimeout := clearTimer.
Definition clearInterval := clearTimer.

(** A function component with one [useInView] call and one [useEffect].
    The cleanup an effect returns is, in this file, always
    [() => clearX(id)]: it is represented by [Some id], and [None] stands
    for an effect that returned nothing. A timer callback yields its
    captured variables as it left them, and the value it returned. *)
Record component := {
  initial : state;
  inview_options : InViewOptions;
  dependencies : props -> bool -> state -> list value;
  effect : props -> bool -> state -> M (option nat);
  invoke : closure -> nat -> M (closure * option nat);
}.

Variable C : component.
Variable p : props.

Record world := {
  mounted : bool;
  observer : option ObserverInit;
  isInView : bool;
  mem : store;
  last_deps : option (list value);
  cleanup : option nat;
}.

Definition with_mem (w : world) (s : store) : world :=
  {| mounted := mounted w; observer := observer w; isInView := isInView w;
     mem := s; last_deps := last_deps w; cleanup := cleanup w |}.

Definition run_cleanup (w : world) : store :=
  match cleanup w with
  | Some id => snd (clearTimer id (mem w))
  | None => mem w
  end.

(** Commit of a render: the effect runs when a dependency changed, after
    the cleanup of its previous run. *)
Definition commit (w : world) : world :=
  let deps := dependencies C p (isInView w) (cells (mem w)) in
  let unchanged :=
    match last_deps w with
    | Some old => same_deps old deps
    | None => false
    end in
  if unchanged then w
  else
    let '(c, s) := effect C p (isInView w) (cells (mem w)) (run_cleanup w) in
    {| mounted := mounted w; observer := observer w; isInView := isInView w;
       mem := s; last_deps := Some deps; cleanup := c |}.

(** First render: [useInView]'s effect starts observing the element, and
    the component's effect runs with [isInView = false]. *)
Definition mount : world :=
  commit {| mounted := true;
            observer := Some (observer_init (inview_options C));
            isInView := false;
            mem := {| cells := initial C; timers := []; next_id := 1; log := [] |};
            last_deps := None;
            cleanup := None |}.

Definition find_timer (id : nat) (s : store) : option timer :=
  find (fun t => Nat.eqb (timer_id t) id) (timers s).

Definition remove_timer (id : nat) (s : store) : store :=
  {| cells := cells s;
     timers := filter (fun t => negb (Nat.eqb (timer_id t) id)) (timers s);
     next_id := next_id s; log := log s |}.

(** After an interval callback returns, its captured variables keep the
    values it gave them, provided the interval is still pending. *)
Definition save_closure (id : nat) (fn : closure) (s : store) : store :=
  {| cells := cells s;
     timers := map (fun t => if Nat.eqb (timer_id t) id
                             then {| timer_id := id; timer_repeats := timer_repeats t;
                                     timer_ms := timer_ms t; timer_fn := fn |}
                             else t) (timers s);
     next_id := next_id s; log := log s |}.

Definition note (a : action) (s : store) : store :=
  {| cells := cells s; timers := timers s; next_id := next_id s; log := a :: log s |}.

(** The host runs a pending timer: a timeout leaves the pool before its
    callback runs; whatever the callback returns is dropped. State
    updates of an unmounted component are ignored by React. *)
Definition fire (id : nat) (w : world) : world :=
  match find_timer id (mem w) with
  | None => w
  | Some t =>
      let s0 := note (Fired id) (mem w) in
      let s1 := if timer_repeats t then s0 else remove_timer id s0 in
      let '((fn, _), s2) := invoke C (timer_fn t) id s1 in
      let s3 := if timer_repeats t then save_closure id fn s2 else s2 in
      let s4 := if mounted w then s3
                else {| cells := cells (mem w); timers := timers s3;
                        next_id := next_id s3; log := log s3 |} in
      with_mem w s4
  end.

Definition step (w : world) (ev : event) : world :=
  match ev with
  | Intersect entry =>
      match observer w with
      | Some _ =>
          {| mounted := mounted w; observer := observer w;
             isInView := useInView_callback entry (isInView w);
             mem := mem w; last_deps := last_deps w; cleanup := cleanup w |}
      | None => w
      end
  | Render => if mounted w then commit w else w
  | Fire id => fire id w
  | Unmount =>
      if mounted w
      then {| mounted := false; observer := None; isInView := isInView w;
              mem := note Unmounted (run_cleanup w);
              last_deps := last_deps w; cleanup := None |}
      else w
  end.

Definition run (w : world) (evs : list event) : world := fold_left step evs w.

Definition pending (w : world) : list nat := map timer_id (timers (mem w)).

End Runtime.
End React.

Local Open Scope string_scope.

Declare Scope js_scope.
Delimit Scope js_scope with js.
Notation "x <- m ;; k" := (React.bind m (fun x => k))
  (at level 61, m at next level, right associativity) : js_scope.
Notation "m ;; k" := (React.bind m (fun _ => k))
  (at level 61, right associativity) : js_scope.

Definition visible : IntersectionObserverEntry :=
  {| isIntersecting := true; intersectionRatio := JS.of_Z 1 |}.

Definition hidden : IntersectionObserverEntry :=
  {| isIntersecting := false; intersectionRatio := JS.of_Z 0 |}.

(** ** Counter *)

(** The props after the defaults of the parameter list were applied. *)
Record CounterProps := {
  end_ : JS.number;
  suffix : string;
  prefix : string;
  duration : JS.number;
}.

Definition Counter_defaults (e : JS.number) : CounterProps :=
  {| end_ := e; suffix := ""; prefix := ""; duration := JS.of_Z 2000 |}.

(** The arrow function given to [setInterval]: it captured the mutable
    [start], and [step] and [end]; [timer] is its own identifier. *)
Inductive Counter_closure :=
| Counter_tick (start step end' : JS.number).

Definition CounterM : Type -> Type :=
  React.M (state := JS.number) (closure := Counter_closure).

Definition Counter_effect (p : CounterProps) (inView : bool) (count : JS.number)
  : CounterM (option nat) :=
  (if negb inView then React.ret None
   else
     let start := JS.of_Z 0 in
     let step := JS.div (end_ p) (JS.div (duration p) (JS.of_Z 16)) in
     timer <- React.setInterval (Counter_tick start step (end_ p)) (JS.of_Z 16) ;;
     React.ret (Some timer))%js.

Definition Counter_invoke (fn : Counter_closure) (timer : nat)
  : CounterM (Counter_closure * option nat) :=
  (match fn with
   | Counter_tick start step end' =>
       let start := JS.add start step in
       if JS.ge start end'
       then React.setState (fun _ => end') ;;
            React.clearInterval timer ;;
            React.ret (Counter_tick start step end', None)
       else React.setState (fun _ => JS.floor start) ;;
            React.ret (Counter_tick start step end', None)
   end)%js.

Definition Counter : React.component (props := CounterProps) :=
  {| React.initial := JS.of_Z 0;
     React.inview_options :=
       {| opt_threshold := Some (JS.decimal 5 10); opt_rootMargin := None |};
     React.dependencies := fun p inView _ =>
       [VBool inView; VNumber (end_ p); VNumber (duration p)];
     React.effect := Counter_effect;
     React.invoke := Counter_invoke |}.

(** The state cell [count] of a Counter instance. *)
Definition count (w : React.world (state := JS.number) (closure := Counter_closure))
  : JS.number := React.cells (React.mem w).

(** ** Typewriter *)

Record TypewriterProps := {
  text : string;
  speed : JS.number;
  delay : JS.number;
}.

Definition Typewriter_defaults (t : string) : TypewriterProps :=
  {| text := t; speed := JS.of_Z 35; delay := JS.of_Z 500 |}.

Record TypewriterState := {
  displayed : string;
  started : bool;
}.

(** The two arrow functions of the effect. Both see the [i] declared by the
    effect; the counter stays far below 2^53 and is kept as a natural
    number. *)
Inductive Typewriter_closure :=
| Typewriter_begin (i : nat) (text' : string) (speed' : JS.number)
| Typewriter_type (i : nat) (text' : string).

Definition TypewriterStore : Type :=
  React.store (state := TypewriterState) (closure := Typewriter_closure).

Definition TypewriterM : Type -> Type :=
  React.M (state := TypewriterState) (closure := Typewriter_closure).

Definition setDisplayed (d : string) : TypewriterM unit :=
  React.setState (fun s => {| displayed := d; started := started s |}).

Definition setStarted (b : bool) : TypewriterM unit :=
  React.setState (fun s => {| displayed := displayed s; started := b |}).

(** [text.slice(0, i)] for [i >= 0]. *)
Definition slice0 (s : string) (i : nat) : string := String.substring 0 i s.

Definition Typewriter_effect (p : TypewriterProps) (inView : bool) (s : TypewriterState)
  : TypewriterM (option nat) :=
  (if negb inView || started s then React.ret None
   else
     setStarted true ;;
     let i := 0%nat in
     timeout <- React.setTimeout (Typewriter_begin i (text p) (speed p)) (delay p) ;;
     React.ret (Some timeout))%js.

(** The timeout's callback ends in [return () => clearInterval(interval)];
    that function is the second component of its result. *)
Definition Typewriter_invoke (fn : Typewriter_closure) (self : nat)
  : TypewriterM (Typewriter_closure * option nat) :=
  (match fn with
   | Typewriter_begin i text' speed' =>
       interval <- React.setInterval (Typewriter_type i text') speed' ;;
       React.ret (fn, Some interval)
   | Typewriter_type i text' =>
       let i := S i in
       setDisplayed (slice0 text' i) ;;
       (if Nat.leb (String.length text') i then React.clearInterval self
        else React.ret tt) ;;
       React.ret (Typewriter_type i text', None)
   end)%js.

Definition Typewriter : React.component (props := TypewriterProps) :=
  {| React.initial := {| displayed := ""; started := false |};
     React.inview_options :=
       {| opt_threshold := Some (JS.decimal 3 10); opt_rootMargin := None |};
     React.dependencies := fun p inView s =>
       [VBool inView; VBool (started s); VString (text p);
        VNumber (speed p); VNumber (delay p)];
     React.effect := Typewriter_effect;
     React.invoke := Typewriter_invoke |}.

Definition tw (w : React.world (state := TypewriterState) (closure := Typewriter_closure))
  : TypewriterState := React.cells (React.mem w).

(** ** Reveal *)

(** The object literal [transforms]; a key it does not have reads as
    [undefined]. *)
Definition transforms : list (string * string) :=
  [("up", "translateY(60px)");
   ("left", "translateX(-60px)");
   ("right", "translateX(60px)");
   ("none", "translateY(0px)")].

Fixpoint property (obj : list (string * string)) (key : string) : option string :=
  match obj with
  | [] => None
  | (k, v) :: rest => if String.eqb k key then Some v else property rest key
  end.

(** The [opacity] and [transform] entries of the style object. The
    [transition] entry, which never changes with visibility, is left out. *)
Record RevealStyle := {
  opacity : JS.number;
  transform : option string;
}.

Definition Reveal_style (inView : bool) (direction : string) : RevealStyle :=
  {| opacity := if inView then JS.of_Z 1 else JS.of_Z 0;
     transform := if inView then Some "translate(0,0)"
                  else property transforms direction |}.

(** Reveal has no state and no timers of its own; it only calls
    [useInView]. *)
Definition Reveal : React.component (props := string) (state := unit)
                                    (closure := Empty_set) :=
  {| React.initial := tt;
     React.inview_options :=
       {| opt_threshold := Some (JS.decimal 1 10); opt_rootMargin := None |};
     React.dependencies := fun _ _ _ => [];
     React.effect := fun _ _ _ => React.ret None;
     React.invoke := fun (fn : Empty_set) _ => match fn with end |}.

Definition Reveal_render (direction : string)
    (w : React.world (state := unit) (closure := Empty_set)) : RevealStyle :=
  Reveal_style (React.isInView w) direction.

(** The CSS translation functions that occur in the component, their
    text, and the displacement (x to the right, y downward) they denote. *)
Inductive translation :=
| translateX (px : Z)
| translateY (px : Z)
| translate (x y : Z).

Definition digits (z : Z) : string :=
  DecimalString.NilZero.string_of_int (Z.to_int z).

Definition css (t : translation) : string :=
  match t with
  | translateX x => "translateX(" ++ digits x ++ "px)"
  | translateY y => "translateY(" ++ digits y ++ "px)"
  | translate x y => "translate(" ++ digits x ++ "," ++ digits y ++ ")"
  end.

Definition displacement (t : translation) : Z * Z :=
  match t with
  | translateX x => (x, 0)
  | translateY y => (0, y)
  | translate x y => (x, y)
  end.

(** ** Findings *)

Module Findings.

Record finding := {
  number : JS.number;
  suffix : string;
  label : string;
  detail : string;
}.

Definition findings : list finding :=
  [ {| number := JS.of_Z 100; suffix := "K+";
       label := "Monthly recurring revenue generated";
       detail := "for a health & wellness brand in under 90 days through affiliate optimization and AI automation" |};
    {| number := JS.of_Z 19; suffix := "x";
       label := "Return on ad spend";
       detail := "achieved through scaled creator programs — everyday creators with data-driven scripts, not celebrity endorsements" |};
    {| number := JS.of_Z 20; suffix := "M+";
       label := "GMV processed through Reacher";
       detail := "the YC-backed platform where I lead GTM — automating creator relationships for the world's largest brands" |};
    {| number := JS.of_Z 1000; suffix := "+";
       label := "Creator partnerships orchestrated";
       detail := "proving that volume of authentic voices outperforms a handful of expensive influencers every time" |} ].

(** [s[0]]: the first character as a string, [undefined] on the empty
    string. *)
Definition first_char (s : string) : option string :=
  match s with
  | EmptyString => None
  | String c _ => Some (String c EmptyString)
  end.

(** [a === b] with a string on the left. *)
Definition strict_equal (a : string) (b : option string) : bool :=
  match b with
  | Some b' => String.eqb a b'
  | None => false
  end.

(** The [prefix] attribute of the Counter element:
    [f.number >= 20 ? "$" === f.label[0] ? "$" : "" : ""]. *)
Definition prefix_of (f : finding) : string :=
  if JS.ge (number f) (JS.of_Z 20)
  then (if strict_equal "$" (first_char (label f)) then "$" else "")
  else "".

(** The props of [<Counter end={f.number} suffix={f.suffix} prefix={...} />]. *)
Definition counter_props (f : finding) : CounterProps :=
  Build_CounterProps (number f) (suffix f) (prefix_of f) (JS.of_Z 2000).

End Findings.

(** ** Hero *)

Module Hero.

(** What [handleMouseMove] reads of the event and of [window]. *)
Record MouseEvent := {
  clientX : JS.number;
  clientY : JS.number;
}.

Record Window := {
  innerWidth : JS.number;
  innerHeight : JS.number;
}.

Record MousePos := {
  x : JS.number;
  y : JS.number;
}.

(** [useState({ x: 0, y: 0 })]. *)
Definition initial : MousePos := {| x := JS.of_Z 0; y := JS.of_Z 0 |}.

(** The value [handleMouseMove] hands to [setMousePos]:
    [{ x: (e.clientX / window.innerWidth - 0.5) * 20,
       y: (e.clientY / window.innerHeight - 0.5) * 20 }]. *)
Definition handleMouseMove (window : Window) (e : MouseEvent) : MousePos :=
  {| x := JS.mul (JS.sub (JS.div (clientX e) (innerWidth window)) (JS.decimal 5 10))
                 (JS.of_Z 20);
     y := JS.mul (JS.sub (JS.div (clientY e) (innerHeight window)) (JS.decimal 5 10))
                 (JS.of_Z 20) |}.

End Hero.

(** ** Exhibit *)

Module COLORS.
Definition ink := "#0C0C0E".
Definition paper := "#F5F0EB".
Definition vermillion := "#E8432A".
Definition slate := "#6B6B6B".
Definition faint := "#E0DBD4".
Definition cream := "#FAF8F5".
End COLORS.

(** [array.map((element, index) => ...)]. *)
Fixpoint mapi_from {A B : Type} (f : A -> nat -> B) (i : nat) (l : list A) : list B :=
  match l with
  | [] => []
  | a :: l' => f a i :: mapi_from f (S i) l'
  end.

Definition mapi {A B : Type} (f : A -> nat -> B) (l : list A) : list B :=
  mapi_from f 0 l.

Module Exhibit.

Record metric := {
  label : string;
  value : string;
}.

(** The [borderBottom] of row [i] of the result card:
    [i < resultMetrics.length - 1
       ? `1px solid ${hovered ? "rgba(245,240,235,0.1)" : COLORS.faint}`
       : "none"]. *)
Definition borderBottom (hovered : bool) (resultMetrics : list metric) (i : nat)
  : string :=
  if (Z.of_nat i <? Z.of_nat (List.length resultMetrics) - 1)%Z
  then "1px solid " ++ (if hovered then "rgba(245,240,235,0.1)" else COLORS.faint)
  else "none".

(** The rows [resultMetrics.map((m, i) => ...)] renders: each metric with
    the border of its row. *)
Definition rows (hovered : bool) (resultMetrics : list metric)
  : list (metric * string) :=
  mapi (fun m i => (m, borderBottom hovered resultMetrics i)) resultMetrics.

End Exhibit.

(** ** Observables the properties are stated on *)

(** Whether an entry with [isIntersecting] reached the observer callback:
    the observer is connected from the mount until the unmount. *)
Fixpoint entered (evs : list event) : bool :=
  match evs with
  | [] => false
  | Intersect entry :: rest => isIntersecting entry || entered rest
  | Unmount :: _ => false
  | _ :: rest => entered rest
  end.

Definition has_unmount (evs : list event) : bool :=
  existsb (fun ev => match ev with Unmount => true | _ => false end) evs.

Definition no_fire (evs : list event) : bool :=
  forallb (fun ev => match ev with Fire _ => false | _ => true end) evs.


Section Observables.

Context {props state closure : Type}.
Variable C : React.component (props := props) (state := state) (closure := closure).
Variable p : props.

(** The value of [isInView] before any event and after each one. *)
Fixpoint history (w : React.world) (evs : list event) : list bool :=
  React.isInView w ::
  match evs with
  | [] => []
  | ev :: rest => history (React.step C p w ev) rest
  end.

End Observables.

(** Number of places where a list of flags goes from [a] to [b]. *)
Fixpoint changes (a b : bool) (l : list bool) : nat :=
  match l with
  | x :: (y :: _) as rest =>
      ((if Bool.eqb x a && Bool.eqb y b then 1 else 0) + changes a b rest)%nat
  | _ => 0%nat
  end.

Definition timeouts_set (lg : list action) : nat :=
  List.length (filter (fun a => match a with SetTimeout _ => true | _ => false end) lg).

Definition intervals_set (lg : list action) : nat :=
  List.length (filter (fun a => match a with SetInterval _ => true | _ => false end) lg).

(** Callbacks that ran after the instance was unmounted (the log is newest
    first). *)
Fixpoint fired_after_unmount (lg : list action) : list nat :=
  match lg with
  | [] => []
  | Unmounted :: _ => []
  | Fired id :: rest =>
      if existsb (fun a => match a with Unmounted => true | _ => false end) rest
      then id :: fired_after_unmount rest
      else []
  | _ :: rest => fired_after_unmount rest
  end.

(** *** Counter: the run of the interval *)

Definition Counter_props (e d : JS.number) : CounterProps :=
  {| end_ := e; suffix := ""; prefix := ""; duration := d |}.

(** The instance once it has scrolled into view and React has rendered it
    again: the effect has started the interval, which got identifier 1. *)
Definition Counter_visible (p : CounterProps) :=
  React.run Counter p (React.mount Counter p) [Intersect visible; Render].

(** The values of [count] after each tick of the interval, until it is no
    longer pending or [fuel] ticks have run; the flag tells whether the
    interval was cancelled. *)
Fixpoint Counter_ticks (p : CounterProps) (fuel : nat)
    (w : React.world (state := JS.number) (closure := Counter_closure))
  : list JS.number * bool :=
  match React.find_timer 1 (React.mem w) with
  | None => ([], true)
  | Some _ =>
      match fuel with
      | O => ([], false)
      | S fuel' =>
          let w' := React.step Counter p w (Fire 1) in
          let '(vs, done) := Counter_ticks p fuel' w' in
          (count w' :: vs, done)
      end
  end.

Fixpoint nondecreasing (vs : list JS.number) : bool :=
  match vs with
  | x :: (y :: _) as rest => JS.ge y x && nondecreasing rest
  | _ => true
  end.

Definition bounded_by (e : JS.number) (vs : list JS.number) : bool :=
  forallb (fun v => JS.ge e v) vs.

Definition ends_with (e : JS.number) (vs : list JS.number) : bool :=
  match rev vs with
  | v :: _ => number_same v e
  | [] => false
  end.

(** [ceil(duration / 16)] for an integer duration. *)
Definition ceil16 (duration : Z) : Z := (duration + 15) / 16.

(** The run of [<Counter end={e} duration={d} />] is complete within
    [fuel] ticks, its displayed values never decrease, never exceed [e],
    and end with [e]. *)
Definition Counter_animates (e d : JS.number) (fuel : nat) : bool :=
  let p := Counter_props e d in
  let '(vs, done) := Counter_ticks p fuel (Counter_visible p) in
  done && nondecreasing (JS.of_Z 0 :: vs) && bounded_by e vs && ends_with e vs.

(** Number of ticks that ran before the interval was cancelled, when it
    was cancelled within [fuel] ticks. *)
Definition Counter_tick_count (e d : JS.number) (fuel : nat) : option nat :=
  let p := Counter_props e d in
  let '(vs, done) := Counter_ticks p fuel (Counter_visible p) in
  if done then Some (List.length vs) else None.

(** A Counter whose parent may pass other props at each event: the run
    from the mount with [p0] through a list of props and events. *)
Definition Counter_run_with (p0 : CounterProps) (pevs : list (CounterProps * event)) :=
  fold_left (fun w pe => React.step Counter (fst pe) w (snd pe)) pevs
            (React.mount Counter p0).

(** *** Typewriter *)

Definition Typewriter_run (p : TypewriterProps) (evs : list event) :=
  React.run Typewriter p (React.mount Typewriter p) evs.

Definition Counter_run (p : CounterProps) (evs : list event) :=
  React.run Counter p (React.mount Counter p) evs.

(** What a Typewriter instance can hold at any time: no timer and nothing
    scheduled so far while [started] is false; afterwards the one timeout
    was scheduled, and the pool holds nothing, that timeout, or the interval
    its callback started. *)
Definition Typewriter_shape (s : TypewriterStore) : Prop :=
  let lg := React.log s in
  match React.timers s with
  | [] =>
      if started (React.cells s)
      then timeouts_set lg = 1%nat /\ (intervals_set lg <= 1)%nat
      else timeouts_set lg = 0%nat /\ intervals_set lg = 0%nat
  | [t] =>
      started (React.cells s) = true /\ timeouts_set lg = 1%nat /\
      match React.timer_fn t with
      | Typewriter_begin _ _ _ =>
          React.timer_repeats t = false /\ intervals_set lg = 0%nat
      | Typewriter_type _ _ =>
          React.timer_repeats t = true /\ intervals_set lg = 1%nat
      end
  | _ => False
  end.

(** A log entry that schedules nothing. *)
Definition silent (a : action) : bool :=
  match a with
  | SetTimeout _ | SetInterval _ => false
  | _ => true
  end.

(** What a Counter instance can hold at any time: at most one timer, and
    it is the one the effect's cleanup clears; nothing once unmounted. *)
Definition Counter_owned
    (w : React.world (state := JS.number) (closure := Counter_closure)) : Prop :=
  (React.mounted w = false ->
   React.observer w = None /\ React.timers (React.mem w) = []) /\
  match React.timers (React.mem w) with
  | [] => True
  | [t] => React.cleanup w = Some (React.timer_id t)
  | _ => False
  end.

(** A Typewriter whose timeout was cancelled before it fired. *)
Definition Typewriter_silenced
    (w : React.world (state := TypewriterState) (closure := Typewriter_closure)) : Prop :=
  React.timers (React.mem w) = [] /\
  React.cells (React.mem w) = {| displayed := ""; started := true |} /\
  fired_after_unmount (React.log (React.mem w)) = [] /\
  filter (fun a => match a with Fired _ => true | _ => false end)
         (React.log (React.mem w)) = [].

(** *** The sentences about the Counter, as the specification words them *)

(** "Resolves immediately to the final value, without dividing by zero,
    and leaves no timer pending": the divisor [duration / 16] of the step is
    a non-zero number, and by the first tick [count] is [end] and the pool
    is empty. *)
Definition Counter_resolves_at_once (e d : JS.number) : Prop :=
  let p := Counter_props e d in
  let w := React.step Counter p (Counter_visible p) (Fire 1) in
  JS.truthy (JS.div d (JS.of_Z 16)) = true /\
  number_same (count w) e = true /\
  React.pending w = [].

(** "The sequence of displayed values is non-decreasing, never exceeds
    [end], and its final value is [end]". *)
Definition Counter_reaches_end (e d : JS.number) : Prop :=
  exists fuel, Counter_animates e d fuel = true.

(** "The number of ticks before the interval is cancelled is at most
    [ceil(duration / 16)]". *)
Definition Counter_within_ceil (e d : Z) : Prop :=
  exists fuel n,
    Counter_tick_count (JS.of_Z e) (JS.of_Z d) fuel = Some n /\
    Z.of_nat n <= ceil16 d.

(** The durations for which [duration / 16] is a positive number below
    2^52: the numbers from 2^-1017 up to the largest one below 2^55. *)
Definition duration_least : JS.number := S754_finite false (2 ^ 52) (-1069).
Definition duration_most : JS.number := S754_finite false (2 ^ 53 - 1) 2.

Definition Counter_duration_in_range (d : JS.number) : Prop :=
  canon d /\ JS.ge d duration_least = true /\ JS.ge duration_most d = true.

(** Every function a Typewriter has handed to a timer captured the
    [text] prop, and [displayed] is [text.slice(0, i)] for some [i]. *)
Definition Typewriter_captured (p : TypewriterProps) (fn : Typewriter_closure) : Prop :=
  match fn with
  | Typewriter_begin _ tx _ => tx = text p
  | Typewriter_type _ tx => tx = text p
  end.

Definition Typewriter_texts (p : TypewriterProps) (s : TypewriterStore) : Prop :=
  (exists i, displayed (React.cells s) = slice0 (text p) i) /\
  Forall (fun t => Typewriter_captured p (React.timer_fn t)) (React.timers s).

(** * Properties *)

(** ** Binary64 arithmetic: rounding and order *)

Local Open Scope Z_scope.

Lemma digits2_size (m : positive) : digits2_pos m = Pos.size m.
Proof. induction m; cbn; congruence. Qed.

Lemma Zdigits2_log2 (m : positive) : Zdigits2 (Zpos m) = Z.log2 (Zpos m) + 1.
Proof.
  cbn [Zdigits2]. rewrite digits2_size.
  destruct m; cbn [Z.log2 Pos.size]; lia.
Qed.

Lemma Zdigits2_nonneg z : 0 <= Zdigits2 z.
Proof. destruct z; cbn; lia. Qed.

Lemma Zdigits2_pos_spec (m : positive) :
  2 ^ (Zdigits2 (Zpos m) - 1) <= Zpos m < 2 ^ Zdigits2 (Zpos m).
Proof.
  rewrite Zdigits2_log2. replace (Z.log2 (Zpos m) + 1 - 1) with (Z.log2 (Zpos m)) by lia.
  replace (Z.log2 (Zpos m) + 1) with (Z.succ (Z.log2 (Zpos m))) by lia.
  apply Z.log2_spec. lia.
Qed.

(* digits of a non-negative integer, characterised *)
Lemma Zdigits2_unique (z d : Z) :
  0 < d -> 2 ^ (d - 1) <= z < 2 ^ d -> Zdigits2 z = d.
Proof.
  intros Hd H. assert (0 < z) by (pose proof (Z.pow_pos_nonneg 2 (d-1)); lia).
  destruct z as [|m|m]; try lia.
  rewrite Zdigits2_log2.
  assert (Z.log2 (Zpos m) = d - 1); [|lia].
  apply Z.log2_unique; [lia|]. replace (Z.succ (d - 1)) with d by lia. exact H.
Qed.

Lemma shr_1_m mrs : 0 <= shr_m mrs -> shr_m (shr_1 mrs) = Z.div2 (shr_m mrs).
Proof.
  destruct mrs as [m r s]. cbn. destruct m as [|[p|p|]|p]; cbn; try reflexivity; lia.
Qed.

Lemma shr_1_nonneg mrs : 0 <= shr_m mrs -> 0 <= shr_m (shr_1 mrs).
Proof.
  intros H. rewrite shr_1_m by exact H. rewrite Z.div2_div. apply Z.div_pos; lia.
Qed.

Lemma iter_shr_m (k : positive) : forall mrs,
  0 <= shr_m mrs ->
  shr_m (iter_pos shr_1 k mrs) = Z.shiftr (shr_m mrs) (Zpos k).
Proof.
  induction k as [k IH|k IH|]; intros mrs H; cbn [iter_pos].
  - assert (H1 := shr_1_nonneg _ H).
    assert (H2 : 0 <= shr_m (iter_pos shr_1 k (shr_1 mrs))).
    { rewrite IH by exact H1. apply Z.shiftr_nonneg. exact H1. }
    rewrite IH by exact H2. rewrite IH by exact H1. rewrite shr_1_m by exact H.
    rewrite Z.div2_spec. rewrite !Z.shiftr_shiftr by lia. f_equal. lia.
  - assert (H2 : 0 <= shr_m (iter_pos shr_1 k mrs)).
    { rewrite IH by exact H. apply Z.shiftr_nonneg. exact H. }
    rewrite IH by exact H2. rewrite IH by exact H.
    rewrite !Z.shiftr_shiftr by lia. f_equal. lia.
  - rewrite shr_1_m by exact H. now rewrite Z.div2_spec.
Qed.

Lemma shr_spec mrs e n :
  0 <= shr_m mrs ->
  shr_m (fst (shr mrs e n)) = Z.shiftr (shr_m mrs) (Z.max 0 n) /\
  snd (shr mrs e n) = e + Z.max 0 n.
Proof.
  intros H. destruct n as [|p|p]; cbn [shr fst snd].
  - rewrite Z.shiftr_0_r. lia.
  - rewrite iter_shr_m by exact H. replace (Z.max 0 (Zpos p)) with (Zpos p) by lia. auto.
  - replace (Z.max 0 (Zneg p)) with 0 by lia. rewrite Z.shiftr_0_r. lia.
Qed.

Lemma shr_record_of_loc_m m l : shr_m (shr_record_of_loc m l) = m.
Proof. destruct l as [|[| |]]; reflexivity. Qed.

Lemma round_nearest_even_bounds m l :
  m <= round_nearest_even m l <= m + 1.
Proof.
  destruct l as [|[| |]]; cbn; try lia. destruct (Z.even m); lia.
Qed.

Lemma fexp_fexp64 e : fexp JS.prec JS.emax e = fexp64 e.
Proof. reflexivity. Qed.

Lemma Zdigits2_shiftr m n :
  0 <= m -> 0 <= n -> Zdigits2 (Z.shiftr m n) = Z.max 0 (Zdigits2 m - n).
Proof.
  intros Hm Hn. rewrite Z.shiftr_div_pow2 by exact Hn.
  destruct m as [|p|p]; [| |lia].
  - rewrite Z.div_0_l by (apply Z.pow_nonzero; lia). cbn. lia.
  - pose proof (Zdigits2_pos_spec p) as [L U].
    set (d := Zdigits2 (Zpos p)) in *.
    assert (0 < d) by (subst d; cbn; lia).
    destruct (Z_lt_le_dec n d) as [Hlt|Hge].
    + replace (Z.max 0 (d - n)) with (d - n) by lia.
      apply Zdigits2_unique; [lia|].
      assert (P : 0 < 2 ^ n) by (apply Z.pow_pos_nonneg; lia).
      split.
      * apply Z.div_le_lower_bound; [exact P|].
        rewrite <- Z.pow_add_r by lia. replace (n + (d - n - 1)) with (d - 1) by lia.
        exact L.
      * apply Z.div_lt_upper_bound; [exact P|].
        rewrite <- Z.pow_add_r by lia. replace (n + (d - n)) with d by lia. exact U.
    + replace (Z.max 0 (d - n)) with 0 by lia.
      rewrite Z.div_small; [reflexivity|].
      split; [lia|]. apply Z.lt_le_trans with (2 ^ d); [exact U|].
      apply Z.pow_le_mono_r; lia.
Qed.

Lemma Zdigits2_succ m :
  0 <= m -> Zdigits2 m <= Zdigits2 (m + 1) <= Zdigits2 m + 1.
Proof.
  intros Hm. destruct m as [|p|p]; [cbn; lia| |lia].
  pose proof (Zdigits2_pos_spec p) as [L U].
  set (d := Zdigits2 (Zpos p)) in *.
  assert (0 < d) by (subst d; cbn; lia).
  destruct (Z.eq_dec (Zpos p + 1) (2 ^ d)) as [E|N].
  - rewrite (Zdigits2_unique (Zpos p + 1) (d + 1)); [lia|lia|].
    replace (d + 1 - 1) with d by lia. rewrite E. split; [lia|].
    apply Z.pow_lt_mono_r; lia.
  - rewrite (Zdigits2_unique (Zpos p + 1) d); [lia|lia|]. lia.
Qed.

Lemma Zdigits2_succ_carry m :
  0 <= m -> Zdigits2 (m + 1) = Zdigits2 m + 1 -> m + 1 = 2 ^ Zdigits2 m.
Proof.
  intros Hm. destruct m as [|p|p]; [cbn; lia| |lia].
  pose proof (Zdigits2_pos_spec p) as [L U].
  set (d := Zdigits2 (Zpos p)) in *.
  assert (0 < d) by (subst d; cbn; lia).
  destruct (Z.eq_dec (Zpos p + 1) (2 ^ d)) as [E|N]; [auto|].
  rewrite (Zdigits2_unique (Zpos p + 1) d); [lia|lia|lia].
Qed.

Lemma Zdigits2_mono a b : 0 <= a <= b -> Zdigits2 a <= Zdigits2 b.
Proof.
  intros [Ha Hab]. destruct a as [|p|p]; [apply Zdigits2_nonneg| |lia].
  destruct b as [|q|q]; try lia.
  rewrite !Zdigits2_log2. apply Z.add_le_mono_r, Z.log2_le_mono. exact Hab.
Qed.

(** The two shifts of [binary_round_aux], spelled out. *)
Lemma binary_round_aux_unfold sx mx ex lx :
  0 <= mx ->
  let n1 := Z.max 0 (fexp64 (Zdigits2 mx + ex) - ex) in
  let m1 := Z.shiftr mx n1 in
  let e1 := ex + n1 in
  exists m1',
    m1 <= m1' <= m1 + 1 /\
    let n2 := Z.max 0 (fexp64 (Zdigits2 m1' + e1) - e1) in
    binary_round_aux JS.prec JS.emax sx mx ex lx =
    match Z.shiftr m1' n2 with
    | Z0 => S754_zero sx
    | Zpos m => if e1 + n2 <=? 971 then S754_finite sx m (e1 + n2)
                else S754_infinity sx
    | Zneg _ => S754_nan
    end.
Proof.
  intros Hm n1 m1 e1. unfold binary_round_aux, shr_fexp.
  rewrite !fexp_fexp64.
  pose proof (shr_spec (shr_record_of_loc mx lx) ex (fexp64 (Zdigits2 mx + ex) - ex)) as S1.
  rewrite shr_record_of_loc_m in S1. specialize (S1 Hm).
  destruct (shr (shr_record_of_loc mx lx) ex _) as [mrs' e'].
  cbn [fst snd] in S1. destruct S1 as [S1 S1']. fold n1 in S1, S1'. fold m1 in S1.
  fold e1 in S1'. subst e'.
  set (m1' := round_nearest_even (shr_m mrs') (loc_of_shr_record mrs')).
  assert (B : m1 <= m1' <= m1 + 1).
  { subst m1'. rewrite <- S1. apply round_nearest_even_bounds. }
  exists m1'. split; [exact B|]. cbn zeta.
  assert (Hm1 : 0 <= m1) by (subst m1; apply Z.shiftr_nonneg; exact Hm).
  pose proof (shr_spec (shr_record_of_loc m1' loc_Exact) e1
                (fexp64 (Zdigits2 m1' + e1) - e1)) as S2.
  rewrite shr_record_of_loc_m in S2. specialize (S2 ltac:(lia)).
  destruct (shr (shr_record_of_loc m1' loc_Exact) e1 _) as [mrs'' e''].
  cbn [fst snd] in S2. destruct S2 as [S2 S2']. rewrite S2, S2'. reflexivity.
Qed.

Lemma binary_round_aux_spec sx mx ex lx :
  0 <= mx ->
  ex <= fexp64 (Zdigits2 mx + ex) ->
  let c := fexp64 (Zdigits2 mx + ex) in
  let m1 := Z.shiftr mx (c - ex) in
  (binary_round_aux JS.prec JS.emax sx mx ex lx = S754_zero sx /\ m1 = 0) \/
  (binary_round_aux JS.prec JS.emax sx mx ex lx = S754_infinity sx /\ 971 <= c) \/
  exists m2 e2,
    binary_round_aux JS.prec JS.emax sx mx ex lx = S754_finite sx m2 e2 /\
    canonical64 m2 e2 /\ e2 <= 971 /\ c <= e2 <= c + 1 /\
    m1 <= Zpos m2 * 2 ^ (e2 - c) <= m1 + 1.
Proof.
  intros Hm Hp c m1.
  destruct (binary_round_aux_unfold sx mx ex lx Hm) as (m1' & B & E).
  cbn zeta in E.
  replace (Z.max 0 (fexp64 (Zdigits2 mx + ex) - ex)) with (c - ex) in * by (subst c; lia).
  replace (ex + (c - ex)) with c in * by lia.
  fold m1 in B, E.
  assert (Hm1 : 0 <= m1) by (subst m1; apply Z.shiftr_nonneg; exact Hm).
  assert (D1 : Zdigits2 m1 = Z.max 0 (Zdigits2 mx - (c - ex))).
  { subst m1. apply Zdigits2_shiftr; lia. }
  assert (Hd : 0 <= Zdigits2 mx) by apply Zdigits2_nonneg.
  assert (Fc : fexp64 (Zdigits2 m1 + c) = c).
  { rewrite D1. subst c. unfold fexp64 in *. lia. }
  assert (L53 : Zdigits2 m1 <= 53).
  { rewrite D1. subst c. unfold fexp64 in *. lia. }
  destruct (Z.eq_dec (Zdigits2 m1') (Zdigits2 m1)) as [Eq|Ne].
  - rewrite Eq, Fc in E. replace (Z.max 0 (c - c)) with 0 in E by lia.
    rewrite Z.shiftr_0_r, Z.add_0_r in E.
    destruct m1' as [|p|p]; [left|right|lia].
    + split; [exact E|lia].
    + destruct (c <=? 971) eqn:Le;
        [right|left; split; [exact E|apply Z.leb_gt in Le; lia]].
      exists p, c. split; [exact E|]. unfold canonical64. rewrite Eq, Fc.
      apply Z.leb_le in Le. rewrite Z.sub_diag, Z.mul_1_r. repeat split; lia.
  - assert (S : m1' = m1 + 1).
    { destruct (Z.eq_dec m1' m1) as [->|]; [congruence|lia]. }
    pose proof (Zdigits2_succ m1 Hm1) as Sd. rewrite <- S in Sd.
    assert (Dc : Zdigits2 m1' = Zdigits2 m1 + 1) by lia.
    pose proof (Zdigits2_succ_carry m1 Hm1) as Cy. rewrite <- S in Cy.
    specialize (Cy Dc).
    destruct (Z.eq_dec (Zdigits2 m1) 53) as [E53|N53].
    + (* carry out of a full mantissa: one more shift *)
      assert (F1 : fexp64 (Zdigits2 m1' + c) = c + 1).
      { rewrite Dc, E53. unfold fexp64 in *. lia. }
      rewrite F1 in E. replace (Z.max 0 (c + 1 - c)) with 1 in E by lia.
      rewrite Cy, E53 in E. change (Z.shiftr (2 ^ 53) 1) with (Zpos (2 ^ 52)) in E.
      right. destruct (c + 1 <=? 971) eqn:Le;
        [right|left; split; [exact E|apply Z.leb_gt in Le; lia]].
      exists (2 ^ 52)%positive, (c + 1). split; [exact E|].
      apply Z.leb_le in Le. unfold canonical64.
      change (Zdigits2 (Zpos (2 ^ 52))) with 53.
      replace (c + 1 - c) with 1 by lia.
      change (Zpos (2 ^ 52) * 2 ^ 1) with (2 ^ 53). rewrite <- E53, <- Cy.
      unfold fexp64 in *. repeat split; lia.
    + assert (F1 : fexp64 (Zdigits2 m1' + c) = c).
      { rewrite Dc. unfold fexp64 in *. lia. }
      rewrite F1 in E. replace (Z.max 0 (c - c)) with 0 in E by lia.
      rewrite Z.shiftr_0_r, Z.add_0_r in E.
      destruct m1' as [|p|p]; [lia| |lia].
      right. destruct (c <=? 971) eqn:Le;
        [right|left; split; [exact E|apply Z.leb_gt in Le; lia]].
      exists p, c. split; [exact E|]. unfold canonical64. rewrite F1.
      apply Z.leb_le in Le. rewrite Z.sub_diag, Z.mul_1_r. repeat split; lia.
Qed.

Lemma iter_xO (m d : positive) : Zpos (Pos.iter xO m d) = Zpos m * 2 ^ Zpos d.
Proof.
  rewrite (Pos.iter_swap_gen _ _ Zpos xO (Z.mul 2)) by reflexivity.
  change (Pos.iter (Z.mul 2) (Zpos m) d) with (Z.shiftl (Zpos m) (Zpos d)).
  apply Z.shiftl_mul_pow2. lia.
Qed.

Lemma shl_align_spec mx ex ex' :
  snd (shl_align mx ex ex') = Z.min ex ex' /\
  Zpos (fst (shl_align mx ex ex')) = Zpos mx * 2 ^ (ex - Z.min ex ex').
Proof.
  unfold shl_align. destruct (ex' - ex) as [|d|d] eqn:E; cbn [fst snd].
  - replace (Z.min ex ex') with ex by lia. rewrite Z.sub_diag. cbn. lia.
  - replace (Z.min ex ex') with ex by lia. rewrite Z.sub_diag. cbn. lia.
  - replace (Z.min ex ex') with ex' by lia. rewrite iter_xO.
    replace (ex - ex') with (Zpos d) by lia. auto.
Qed.

Lemma Zdigits2_mul_pow2 (m : positive) k :
  0 <= k -> Zdigits2 (Zpos m * 2 ^ k) = Zdigits2 (Zpos m) + k.
Proof.
  intros Hk. pose proof (Zdigits2_pos_spec m) as [L U].
  assert (0 < Zdigits2 (Zpos m)) by (cbn; lia).
  apply Zdigits2_unique; [lia|].
  replace (Zdigits2 (Zpos m) + k - 1) with (Zdigits2 (Zpos m) - 1 + k) by lia.
  rewrite !Z.pow_add_r by lia.
  assert (0 < 2 ^ k) by (apply Z.pow_pos_nonneg; lia). nia.
Qed.

(** [binary_round] of a positive mantissa whose exponent is not below the
    least one: never zero, canonical when finite, and not below the
    truncation. *)
Lemma binary_round_spec sx mx ex :
  -1074 <= ex ->
  let c := fexp64 (Zdigits2 (Zpos mx) + ex) in
  let ez := Z.min ex c in
  let m1 := Z.shiftr (Zpos mx * 2 ^ (ex - ez)) (c - ez) in
  (binary_round JS.prec JS.emax sx mx ex = S754_infinity sx /\ 971 <= c) \/
  exists m2 e2,
    binary_round JS.prec JS.emax sx mx ex = S754_finite sx m2 e2 /\
    canonical64 m2 e2 /\ e2 <= 971 /\ c <= e2 <= c + 1 /\
    m1 <= Zpos m2 * 2 ^ (e2 - c) <= m1 + 1.
Proof.
  intros He c ez m1. unfold binary_round. rewrite fexp_fexp64.
  change (Z.pos (digits2_pos mx)) with (Zdigits2 (Zpos mx)). fold c.
  pose proof (shl_align_spec mx ex c) as [S2 S1].
  destruct (shl_align mx ex c) as [mz ez']. cbn [fst snd] in S1, S2.
  fold ez in S1, S2. subst ez'.
  assert (Hk : 0 <= ex - ez) by lia.
  assert (Dz : Zdigits2 (Zpos mz) + ez = Zdigits2 (Zpos mx) + ex).
  { rewrite S1, Zdigits2_mul_pow2 by exact Hk. lia. }
  assert (Pc : ez <= fexp64 (Zdigits2 (Zpos mz) + ez)) by (rewrite Dz; fold c; lia).
  destruct (binary_round_aux_spec sx (Zpos mz) ez loc_Exact ltac:(lia) Pc)
    as [[_ Z0]|[[I Ic]|(m2 & e2 & E & C & B & L & M)]].
  - exfalso. rewrite Dz in Z0. fold c in Z0.
    assert (D0 : Zdigits2 (Z.shiftr (Zpos mz) (c - ez)) = 0) by (rewrite Z0; reflexivity).
    rewrite Zdigits2_shiftr in D0 by lia.
    assert (0 < Zdigits2 (Zpos mx)) by (cbn; lia).
    subst c ez. unfold fexp64 in *. lia.
  - left. rewrite Dz in Ic. now split.
  - right. exists m2, e2. rewrite Dz in L, M. fold c in L, M. rewrite S1 in M.
    fold m1 in M. repeat split; auto; lia.
Qed.

Lemma add_finite mx ex my ey :
  JS.add (S754_finite false mx ex) (S754_finite false my ey) =
  binary_round JS.prec JS.emax false
    (fst (shl_align mx ex (Z.min ex ey)) + fst (shl_align my ey (Z.min ex ey)))
    (Z.min ex ey).
Proof. reflexivity. Qed.

(** The sum of two positive numbers, the first canonical: infinite, or
    canonical and not below the first in the order of representations. *)
Lemma add_finite_spec mx ex my ey :
  canonical64 mx ex -> -1074 <= ey ->
  JS.add (S754_finite false mx ex) (S754_finite false my ey) = S754_infinity false \/
  exists m2 e2,
    JS.add (S754_finite false mx ex) (S754_finite false my ey)
    = S754_finite false m2 e2 /\
    canonical64 m2 e2 /\ e2 <= 971 /\
    (ex < e2 \/
     (e2 = ex /\
      Zpos mx + Zpos my * 2 ^ (ey - Z.min ex ey) / 2 ^ (ex - Z.min ex ey)
      <= Zpos m2)).
Proof.
  intros Cx Hy. rewrite add_finite.
  assert (Hx : -1074 <= ex) by (unfold canonical64, fexp64 in Cx; lia).
  set (ez := Z.min ex ey).
  pose proof (shl_align_spec mx ex ez) as [_ Sx].
  pose proof (shl_align_spec my ey ez) as [_ Sy].
  replace (Z.min ex ez) with ez in Sx by lia.
  replace (Z.min ey ez) with ez in Sy by lia.
  set (m := (fst (shl_align mx ex ez) + fst (shl_align my ey ez))%positive).
  assert (Em : Zpos m = Zpos mx * 2 ^ (ex - ez) + Zpos my * 2 ^ (ey - ez)).
  { subst m. rewrite Pos2Z.inj_add, Sx, Sy. reflexivity. }
  assert (Px : 0 < 2 ^ (ex - ez)) by (apply Z.pow_pos_nonneg; lia).
  assert (Py : 0 < 2 ^ (ey - ez)) by (apply Z.pow_pos_nonneg; lia).
  assert (Dm : Zdigits2 (Zpos mx) + ex <= Zdigits2 (Zpos m) + ez).
  { assert (Zdigits2 (Zpos mx * 2 ^ (ex - ez)) <= Zdigits2 (Zpos m)).
    { apply Zdigits2_mono. rewrite Em. nia. }
    rewrite Zdigits2_mul_pow2 in H by lia. lia. }
  destruct (binary_round_spec false m ez ltac:(lia))
    as [[I _]|(m2 & e2 & E & C & B & L & M)]; [now left|right].
  exists m2, e2. split; [exact E|]. split; [exact C|]. split; [exact B|].
  set (c := fexp64 (Zdigits2 (Zpos m) + ez)) in *.
  assert (Hc : ex <= c).
  { subst c. unfold canonical64, fexp64 in *. lia. }
  destruct (Z.eq_dec e2 ex) as [->|]; [right|left; lia].
  split; [reflexivity|].
  assert (Ec : c = ex) by lia. destruct M as [M _].
  replace (Z.min ez c) with ez in M by lia.
  rewrite Ec, !Z.sub_diag, !Z.mul_1_r in M.
  rewrite Z.shiftr_div_pow2 in M by lia.
  eapply Z.le_trans; [|exact M].
  rewrite Em, Z.div_add_l by lia. lia.
Qed.

(** The quotient computed by [SFdiv_core_binary] carries at least the
    precision its exponent asks for. *)
Lemma div_core_spec (m1 m2 : positive) (e1 e2 : Z) :
  let delta := Zdigits2 (Zpos m1) + e1 - (Zdigits2 (Zpos m2) + e2) in
  let '(q, e', _) := SFdiv_core_binary JS.prec JS.emax (Zpos m1) e1 (Zpos m2) e2 in
  0 <= q /\ e' <= fexp64 (Zdigits2 q + e') /\
  e' <= fexp64 delta /\ (q = 0 -> delta <= e') /\
  (0 < q -> delta <= Zdigits2 q + e' <= delta + 1).
Proof.
  unfold SFdiv_core_binary. rewrite fexp_fexp64.
  set (d1 := Zdigits2 (Zpos m1)). set (d2 := Zdigits2 (Zpos m2)).
  set (e' := Z.min (fexp64 (d1 + e1 - (d2 + e2))) (e1 - e2)).
  set (s := e1 - e2 - e').
  assert (Hs : 0 <= s) by (subst s e'; lia).
  set (m' := match s with
             | 0 => Zpos m1
             | Zpos _ => Z.shiftl (Zpos m1) s
             | Zneg _ => 0
             end).
  assert (Em : m' = Zpos m1 * 2 ^ s).
  { subst m'. destruct s as [|p|p]; [cbn; lia| |lia].
    apply Z.shiftl_mul_pow2. lia. }
  pose proof (Z_div_mod m' (Zpos m2) ltac:(lia)) as DM.
  destruct (Z.div_eucl m' (Zpos m2)) as [q r]. destruct DM as [DM R].
  assert (P2 : 0 < 2 ^ s) by (apply Z.pow_pos_nonneg; lia).
  assert (Hq : 0 <= q) by nia.
  cbn zeta. split; [exact Hq|].
  pose proof (Zdigits2_pos_spec m1) as [L1 U1]. fold d1 in L1, U1.
  pose proof (Zdigits2_pos_spec m2) as [L2 U2]. fold d2 in L2, U2.
  assert (0 < d1) by (subst d1; cbn; lia).
  assert (0 < d2) by (subst d2; cbn; lia).
  assert (Lm : 2 ^ (d1 + s - 1) <= m').
  { replace (d1 + s - 1) with (d1 - 1 + s) by lia. rewrite Z.pow_add_r by lia. nia. }
  destruct q as [|q|q]; [| |lia].
  - (* the quotient is zero: the exponent is at most the least one *)
    cbn [Zdigits2]. rewrite Z.add_0_l.
    assert (m' < 2 ^ d2) by lia.
    assert (d1 + s - 1 < d2).
    { apply (Z.pow_lt_mono_r_iff 2); lia. }
    subst s e'. unfold fexp64 in *. repeat split; lia.
  - pose proof (Zdigits2_pos_spec q) as [Lq Uq].
    set (dq := Zdigits2 (Zpos q)) in *.
    assert (0 < dq) by (subst dq; cbn; lia).
    assert (m' < 2 ^ (dq + d2)).
    { rewrite Z.pow_add_r by lia.
      assert (0 < 2 ^ dq) by (apply Z.pow_pos_nonneg; lia). nia. }
    assert (d1 + s - 1 < dq + d2).
    { apply (Z.pow_lt_mono_r_iff 2); lia. }
    assert (Um : m' < 2 ^ (d1 + s)).
    { rewrite Z.pow_add_r by lia. nia. }
    assert (2 ^ (dq - 1 + (d2 - 1)) <= m').
    { rewrite Z.pow_add_r by lia.
      assert (0 < 2 ^ (dq - 1)) by (apply Z.pow_pos_nonneg; lia).
      assert (0 < 2 ^ (d2 - 1)) by (apply Z.pow_pos_nonneg; lia). nia. }
    assert (dq - 1 + (d2 - 1) < d1 + s).
    { apply (Z.pow_lt_mono_r_iff 2); lia. }
    subst s e'. unfold fexp64 in *. repeat split; lia.
Qed.

Lemma div_canon x y :
  canon x -> canon y ->
  match x, y with
  | S754_zero _, S754_zero _ | S754_infinity _, S754_infinity _ => True
  | _, _ => canon (JS.div x y)
  end.
Proof.
  destruct x as [[|]|[|]| |[|] mx ex], y as [[|]|[|]| |[|] my ey]; cbn; auto; try tauto.
  intros _ _.
  pose proof (div_core_spec mx my ex ey) as H.
  destruct (SFdiv_core_binary JS.prec JS.emax (Zpos mx) ex (Zpos my) ey) as [[q e'] l].
  destruct H as (Hq & He & _).
  destruct (binary_round_aux_spec false q e' l Hq He)
    as [[-> _]|[[-> _]|(m2 & e2 & -> & C & B & _)]]; cbn; auto.
Qed.

Lemma canon_nonneg x : canon x -> nonneg x.
Proof. destruct x as [[|]|[|]| |[|] m e]; cbn; tauto. Qed.

Lemma leb_finite m1 e1 m2 e2 :
  SFleb (S754_finite false m1 e1) (S754_finite false m2 e2) = true <->
  e1 < e2 \/ (e1 = e2 /\ Zpos m1 <= Zpos m2).
Proof.
  unfold SFleb, SFcompare.
  destruct (Z.compare_spec e1 e2) as [E|L|G].
  - change (Pos.compare_cont Eq m1 m2) with (Pos.compare m1 m2).
    destruct (Pos.compare_spec m1 m2) as [E'|L'|G']; split; intros H;
      try discriminate; try reflexivity; lia.
  - split; [lia|reflexivity].
  - split; [discriminate|lia].
Qed.

Lemma leb_refl x : nonneg x -> SFleb x x = true.
Proof.
  destruct x as [[|]|[|]| |[|] m e]; cbn; try tauto; intros _; try reflexivity.
  apply leb_finite. lia.
Qed.

Lemma leb_trans x y z :
  nonneg x -> nonneg y -> nonneg z ->
  SFleb x y = true -> SFleb y z = true -> SFleb x z = true.
Proof.
  destruct x as [[|]|[|]| |[|] mx ex], y as [[|]|[|]| |[|] my ey],
    z as [[|]|[|]| |[|] mz ez]; cbn [nonneg]; try tauto; intros _ _ _;
    try reflexivity; try discriminate; auto.
  rewrite !leb_finite. lia.
Qed.

Lemma leb_total x y :
  nonneg x -> nonneg y -> SFleb y x = false -> SFleb x y = true.
Proof.
  destruct x as [[|]|[|]| |[|] mx ex], y as [[|]|[|]| |[|] my ey];
    cbn [nonneg]; try tauto; intros _ _; try reflexivity; try discriminate.
  intros H. apply leb_finite.
  destruct (Z_lt_le_dec ex ey) as [L|G]; [lia|].
  assert (N : ~ (ey < ex \/ ey = ex /\ Zpos my <= Zpos mx)).
  { rewrite <- leb_finite. congruence. }
  lia.
Qed.

Lemma leb_zero x : nonneg x -> SFleb (S754_zero false) x = true.
Proof. destruct x as [[|]|[|]| |[|] m e]; cbn; tauto || reflexivity. Qed.

Lemma leb_infinity x : nonneg x -> SFleb x (S754_infinity false) = true.
Proof. destruct x as [[|]|[|]| |[|] m e]; cbn; tauto || reflexivity. Qed.

(** The sum of two canonical non-negative numbers is one, and is not
    below the first. *)
Lemma add_canon x y :
  canon x -> canon y -> canon (JS.add x y) /\ JS.ge (JS.add x y) x = true.
Proof.
  unfold JS.ge.
  destruct x as [[|]|[|]| |[|] mx ex], y as [[|]|[|]| |[|] my ey];
    cbn [canon]; try tauto; intros Cx Cy;
    try (split; [exact I|reflexivity]).
  - split; [exact Cy|reflexivity].
  - split; [exact Cx|]. apply leb_finite. lia.
  - destruct Cx as [Cx Bx], Cy as [Cy By].
    assert (Hy : -1074 <= ey) by (unfold canonical64, fexp64 in Cy; lia).
    destruct (add_finite_spec mx ex my ey Cx Hy) as [->|(m2 & e2 & -> & C & B & O)].
    + split; [exact I|reflexivity].
    + assert (0 <= Zpos my * 2 ^ (ey - Z.min ex ey) / 2 ^ (ex - Z.min ex ey)).
      { apply Z.div_pos; [|apply Z.pow_pos_nonneg; lia].
        assert (0 < 2 ^ (ey - Z.min ex ey)) by (apply Z.pow_pos_nonneg; lia). lia. }
      revert H O. generalize (Zpos my * 2 ^ (ey - Z.min ex ey) / 2 ^ (ex - Z.min ex ey)).
      intros g Hg O.
      split; [split; assumption|]. apply leb_finite. lia.
Qed.

Lemma binary_round_aux_exact s m e :
  canonical64 m e -> e <= 971 ->
  binary_round_aux JS.prec JS.emax s (Zpos m) e loc_Exact = S754_finite s m e.
Proof.
  unfold canonical64. intros C B. unfold binary_round_aux, shr_fexp.
  rewrite fexp_fexp64, C, Z.sub_diag.
  cbn [shr shr_record_of_loc shr_m loc_of_shr_record round_nearest_even].
  rewrite fexp_fexp64, C, Z.sub_diag.
  cbn [shr shr_record_of_loc shr_m].
  apply Z.leb_le in B. change (Z.sub JS.emax JS.prec) with 971. now rewrite B.
Qed.

(** [binary_round] is exact on a mantissa that fits the precision. *)
Lemma binary_round_exact s m ex :
  let c := fexp64 (Zdigits2 (Zpos m) + ex) in
  c <= ex -> c <= 971 ->
  exists mz,
    binary_round JS.prec JS.emax s m ex = S754_finite s mz c /\
    Zpos mz = Zpos m * 2 ^ (ex - c).
Proof.
  intros c Hc B. unfold binary_round. rewrite fexp_fexp64.
  change (Z.pos (digits2_pos m)) with (Zdigits2 (Zpos m)). fold c.
  pose proof (shl_align_spec m ex c) as [S2 S1].
  destruct (shl_align m ex c) as [mz ez]. cbn [fst snd] in S1, S2.
  replace (Z.min ex c) with c in * by lia. subst ez.
  exists mz. split; [|exact S1].
  apply binary_round_aux_exact; [|exact B].
  unfold canonical64. rewrite S1, Zdigits2_mul_pow2 by lia.
  replace (Zdigits2 (Zpos m) + (ex - c) + c) with (Zdigits2 (Zpos m) + ex) by lia.
  reflexivity.
Qed.

(** [Math.floor] of a canonical positive number with a fractional part:
    zero, or the same exponent with the fractional bits cleared. *)
Lemma floor_frac m e :
  canonical64 m e -> e < 0 ->
  let q := Z.shiftr (Zpos m) (- e) in
  (q = 0 /\ JS.floor (S754_finite false m e) = S754_zero false) \/
  (0 < q /\ Zdigits2 (Zpos m) = 53 /\
   exists mz, JS.floor (S754_finite false m e) = S754_finite false mz e /\
              Zpos mz = q * 2 ^ (- e)).
Proof.
  intros C He q. unfold JS.floor.
  replace (0 <=? e) with false by (symmetry; apply Z.leb_gt; exact He).
  cbn [cond_Zopp]. fold q.
  assert (Hq : 0 <= q) by (subst q; apply Z.shiftr_nonneg; lia).
  assert (Dq : Zdigits2 q = Z.max 0 (Zdigits2 (Zpos m) + e)).
  { subst q. rewrite Zdigits2_shiftr by lia. f_equal. lia. }
  destruct q as [|p|p] eqn:Eq; [left; now split|right|lia].
  assert (0 < Zdigits2 (Zpos p)) by (cbn; lia).
  assert (D53 : Zdigits2 (Zpos m) = 53).
  { unfold canonical64, fexp64 in C. lia. }
  split; [lia|]. split; [exact D53|].
  cbn [binary_normalize].
  destruct (binary_round_exact false p 0) as (mz & E & V).
  - rewrite Dq, D53. unfold fexp64. lia.
  - rewrite Dq, D53. unfold fexp64. lia.
  - assert (Ec : fexp64 (Zdigits2 (Zpos p) + 0) = e).
    { rewrite Dq, D53. unfold fexp64. lia. }
    rewrite Ec in E, V. exists mz. split; [exact E|].
    rewrite V. now rewrite Z.sub_0_l.
Qed.

Lemma floor_nonneg x : canon x -> nonneg (JS.floor x).
Proof.
  destruct x as [[|]|[|]| |[|] m e]; cbn [canon]; try tauto; intros C;
    try exact I.
  destruct (Z_lt_le_dec e 0) as [L|G].
  - destruct C as [C _].
    destruct (floor_frac m e C L) as [[_ ->]|(_ & _ & mz & -> & _)]; exact I.
  - unfold JS.floor. replace (0 <=? e) with true by (symmetry; apply Z.leb_le; exact G).
    exact I.
Qed.

(** [Math.floor(x) <= x]. *)
Lemma floor_le x : canon x -> SFleb (JS.floor x) x = true.
Proof.
  intros C. pose proof (canon_nonneg x C) as N.
  destruct x as [[|]|[|]| |[|] m e]; cbn [canon] in C; try tauto;
    try (apply leb_refl; exact N).
  destruct (Z_lt_le_dec e 0) as [L|G].
  - destruct C as [C _].
    destruct (floor_frac m e C L) as [[_ ->]|(Q & _ & mz & -> & V)];
      [reflexivity|].
    apply leb_finite. right. split; [reflexivity|]. rewrite V.
    rewrite Z.shiftr_div_pow2 by lia.
    assert (0 < 2 ^ (- e)) by (apply Z.pow_pos_nonneg; lia).
    rewrite Z.mul_comm. apply Z.mul_div_le. lia.
  - unfold JS.floor. replace (0 <=? e) with true by (symmetry; apply Z.leb_le; exact G).
    apply leb_refl. exact I.
Qed.

(** [Math.floor] is monotone. *)
Lemma floor_mono a b :
  canon a -> canon b -> SFleb a b = true -> SFleb (JS.floor a) (JS.floor b) = true.
Proof.
  intros Ca Cb H.
  pose proof (floor_nonneg a Ca) as Na. pose proof (floor_nonneg b Cb) as Nb.
  destruct a as [[|]|[|]| |[|] ma ea]; cbn [canon] in Ca; try tauto.
  - now apply leb_zero.
  - destruct b as [[|]|[|]| |[|] mb eb]; cbn [canon] in Cb; try tauto;
      discriminate H || reflexivity.
  - destruct b as [[|]|[|]| |[|] mb eb]; cbn [canon] in Cb; try tauto;
      try discriminate H.
    + now apply leb_infinity.
    + destruct Ca as [Ca _], Cb as [Cb _]. apply leb_finite in H.
      destruct (Z_lt_le_dec ea 0) as [La|Ga].
      * destruct (floor_frac ma ea Ca La) as [[_ Ea]|(Qa & Da & mza & Ea & Va)];
          rewrite Ea in *; [now apply leb_zero|].
        destruct (Z_lt_le_dec eb 0) as [Lb|Gb].
        -- assert (Qb : 0 < Z.shiftr (Zpos mb) (- eb)).
           { destruct H as [Lt|[-> Le]].
             - assert (Db : Zdigits2 (Zpos mb) = 53).
               { unfold canonical64, fexp64 in Ca, Cb. lia. }
               assert (D : Zdigits2 (Z.shiftr (Zpos mb) (- eb)) = Z.max 0 (53 - - eb)).
               { rewrite Zdigits2_shiftr by lia. now rewrite Db. }
               assert (Da' : Zdigits2 (Z.shiftr (Zpos ma) (- ea)) = Z.max 0 (53 - - ea)).
               { rewrite Zdigits2_shiftr by lia. now rewrite Da. }
               assert (0 < Zdigits2 (Z.shiftr (Zpos ma) (- ea))).
               { destruct (Z.shiftr (Zpos ma) (- ea)); cbn; lia. }
               assert (0 <= Z.shiftr (Zpos mb) (- eb)) by (apply Z.shiftr_nonneg; lia).
               destruct (Z.shiftr (Zpos mb) (- eb)) as [|qb|qb];
                 [change (Zdigits2 0) with 0 in D| |]; lia.
             - eapply Z.lt_le_trans; [exact Qa|].
               rewrite !Z.shiftr_div_pow2 by lia.
               apply Z.div_le_mono; [apply Z.pow_pos_nonneg; lia|exact Le]. }
           destruct (floor_frac mb eb Cb Lb) as [[Zb _]|(_ & _ & mzb & Eb & Vb)];
             [lia|]. rewrite Eb. apply leb_finite.
           destruct H as [Lt|[-> Le]]; [now left|right].
           split; [reflexivity|]. rewrite Va, Vb.
           apply Z.mul_le_mono_nonneg_r; [apply Z.pow_nonneg; lia|].
           rewrite !Z.shiftr_div_pow2 by lia.
           apply Z.div_le_mono; [apply Z.pow_pos_nonneg; lia|exact Le].
        -- unfold JS.floor at 1.
           replace (0 <=? eb) with true by (symmetry; apply Z.leb_le; exact Gb).
           apply leb_finite. lia.
      * assert (Gb : 0 <= eb) by lia.
        unfold JS.floor.
        replace (0 <=? ea) with true by (symmetry; apply Z.leb_le; exact Ga).
        replace (0 <=? eb) with true by (symmetry; apply Z.leb_le; exact Gb).
        apply leb_finite. exact H.
Qed.

Lemma of_Z_canon z : 0 <= z -> canon (JS.of_Z z).
Proof.
  intros Hz. unfold JS.of_Z, binary_normalize. destruct z as [|p|p]; [exact I| |lia].
  destruct (binary_round_spec false p 0 ltac:(lia))
    as [[-> _]|(m2 & e2 & -> & C & B & _)]; cbn; auto.
Qed.

(** An integer below 2^53 is represented exactly, with a full mantissa. *)
Lemma of_Z_small z :
  0 < z < 2 ^ 53 ->
  exists m, JS.of_Z z = S754_finite false m (Zdigits2 z - 53) /\
            Zdigits2 (Zpos m) = 53.
Proof.
  intros [Hz Hb]. destruct z as [|p|p]; try lia.
  assert (D : Zdigits2 (Zpos p) <= 53).
  { rewrite Zdigits2_log2.
    assert (Z.log2 (Zpos p) < 53) by (apply Z.log2_lt_pow2; lia). lia. }
  assert (0 < Zdigits2 (Zpos p)) by (cbn; lia).
  unfold JS.of_Z, binary_normalize.
  destruct (binary_round_exact false p 0) as (mz & E & V).
  - unfold fexp64. lia.
  - unfold fexp64. lia.
  - assert (Ec : fexp64 (Zdigits2 (Zpos p) + 0) = Zdigits2 (Zpos p) - 53)
      by (unfold fexp64; lia).
    rewrite Ec in E, V. exists mz. split; [exact E|].
    rewrite V, Zdigits2_mul_pow2 by lia. lia.
Qed.

(** The quotient of two positive numbers, when not in the subnormal range:
    where its leading digit stands. *)
Lemma div_finite_digits mx ex my ey :
  let delta := Zdigits2 (Zpos mx) + ex - (Zdigits2 (Zpos my) + ey) in
  -1021 <= delta ->
  (JS.div (S754_finite false mx ex) (S754_finite false my ey) = S754_infinity false /\
   971 <= fexp64 (delta + 1)) \/
  exists m2 e2,
    JS.div (S754_finite false mx ex) (S754_finite false my ey)
    = S754_finite false m2 e2 /\
    canonical64 m2 e2 /\ e2 <= 971 /\
    delta <= Zdigits2 (Zpos m2) + e2 <= delta + 2.
Proof.
  intros delta Hd. unfold JS.div, SFdiv.
  pose proof (div_core_spec mx my ex ey) as H. cbn zeta in H. fold delta in H.
  destruct (SFdiv_core_binary JS.prec JS.emax (Zpos mx) ex (Zpos my) ey) as [[q e'] l].
  destruct H as (Hq & He & Hf & H0 & H1). cbn [xorb].
  assert (Q : 0 < q).
  { destruct (Z.eq_dec q 0) as [E|]; [|lia].
    specialize (H0 E). unfold fexp64 in Hf. lia. }
  specialize (H1 Q).
  pose proof (binary_round_aux_spec false q e' l Hq He) as R. cbn zeta in R.
  set (c := fexp64 (Zdigits2 q + e')) in *.
  assert (D1 : Zdigits2 (Z.shiftr q (c - e')) = 53).
  { rewrite Zdigits2_shiftr by lia. subst c. unfold fexp64 in *. lia. }
  destruct R as [[_ Z]|[[-> Ic]|(m2 & e2 & -> & C & B & L & M)]].
  - exfalso. rewrite Z in D1. discriminate.
  - left. split; [reflexivity|]. subst c. unfold fexp64 in *. lia.
  - right. exists m2, e2. split; [reflexivity|]. split; [exact C|]. split; [exact B|].
    set (m1 := Z.shiftr q (c - e')) in *.
    assert (P1 : 0 <= m1) by (subst m1; apply Z.shiftr_nonneg; exact Hq).
    assert (Lo : Zdigits2 m1 <= Zdigits2 (Zpos m2 * 2 ^ (e2 - c)))
      by (apply Zdigits2_mono; lia).
    assert (Hi : Zdigits2 (Zpos m2 * 2 ^ (e2 - c)) <= Zdigits2 (m1 + 1)).
    { apply Zdigits2_mono. split; [|lia].
      assert (0 < 2 ^ (e2 - c)) by (apply Z.pow_pos_nonneg; lia). lia. }
    pose proof (Zdigits2_succ m1 P1) as S1.
    rewrite Zdigits2_mul_pow2 in Lo, Hi by lia.
    subst c. unfold fexp64 in *. lia.
Qed.

(** Adding a number that is at least one unit in the last place of the
    first: the sum is strictly above the first in the order of
    representations. *)
Lemma add_finite_strict mx ex my ey :
  canonical64 mx ex -> -1074 <= ey ->
  ex < Zdigits2 (Zpos my) + ey ->
  JS.add (S754_finite false mx ex) (S754_finite false my ey) = S754_infinity false \/
  exists m2 e2,
    JS.add (S754_finite false mx ex) (S754_finite false my ey)
    = S754_finite false m2 e2 /\
    canonical64 m2 e2 /\ e2 <= 971 /\
    (ex < e2 \/ (e2 = ex /\ Zpos mx < Zpos m2)).
Proof.
  intros Cx Hy Hs.
  destruct (add_finite_spec mx ex my ey Cx Hy) as [I|(m2 & e2 & E & C & B & O)];
    [now left|right].
  exists m2, e2. split; [exact E|]. split; [exact C|]. split; [exact B|].
  destruct O as [O|[-> O]]; [now left|right]. split; [reflexivity|].
  assert (Hx : -1074 <= ex) by (unfold canonical64, fexp64 in Cx; lia).
  set (ez := Z.min ex ey) in *.
  assert (1 <= Zpos my * 2 ^ (ey - ez) / 2 ^ (ex - ez)); [|lia].
  apply Z.div_le_lower_bound; [apply Z.pow_pos_nonneg; lia|]. rewrite Z.mul_1_r.
  pose proof (Zdigits2_pos_spec my) as [L _].
  assert (0 < Zdigits2 (Zpos my)) by (cbn; lia).
  assert (2 ^ (ex - ez) <= 2 ^ (Zdigits2 (Zpos my) - 1 + (ey - ez))).
  { apply Z.pow_le_mono_r; lia. }
  rewrite Z.pow_add_r in H0 by lia.
  assert (0 < 2 ^ (ey - ez)) by (apply Z.pow_pos_nonneg; lia). nia.
Qed.

Lemma canonical64_bounds m e :
  canonical64 m e -> -1074 <= e /\ Zpos m < 2 ^ 53.
Proof.
  unfold canonical64, fexp64. intros C. split; [lia|].
  pose proof (Zdigits2_pos_spec m) as [_ U].
  eapply Z.lt_le_trans; [exact U|]. apply Z.pow_le_mono_r; lia.
Qed.

Lemma rank_finite_pos m e : canonical64 m e -> 0 < rank (S754_finite false m e).
Proof. intros C. destruct (canonical64_bounds m e C). cbn [rank]. nia. Qed.

Lemma rank_lt m1 e1 m2 e2 :
  canonical64 m1 e1 -> canonical64 m2 e2 ->
  e1 < e2 \/ (e1 = e2 /\ Zpos m1 < Zpos m2) ->
  rank (S754_finite false m1 e1) < rank (S754_finite false m2 e2).
Proof.
  intros C1 C2 H.
  destruct (canonical64_bounds m1 e1 C1), (canonical64_bounds m2 e2 C2).
  cbn [rank]. destruct H as [H|[-> H]]; nia.
Qed.

(** A canonical number that has not reached a finite one stands before it. *)
Lemma rank_below a b :
  canon a -> canon b -> b <> S754_infinity false ->
  SFleb b a = false -> rank a < rank b.
Proof.
  destruct a as [[|]|[|]| |[|] ma ea], b as [[|]|[|]| |[|] mb eb];
    cbn [canon]; try tauto; intros Ca Cb Fb H; try discriminate H;
    try (exfalso; apply Fb; reflexivity).
  - apply (rank_finite_pos mb eb). tauto.
  - destruct Ca as [Ca _], Cb as [Cb _]. apply rank_lt; auto.
    assert (N : ~ (eb < ea \/ eb = ea /\ Zpos mb <= Zpos ma)).
    { rewrite <- leb_finite. congruence. }
    lia.
Qed.

Lemma leb_false_exponent ma ea mb eb :
  SFleb (S754_finite false mb eb) (S754_finite false ma ea) = false -> ea <= eb.
Proof.
  intros H.
  assert (N : ~ (eb < ea \/ eb = ea /\ Zpos mb <= Zpos ma)).
  { rewrite <- leb_finite. congruence. }
  lia.
Qed.

(** Adding a step whose leading digit stands above the last place of [b]
    to a number that has not reached [b]: the sum has reached infinity or
    stands after the number. *)
Lemma add_progress a b ms es :
  canon a -> canon b -> b <> S754_infinity false ->
  canonical64 ms es ->
  (forall mb eb, b = S754_finite false mb eb -> eb < Zdigits2 (Zpos ms) + es) ->
  SFleb b a = false ->
  JS.add a (S754_finite false ms es) = S754_infinity false \/
  rank a < rank (JS.add a (S754_finite false ms es)).
Proof.
  intros Ca Cb Fb Cs Hs H.
  destruct a as [[|]|[|]| |[|] ma ea]; cbn [canon] in Ca; try tauto.
  - right. change (JS.add (S754_zero false) (S754_finite false ms es))
      with (S754_finite false ms es).
    now apply rank_finite_pos.
  - destruct b as [[|]|[|]| |[|] mb eb]; cbn [canon] in Cb; try tauto;
      try (exfalso; apply Fb; reflexivity); try discriminate H.
    pose proof (leb_false_exponent _ _ _ _ H) as Le.
    specialize (Hs mb eb eq_refl). destruct Ca as [Ca _].
    destruct (canonical64_bounds ms es Cs) as [Hes _].
    destruct (add_finite_strict ma ea ms es Ca Hes ltac:(lia))
      as [I|(m2 & e2 & -> & C2 & _ & O)]; [now left|right].
    apply rank_lt; auto. lia.
Qed.

(** A canonical number between 2^-1017 and 2^55 has a full mantissa. *)
Lemma canonical64_normal m e :
  canonical64 m e -> -1069 <= e -> Zdigits2 (Zpos m) = 53.
Proof. unfold canonical64, fexp64. lia. Qed.

(** [duration / 16] for a duration from 2^-1017 to 2^55: a positive
    finite number below 2^52. *)
Lemma sixteenth_digits md ed :
  canonical64 md ed -> -1069 <= ed <= 2 ->
  exists m16 e16,
    JS.div (S754_finite false md ed) (JS.of_Z 16) = S754_finite false m16 e16 /\
    canonical64 m16 e16 /\ e16 <= 971 /\
    -1021 <= Zdigits2 (Zpos m16) + e16 <= 52.
Proof.
  intros Cd Hd.
  pose proof (canonical64_normal md ed Cd ltac:(lia)) as Dd.
  change (JS.of_Z 16) with (S754_finite false (2 ^ 52) (-48)).
  pose proof (div_finite_digits md ed (2 ^ 52) (-48)) as H16. cbn zeta in H16.
  rewrite Dd in H16. change (Zdigits2 (Zpos (2 ^ 52))) with 53 in H16.
  destruct (H16 ltac:(lia)) as [[_ I]|(m16 & e16 & E16 & C16 & B16 & D16)].
  { exfalso. unfold fexp64 in I. lia. }
  exists m16, e16. repeat split; auto; lia.
Qed.

(** [end / n] for an integer [end] from 1 to 2^53 - 1 and a positive [n]
    below 2^52: the quotient is infinite, or its leading digit stands above
    the last place of [end]. *)
Lemma step_digits e m16 e16 :
  0 < e < 2 ^ 53 -> -1021 <= Zdigits2 (Zpos m16) + e16 <= 52 ->
  JS.div (JS.of_Z e) (S754_finite false m16 e16) = S754_infinity false \/
  exists ms es,
    JS.div (JS.of_Z e) (S754_finite false m16 e16) = S754_finite false ms es /\
    canonical64 ms es /\ es <= 971 /\
    forall me ee, JS.of_Z e = S754_finite false me ee ->
                  ee < Zdigits2 (Zpos ms) + es.
Proof.
  intros He D16.
  destruct (of_Z_small e He) as (me & Ee & De). rewrite Ee.
  assert (0 < Zdigits2 e) by (destruct e; cbn; lia).
  pose proof (div_finite_digits me (Zdigits2 e - 53) m16 e16) as Hs. cbn zeta in Hs.
  rewrite De in Hs.
  destruct (Hs ltac:(lia)) as [[I _]|(ms & es & Es & Cs & Bs & Ds)]; [now left|right].
  exists ms, es. split; [exact Es|]. split; [exact Cs|]. split; [exact Bs|].
  intros me' ee' [= <- <-]. lia.
Qed.

(** ** Values: what the rounded sum and quotient are at least *)

Lemma pow2_pos k : 0 <= k -> 0 < 2 ^ k.
Proof. intros. apply Z.pow_pos_nonneg; lia. Qed.

Lemma pow2_split a b : 0 <= a -> 0 <= b -> 2 ^ (a + b) = 2 ^ a * 2 ^ b.
Proof. intros. apply Z.pow_add_r; assumption. Qed.

(** A strict inequality between two scaled integers does not depend on
    the common unit. *)
Lemma pow2_rescale A B al be k k' :
  k <= al -> k <= be -> k' <= al -> k' <= be ->
  A * 2 ^ (al - k) < B * 2 ^ (be - k) ->
  A * 2 ^ (al - k') < B * 2 ^ (be - k').
Proof.
  intros H1 H2 H3 H4 H.
  destruct (Z_le_gt_dec k' k) as [L|G].
  - replace (al - k') with (al - k + (k - k')) by lia.
    replace (be - k') with (be - k + (k - k')) by lia.
    rewrite !pow2_split by lia.
    pose proof (pow2_pos (k - k') ltac:(lia)). nia.
  - replace (al - k) with (al - k' + (k' - k)) in H by lia.
    replace (be - k) with (be - k' + (k' - k)) in H by lia.
    rewrite !pow2_split in H by lia.
    pose proof (pow2_pos (k' - k) ltac:(lia)). nia.
Qed.

Lemma shiftr_succ_gt m n : 0 <= n -> m < (Z.shiftr m n + 1) * 2 ^ n.
Proof.
  intros Hn. rewrite Z.shiftr_div_pow2 by exact Hn.
  pose proof (pow2_pos n Hn) as P.
  pose proof (Z.mul_succ_div_gt m (2 ^ n) P). lia.
Qed.

(** The sum of a positive number and a canonical one of a smaller or
    equal exponent: one unit in the last place above the rounded sum lies
    above the exact sum. *)
Lemma add_finite_value mx ex my ey :
  canonical64 my ey -> ey <= ex ->
  JS.add (S754_finite false mx ex) (S754_finite false my ey) = S754_infinity false \/
  exists m2 e2,
    JS.add (S754_finite false mx ex) (S754_finite false my ey)
    = S754_finite false m2 e2 /\
    canonical64 m2 e2 /\ e2 <= 971 /\ ey <= e2 /\
    Zpos mx * 2 ^ (ex - ey) + Zpos my < (Zpos m2 + 1) * 2 ^ (e2 - ey).
Proof.
  intros Cy Le. rewrite add_finite.
  destruct (canonical64_bounds my ey Cy) as [Hy _].
  replace (Z.min ex ey) with ey by lia.
  pose proof (shl_align_spec mx ex ey) as [_ Sx].
  pose proof (shl_align_spec my ey ey) as [_ Sy].
  replace (Z.min ex ey) with ey in Sx by lia.
  replace (Z.min ey ey) with ey in Sy by lia.
  rewrite Z.sub_diag, Z.mul_1_r in Sy.
  set (m := (fst (shl_align mx ex ey) + fst (shl_align my ey ey))%positive).
  assert (Em : Zpos m = Zpos mx * 2 ^ (ex - ey) + Zpos my).
  { subst m. rewrite Pos2Z.inj_add, Sx, Sy. reflexivity. }
  pose proof (pow2_pos (ex - ey) ltac:(lia)) as Px.
  assert (Dm : Zdigits2 (Zpos my) <= Zdigits2 (Zpos m)).
  { apply Zdigits2_mono. rewrite Em. nia. }
  pose proof (binary_round_spec false m ey Hy) as R. cbn zeta in R.
  set (c := fexp64 (Zdigits2 (Zpos m) + ey)) in *.
  assert (Hc : ey <= c).
  { subst c. unfold canonical64, fexp64 in *. lia. }
  replace (Z.min ey c) with ey in R by lia.
  rewrite Z.sub_diag, Z.mul_1_r in R.
  destruct R as [[I _]|(m2 & e2 & E & C & B & L & M)]; [now left|right].
  exists m2, e2. split; [exact E|]. split; [exact C|]. split; [exact B|].
  split; [lia|]. rewrite <- Em.
  pose proof (shiftr_succ_gt (Zpos m) (c - ey) ltac:(lia)) as G.
  set (m1 := Z.shiftr (Zpos m) (c - ey)) in *.
  replace (e2 - ey) with (e2 - c + (c - ey)) by lia.
  rewrite pow2_split by lia.
  pose proof (pow2_pos (c - ey) ltac:(lia)).
  pose proof (pow2_pos (e2 - c) ltac:(lia)).
  nia.
Qed.

(** Canonical numbers: the order of representations is the order of
    values. *)
Lemma canonical_lt_value ma ea mb eb u :
  canonical64 ma ea -> canonical64 mb eb -> u <= ea -> u <= eb ->
  ea < eb \/ (ea = eb /\ Zpos ma < Zpos mb) ->
  Zpos ma * 2 ^ (ea - u) < Zpos mb * 2 ^ (eb - u).
Proof.
  intros Ca Cb Ua Ub [L|[-> L]].
  - destruct (canonical64_bounds ma ea Ca) as [Ha Ma].
    assert (Db : Zdigits2 (Zpos mb) = 53) by (unfold canonical64, fexp64 in Cb; lia).
    pose proof (Zdigits2_pos_spec mb) as [Lb _]. rewrite Db in Lb.
    replace (eb - u) with (eb - ea - 1 + 1 + (ea - u)) by lia.
    rewrite !pow2_split by lia.
    pose proof (pow2_pos (ea - u) ltac:(lia)).
    pose proof (pow2_pos (eb - ea - 1) ltac:(lia)).
    change (2 ^ (53 - 1)) with 4503599627370496 in Lb.
    change (2 ^ 53) with 9007199254740992 in Ma. change (2 ^ 1) with 2.
    set (X := 2 ^ (ea - u)) in *. set (Y := 2 ^ (eb - ea - 1)) in *.
    assert (Zpos ma * X < 9007199254740992 * X) by nia.
    assert (9007199254740992 * X <= Zpos mb * 2 * X) by nia.
    assert (Zpos mb * 2 * X <= Zpos mb * (Y * 2 * X)) by nia.
    lia.
  - pose proof (pow2_pos (eb - u) ltac:(lia)). nia.
Qed.

(** The quotient computed by [SFdiv_core_binary] is the floor of the
    exact one. *)
Lemma div_core_value (m1 m2 : positive) (e1 e2 : Z) :
  let '(q, e', _) := SFdiv_core_binary JS.prec JS.emax (Zpos m1) e1 (Zpos m2) e2 in
  e' <= e1 - e2 /\ Zpos m1 * 2 ^ (e1 - e2 - e') < (q + 1) * Zpos m2.
Proof.
  unfold SFdiv_core_binary. rewrite fexp_fexp64.
  set (d1 := Zdigits2 (Zpos m1)). set (d2 := Zdigits2 (Zpos m2)).
  set (e' := Z.min (fexp64 (d1 + e1 - (d2 + e2))) (e1 - e2)).
  set (s := e1 - e2 - e').
  assert (Hs : 0 <= s) by (subst s e'; lia).
  set (m' := match s with
             | 0 => Zpos m1
             | Zpos _ => Z.shiftl (Zpos m1) s
             | Zneg _ => 0
             end).
  assert (Em : m' = Zpos m1 * 2 ^ s).
  { subst m'. destruct s as [|p|p]; [cbn; lia| |lia].
    apply Z.shiftl_mul_pow2. lia. }
  pose proof (Z_div_mod m' (Zpos m2) ltac:(lia)) as DM.
  destruct (Z.div_eucl m' (Zpos m2)) as [q r]. destruct DM as [DM R].
  cbn zeta. split; [subst e'; lia|]. fold s. rewrite <- Em. nia.
Qed.

(** One unit in the last place above the rounded quotient, times the
    divisor, lies above the dividend. *)
Lemma div_finite_value mx ex my ey :
  let delta := Zdigits2 (Zpos mx) + ex - (Zdigits2 (Zpos my) + ey) in
  -1021 <= delta ->
  forall m2 e2,
    JS.div (S754_finite false mx ex) (S754_finite false my ey)
    = S754_finite false m2 e2 ->
    forall k, k <= e2 -> k <= ex - ey ->
      Zpos mx * 2 ^ (ex - ey - k) < (Zpos m2 + 1) * Zpos my * 2 ^ (e2 - k).
Proof.
  intros delta Hd m2 e2. unfold JS.div, SFdiv.
  pose proof (div_core_spec mx my ex ey) as H. cbn zeta in H. fold delta in H.
  pose proof (div_core_value mx my ex ey) as V.
  destruct (SFdiv_core_binary JS.prec JS.emax (Zpos mx) ex (Zpos my) ey) as [[q e'] l].
  destruct H as (Hq & He & Hf & H0 & H1). destruct V as [V1 V2]. cbn [xorb].
  pose proof (binary_round_aux_spec false q e' l Hq He) as R. cbn zeta in R.
  set (c := fexp64 (Zdigits2 q + e')) in *.
  destruct R as [[-> _]|[[-> _]|(m2' & e2' & -> & C & B & L & M)]];
    try discriminate.
  intros [= <- <-] k K1 K2.
  apply (pow2_rescale (Zpos mx) ((Zpos m2' + 1) * Zpos my) (ex - ey) e2' e' k);
    try lia.
  pose proof (shiftr_succ_gt q (c - e') ltac:(lia)) as G.
  set (m1 := Z.shiftr q (c - e')) in *.
  replace (e2' - e') with (e2' - c + (c - e')) by lia.
  rewrite pow2_split by lia.
  pose proof (pow2_pos (c - e') ltac:(lia)).
  pose proof (pow2_pos (e2' - c) ltac:(lia)).
  assert (q + 1 <= (Zpos m2' + 1) * (2 ^ (e2' - c) * 2 ^ (c - e'))) by nia.
  nia.
Qed.

Lemma div_eucl_div_mod a b : Z.div_eucl a b = (a / b, a mod b).
Proof. unfold Z.div, Z.modulo. now destruct (Z.div_eucl a b). Qed.

Lemma binary_round_aux_exact_shift s m e :
  canonical64 m e -> -1074 < e <= 971 ->
  binary_round_aux JS.prec JS.emax s (Zpos m~0) (e - 1) loc_Exact = S754_finite s m e.
Proof.
  intros C B.
  assert (D : Zdigits2 (Zpos m) = 53) by (unfold canonical64, fexp64 in C; lia).
  assert (D2 : Zdigits2 (Zpos m~0) = 54).
  { cbn [Zdigits2 digits2_pos]. rewrite Pos2Z.inj_succ.
    change (Zpos (digits2_pos m)) with (Zdigits2 (Zpos m)). lia. }
  unfold binary_round_aux, shr_fexp.
  rewrite fexp_fexp64, D2.
  replace (fexp64 (54 + (e - 1)) - (e - 1)) with 1 by (unfold fexp64; lia).
  cbn [shr iter_pos shr_1 shr_record_of_loc shr_m shr_r shr_s orb
       loc_of_shr_record round_nearest_even].
  rewrite fexp_fexp64, D.
  replace (fexp64 (53 + (e - 1 + 1)) - (e - 1 + 1)) with 0 by (unfold fexp64; lia).
  cbn [shr shr_record_of_loc shr_m].
  replace (e - 1 + 1) with e by lia.
  change (Z.sub JS.emax JS.prec) with 971.
  destruct (Z.leb_spec e 971); [reflexivity|lia].
Qed.

(** Dividing a normal number by 16 is exact. *)
Lemma div_sixteen_exact m e :
  canonical64 m e -> -1069 <= e <= 971 ->
  JS.div (S754_finite false m e) (JS.of_Z 16) = S754_finite false m (e - 4).
Proof.
  intros C B.
  assert (D : Zdigits2 (Zpos m) = 53) by (unfold canonical64, fexp64 in C; lia).
  change (JS.of_Z 16) with (S754_finite false (2 ^ 52) (-48)).
  unfold JS.div, SFdiv, SFdiv_core_binary. cbn [xorb].
  rewrite fexp_fexp64, D. change (Zdigits2 (Zpos (2 ^ 52))) with 53.
  replace (Z.min (fexp64 (53 + e - (53 + -48))) (e - -48)) with (e - 5)
    by (unfold fexp64; lia).
  replace (e - -48 - (e - 5)) with 53 by lia.
  rewrite div_eucl_div_mod, Z.shiftl_mul_pow2 by lia.
  change (2 ^ 53) with (2 * Zpos (2 ^ 52)).
  rewrite Z.mul_assoc, Z.div_mul, Z.mod_mul by lia.
  change (new_location (Zpos (2 ^ 52)) 0) with loc_Exact.
  rewrite (Z.mul_comm (Zpos m) 2).
  change (2 * Zpos m) with (Zpos m~0).
  replace (e - 5) with (e - 4 - 1) by lia.
  apply binary_round_aux_exact_shift; [|lia].
  unfold canonical64, fexp64 in *. lia.
Qed.

(** An integer below 2^53, as a number: its mantissa is the integer
    shifted to 53 digits. *)
Lemma of_Z_value z :
  0 < z < 2 ^ 53 ->
  exists m, JS.of_Z z = S754_finite false m (Zdigits2 z - 53) /\
            canonical64 m (Zdigits2 z - 53) /\
            0 < Zdigits2 z <= 53 /\
            Zpos m = z * 2 ^ (53 - Zdigits2 z).
Proof.
  intros [Hz Hb]. destruct z as [|p|p]; try lia.
  assert (D : Zdigits2 (Zpos p) <= 53).
  { rewrite Zdigits2_log2.
    assert (Z.log2 (Zpos p) < 53) by (apply Z.log2_lt_pow2; lia). lia. }
  assert (0 < Zdigits2 (Zpos p)) by (cbn; lia).
  unfold JS.of_Z, binary_normalize.
  destruct (binary_round_exact false p 0) as (mz & E & V).
  - unfold fexp64. lia.
  - unfold fexp64. lia.
  - assert (Ec : fexp64 (Zdigits2 (Zpos p) + 0) = Zdigits2 (Zpos p) - 53)
      by (unfold fexp64; lia).
    rewrite Ec in E, V. exists mz. split; [exact E|].
    replace (0 - (Zdigits2 (Zpos p) - 53)) with (53 - Zdigits2 (Zpos p)) in V by lia.
    split; [|split; [lia|exact V]].
    unfold canonical64. rewrite V, Zdigits2_mul_pow2 by lia. unfold fexp64. lia.
Qed.

(** The arithmetic of the tick bound: with a step of mantissa [ms] that,
    plus one unit, times [duration / 16] exceeds [end], and a loss of at
    most [P] per addition, the accumulator cannot be below [end] after
    [ceil(duration / 16) + 1] additions. *)
Lemma tick_bound_arith ms me P d S :
  2 ^ 52 <= ms < 2 ^ 53 -> 2 ^ 52 <= me -> 1 <= P ->
  16 * me * P < (ms + 1) * d ->
  1 <= d <= 2 ^ 29 ->
  ((d + 15) / 16 + 1) * ms <= S + (d + 15) / 16 * P ->
  S < me * P ->
  False.
Proof.
  change (2 ^ 52) with 4503599627370496. change (2 ^ 53) with 9007199254740992.
  change (2 ^ 29) with 536870912.
  intros Hms Hme HP Hdiv Hd HS HE.
  pose proof (Z.mul_succ_div_gt (d + 15) 16 ltac:(lia)) as C1.
  pose proof (Z.mul_div_le (d + 15) 16 ltac:(lia)) as C2.
  set (c := (d + 15) / 16) in *.
  assert (A0 : 0 <= c <= 33554432) by lia.
  assert (A1 : me * P < (ms + 1) * c) by nia.
  assert (A2 : ms < c * (P + 1)) by nia.
  assert (A3 : 8 * P < d) by nia.
  assert (A4 : c * (P + 1) <= 33554432 * 67108864) by nia.
  lia.
Qed.

(** ** The runtime, for any component *)

Section RuntimeFacts.

Context {props state closure : Type}.
Variable C : React.component (props := props) (state := state) (closure := closure).
Variable p : props.

Lemma commit_isInView w :
  React.isInView (React.commit C p w) = React.isInView w.
Proof.
  unfold React.commit.
  destruct (match React.last_deps w with Some old => _ | None => false end);
    [reflexivity|].
  destruct (React.effect C p _ _ _) as [c s]. reflexivity.
Qed.

Lemma fire_isInView id w :
  React.isInView (React.fire C id w) = React.isInView w.
Proof.
  unfold React.fire.
  destruct (React.find_timer id (React.mem w)) as [t|]; [|reflexivity].
  destruct (React.invoke C _ _ _) as [[fn r] s2]. reflexivity.
Qed.

Lemma mount_isInView : React.isInView (React.mount C p) = false.
Proof. unfold React.mount. now rewrite commit_isInView. Qed.

(** No event takes [isInView] back to [false]. *)
Lemma step_keeps_isInView w ev :
  React.isInView w = true -> React.isInView (React.step C p w ev) = true.
Proof.
  intros H. destruct ev as [entry| |id|]; simpl.
  - destruct (React.observer w); [|exact H].
    cbn. unfold useInView_callback. now destruct (isIntersecting entry).
  - destruct (React.mounted w); [|exact H]. now rewrite commit_isInView.
  - now rewrite fire_isInView.
  - destruct (React.mounted w); exact H.
Qed.

Lemma run_keeps_isInView evs : forall w,
  React.isInView w = true -> React.isInView (React.run C p w evs) = true.
Proof.
  induction evs as [|ev evs IH]; intros w H; simpl; [exact H|].
  apply IH. now apply step_keeps_isInView.
Qed.

Lemma history_after_entering evs : forall w,
  React.isInView w = true ->
  changes false true (history C p w evs) = 0%nat /\
  changes true false (history C p w evs) = 0%nat.
Proof.
  induction evs as [|ev evs IH]; intros w H; [now split|].
  pose proof (step_keeps_isInView w ev H) as H'.
  destruct (IH _ H') as [IH1 IH2].
  cbn [history]. destruct evs as [|ev' evs];
    cbn [history changes] in *; rewrite H, H' in *;
    cbn [Bool.eqb andb Nat.add] in *; auto.
Qed.

Lemma history_one_way evs : forall w,
  (changes false true (history C p w evs) <= 1)%nat /\
  changes true false (history C p w evs) = 0%nat.
Proof.
  induction evs as [|ev evs IH]; intros w; [cbn; split; [lia|reflexivity]|].
  destruct (React.isInView w) eqn:H.
  - destruct (history_after_entering (ev :: evs) w H) as [-> ->]. split; [lia|reflexivity].
  - destruct (React.isInView (React.step C p w ev)) eqn:H'.
    + destruct (history_after_entering evs _ H') as [E1 E2].
      cbn [history]. destruct evs as [|ev' evs];
        cbn [history changes] in *; rewrite ?H, ?H' in *;
        cbn [Bool.eqb andb Nat.add] in *; split; try lia; auto.
    + destruct (IH (React.step C p w ev)) as [E1 E2].
      cbn [history]. destruct evs as [|ev' evs];
        cbn [history changes] in *; rewrite ?H, ?H' in *;
        cbn [Bool.eqb andb Nat.add] in *; split; try lia; auto.
Qed.

(** An unmounted instance without pending timers ignores every event. *)
Lemma step_after_unmount w ev :
  React.mounted w = false -> React.observer w = None ->
  React.timers (React.mem w) = [] ->
  React.step C p w ev = w.
Proof.
  intros Hm Ho Ht. destruct ev as [entry| |id|]; simpl.
  - now rewrite Ho.
  - now rewrite Hm.
  - unfold React.fire, React.find_timer. now rewrite Ht.
  - now rewrite Hm.
Qed.

Lemma run_after_unmount evs : forall w,
  React.mounted w = false -> React.observer w = None ->
  React.timers (React.mem w) = [] ->
  React.run C p w evs = w.
Proof.
  induction evs as [|ev evs IH]; intros w Hm Ho Ht; simpl; [reflexivity|].
  rewrite step_after_unmount by assumption. now apply IH.
Qed.

Lemma run_app w evs evs' :
  React.run C p w (evs ++ evs') = React.run C p (React.run C p w evs) evs'.
Proof. unfold React.run. apply fold_left_app. Qed.

End RuntimeFacts.

(** C5. Visibility Detector: whatever the options [useInView] was called
    with, and whatever events reach the instance (observer entries that
    intersect or not, renders, timers, unmounting), [isInView] starts
    [false], goes from [false] to [true] at most once and never from [true]
    to [false]. *)
Theorem useInView_isInView_one_way :
  forall (props state closure : Type)
         (C : React.component (props := props) (state := state) (closure := closure))
         (p : props) (evs : list event),
    let h := history C p (React.mount C p) evs in
    hd true h = false /\
    (changes false true h <= 1)%nat /\
    changes true false h = 0%nat /\
    (forall evs',
        implb (React.isInView (React.run C p (React.mount C p) evs))
              (React.isInView (React.run C p (React.mount C p) (evs ++ evs')%list))
        = true).
Proof.
  intros props state closure C p evs h. subst h. split; [|split; [|split]].
  - destruct evs; cbn [history hd]; apply mount_isInView.
  - apply history_one_way.
  - apply history_one_way.
  - intros evs'.
    destruct (React.isInView (React.run C p (React.mount C p) evs)) eqn:H;
      [|reflexivity].
    rewrite run_app. cbn [implb]. now apply run_keeps_isInView.
Qed.

(** C10. [useInView] reads its options with [||]: an explicit threshold
    of [0] (or [-0], or [NaN]) is replaced by [0.15] and an explicit empty
    [rootMargin] by ["0px"]; any other threshold is passed on as it is, which
    is why the thresholds [0.1] of Reveal, [0.3] of Typewriter and [0.5] of
    Counter reach the observer. *)
Theorem useInView_zero_threshold_not_configurable :
  observer_init {| opt_threshold := Some (JS.of_Z 0); opt_rootMargin := Some "" |}
  = {| threshold := JS.decimal 15 100; rootMargin := "0px" |} /\
  (forall (t : JS.number) (m : option string),
      threshold (observer_init {| opt_threshold := Some t; opt_rootMargin := m |})
      = if JS.truthy t then t else JS.decimal 15 100) /\
  (forall (t : option JS.number) (m : string),
      rootMargin (observer_init {| opt_threshold := t; opt_rootMargin := Some m |})
      = if String.eqb m "" then "0px" else m) /\
  (forall direction,
      React.observer (React.mount Reveal direction)
      = Some {| threshold := JS.decimal 1 10; rootMargin := "0px" |}) /\
  (forall p, React.observer (React.mount Typewriter p)
             = Some {| threshold := JS.decimal 3 10; rootMargin := "0px" |}) /\
  (forall p, React.observer (React.mount Counter p)
             = Some {| threshold := JS.decimal 5 10; rootMargin := "0px" |}) /\
  JS.truthy (JS.decimal 1 10) && JS.truthy (JS.decimal 3 10)
    && JS.truthy (JS.decimal 5 10) && negb (JS.truthy (JS.of_Z 0)) = true.
Proof.
  repeat split; try reflexivity.
Qed.

(** C7. Reveal Animator: while [inView] is false the style has opacity 0
    and the transform the direction is mapped to, a displacement of 60px
    (up: 60px downward; left: 60px toward the left, away from the right;
    right: 60px toward the right, away from the left; none: no
    displacement); once [inView] is true the style has opacity 1 and the
    identity translation, for every direction. *)
Theorem Reveal_style_by_direction :
  Reveal_style false "up"
  = {| opacity := JS.of_Z 0; transform := Some (css (translateY 60)) |} /\
  Reveal_style false "left"
  = {| opacity := JS.of_Z 0; transform := Some (css (translateX (-60))) |} /\
  Reveal_style false "right"
  = {| opacity := JS.of_Z 0; transform := Some (css (translateX 60)) |} /\
  Reveal_style false "none"
  = {| opacity := JS.of_Z 0; transform := Some (css (translateY 0)) |} /\
  (forall direction,
      Reveal_style true direction
      = {| opacity := JS.of_Z 1; transform := Some (css (translate 0 0)) |}) /\
  css (translateY 60) = "translateY(60px)" /\
  css (translateX (-60)) = "translateX(-60px)" /\
  css (translateX 60) = "translateX(60px)" /\
  css (translateY 0) = "translateY(0px)" /\
  css (translate 0 0) = "translate(0,0)" /\
  map displacement [translateY 60; translateX (-60); translateX 60;
                    translateY 0; translate 0 0]
  = [(0, 60); (-60, 0); (60, 0); (0, 0); (0, 0)] /\
  (forall direction evs,
      let w := React.run Reveal direction (React.mount Reveal direction) evs in
      Reveal_render direction w
      = Reveal_style (React.isInView w) direction).
Proof.
  repeat split; reflexivity.
Qed.

(** C9. Findings: for every entry of the [findings] list the prefix
    expression handed to Counter is the empty string; no label starts with
    a dollar sign, so the inner conditional never yields ["$"]. *)
Theorem Findings_prefix_always_empty :
  Forall (fun f => Findings.prefix_of f = ""
                   /\ prefix (Findings.counter_props f) = "") Findings.findings /\
  map (fun f => Findings.first_char (Findings.label f)) Findings.findings
  = [Some "M"; Some "R"; Some "G"; Some "C"] /\
  map (fun f => JS.ge (Findings.number f) (JS.of_Z 20)) Findings.findings
  = [true; false; true; true] /\
  (forall f, Findings.prefix_of f = "$" \/ Findings.prefix_of f = "").
Proof.
  split; [|split; [|split]].
  - repeat constructor.
  - reflexivity.
  - vm_compute. reflexivity.
  - intros f. unfold Findings.prefix_of.
    destruct (JS.ge _ _); [|now right].
    destruct (Findings.strict_equal _ _); [now left|now right].
Qed.

(** ** Typewriter *)

Section TypewriterFacts.

Variable p : TypewriterProps.

Lemma shape_fewer (s : TypewriterStore) keep a :
  silent a = true -> Typewriter_shape s ->
  Typewriter_shape {| React.cells := React.cells s;
                      React.timers := filter keep (React.timers s);
                      React.next_id := React.next_id s;
                      React.log := a :: React.log s |}.
Proof.
  intros Ha. unfold Typewriter_shape. cbn [React.cells React.timers React.log].
  assert (Et : timeouts_set (a :: React.log s) = timeouts_set (React.log s))
    by (destruct a; try discriminate; reflexivity).
  assert (Ei : intervals_set (a :: React.log s) = intervals_set (React.log s))
    by (destruct a; try discriminate; reflexivity).
  rewrite Et, Ei.
  destruct (React.timers s) as [|t [|t' ts]]; cbn [filter]; auto.
  - destruct (keep t); auto.
    intros (Hs & Ht & H). rewrite Hs. split; [exact Ht|].
    destruct (React.timer_fn t); destruct H as [_ ->]; lia.
  - intros [].
Qed.

Lemma shape_note (s : TypewriterStore) a :
  silent a = true -> Typewriter_shape s -> Typewriter_shape (React.note a s).
Proof.
  intros Ha H. unfold React.note.
  pose proof (shape_fewer s (fun _ => true) a Ha H) as H'.
  now rewrite filter_true in H'.
Qed.

Lemma shape_cleanup (w : React.world) :
  Typewriter_shape (React.mem w) -> Typewriter_shape (React.run_cleanup w).
Proof.
  intros H. unfold React.run_cleanup.
  destruct (React.cleanup w) as [id|]; [|exact H].
  now apply shape_fewer.
Qed.

Lemma cleanup_cells (w : React.world (state := TypewriterState)
                                     (closure := Typewriter_closure)) :
  React.cells (React.run_cleanup w) = React.cells (React.mem w).
Proof. unfold React.run_cleanup. now destruct (React.cleanup w). Qed.

(** The effect schedules the timeout only from a store in which
    [started] is still false. *)
Lemma shape_effect inView (s : TypewriterStore) :
  Typewriter_shape s ->
  Typewriter_shape (snd (Typewriter_effect p inView (React.cells s) s)).
Proof.
  intros H. unfold Typewriter_effect.
  destruct (negb inView || started (React.cells s)) eqn:G; [exact H|].
  apply orb_false_iff in G. destruct G as [_ G].
  revert H. unfold Typewriter_shape. cbn. rewrite G.
  destruct (React.timers s) as [|t [|t' ts]]; cbn.
  - intros [Ht Hi]. unfold timeouts_set, intervals_set in *. cbn. auto.
  - intros [H _]. discriminate.
  - intros [].
Qed.

Lemma shape_commit (w : React.world) :
  Typewriter_shape (React.mem w) ->
  Typewriter_shape (React.mem (React.commit Typewriter p w)).
Proof.
  intros H. unfold React.commit.
  destruct (match React.last_deps w with Some old => _ | None => false end);
    [exact H|].
  cbn [React.effect Typewriter].
  pose proof (shape_effect (React.isInView w) _ (shape_cleanup w H)) as H'.
  rewrite cleanup_cells in H'.
  destruct (Typewriter_effect p _ _ _) as [c s']. exact H'.
Qed.

Lemma shape_fire id (w : React.world) :
  Typewriter_shape (React.mem w) ->
  Typewriter_shape (React.mem (React.fire Typewriter id w)).
Proof.
  intros H. unfold React.fire, React.find_timer.
  destruct (find _ _) as [t|] eqn:F; [|exact H].
  revert H F. unfold Typewriter_shape.
  destruct (React.timers (React.mem w)) as [|t0 [|t1 ts]] eqn:T; cbn [find].
  - discriminate.
  - destruct (Nat.eqb (React.timer_id t0) id) eqn:E; [|discriminate].
    intros (Hs & Ht & H) [= <-].
    destruct t0 as [tid rep ms fn]; cbn in *. apply Nat.eqb_eq in E. subst tid.
    destruct fn as [i tx sp|i tx]; destruct H as [-> Hi]; cbn.
    + rewrite T. cbn. rewrite Nat.eqb_refl. cbn.
      destruct (React.mounted w); cbn; rewrite ?Hs;
        unfold timeouts_set, intervals_set in *; cbn; auto.
    + rewrite T. cbn.
      destruct (Nat.leb (String.length tx) (S i)), (React.mounted w);
        repeat (progress (cbn; rewrite ?Nat.eqb_refl, ?Hs));
        unfold timeouts_set, intervals_set in *; cbn; auto; try lia.
  - intros [].
Qed.

Lemma shape_step (w : React.world) ev :
  Typewriter_shape (React.mem w) ->
  Typewriter_shape (React.mem (React.step Typewriter p w ev)).
Proof.
  intros H. destruct ev as [entry| |id|]; cbn [React.step].
  - destruct (React.observer w); exact H.
  - destruct (React.mounted w); [|exact H]. now apply shape_commit.
  - now apply shape_fire.
  - destruct (React.mounted w); [|exact H]. cbn [React.mem].
    apply shape_note; [reflexivity|]. now apply shape_cleanup.
Qed.

Lemma shape_mount : Typewriter_shape (React.mem (React.mount Typewriter p)).
Proof. cbn. auto. Qed.

Lemma shape_run evs : forall w : React.world,
  Typewriter_shape (React.mem w) ->
  Typewriter_shape (React.mem (React.run Typewriter p w evs)).
Proof.
  induction evs as [|ev evs IH]; intros w H; cbn; [exact H|].
  apply IH. now apply shape_step.
Qed.

(** In every shape the number of timeouts scheduled so far is 1 or 0
    with [started], and at most one interval was started. *)
Lemma shape_counts (s : TypewriterStore) :
  Typewriter_shape s ->
  timeouts_set (React.log s) = (if started (React.cells s) then 1 else 0)%nat /\
  (intervals_set (React.log s) <= 1)%nat.
Proof.
  unfold Typewriter_shape.
  destruct (React.timers s) as [|t [|t' ts]].
  - destruct (started (React.cells s)); intros [-> H]; split; auto; lia.
  - intros (-> & -> & H). split; [reflexivity|].
    destruct (React.timer_fn t); destruct H as [_ ->]; lia.
  - intros [].
Qed.

(** [started] is only ever set to [true]. *)
Lemma step_keeps_started (w : React.world) ev :
  started (tw w) = true -> started (tw (React.step Typewriter p w ev)) = true.
Proof.
  unfold tw. intros H. destruct ev as [entry| |id|]; cbn [React.step].
  - destruct (React.observer w); exact H.
  - destruct (React.mounted w); [|exact H].
    unfold React.commit.
    destruct (match React.last_deps w with Some old => _ | None => false end);
      [exact H|].
    cbn [React.effect Typewriter]. unfold Typewriter_effect.
    rewrite H, orb_true_r. cbn. now rewrite cleanup_cells.
  - unfold React.fire.
    destruct (React.find_timer id (React.mem w)) as [t|]; [|exact H].
    destruct (React.timer_fn t) as [i tx sp|i tx], (React.timer_repeats t),
      (React.mounted w); cbn; try exact H;
      destruct (Nat.leb (String.length tx) (S i)); cbn; exact H.
  - destruct (React.mounted w); [|exact H]. cbn. now rewrite cleanup_cells.
Qed.

Lemma run_keeps_started evs : forall w : React.world,
  started (tw w) = true -> started (tw (React.run Typewriter p w evs)) = true.
Proof.
  induction evs as [|ev evs IH]; intros w H; cbn; [exact H|].
  apply IH. now apply step_keeps_started.
Qed.

Lemma started_once_visible :
  started (tw (Typewriter_run p [Intersect visible; Render])) = true.
Proof. reflexivity. Qed.

End TypewriterFacts.

(** C4. Typewriter Animator: within one mount, whatever events occur and
    however often the visibility flag is evaluated, the effect passes its
    [started] gate at most once: the number of timeouts scheduled is 1 when
    [started] is true and 0 otherwise, at most one interval is ever started,
    [started] never returns to false, and once the instance was seen and
    rendered exactly one reveal sequence has been started, whatever
    follows. *)
Theorem Typewriter_starts_once :
  forall (p : TypewriterProps) (evs : list event),
    let w := Typewriter_run p evs in
    timeouts_set (React.log (React.mem w))
    = (if started (tw w) then 1 else 0)%nat /\
    (intervals_set (React.log (React.mem w)) <= 1)%nat /\
    (forall evs',
        implb (started (tw w)) (started (tw (Typewriter_run p (evs ++ evs')%list)))
        = true) /\
    (forall evs',
        timeouts_set (React.log (React.mem
          (Typewriter_run p (Intersect visible :: Render :: evs')))) = 1%nat).
Proof.
  intros p evs w. subst w. unfold Typewriter_run.
  pose proof (shape_run p evs _ (shape_mount p)) as H.
  apply shape_counts in H. destruct H as [H1 H2].
  split; [exact H1|]. split; [exact H2|]. split.
  - intros evs'.
    destruct (started (tw (React.run Typewriter p (React.mount Typewriter p) evs)))
      eqn:S; [|reflexivity].
    rewrite run_app. cbn [implb]. now apply run_keeps_started.
  - intros evs'.
    pose proof (shape_run p (Intersect visible :: Render :: evs') _ (shape_mount p)) as H.
    apply shape_counts in H. destruct H as [H _]. rewrite H.
    change (Intersect visible :: Render :: evs')
      with ([Intersect visible; Render] ++ evs')%list.
    rewrite run_app.
    pose proof (run_keeps_started p evs' _ (started_once_visible p)) as S.
    unfold tw, Typewriter_run in *. now rewrite S.
Qed.

Section TypewriterSilenced.

Variable p : TypewriterProps.

Lemma silenced_step w ev :
  Typewriter_silenced w -> Typewriter_silenced (React.step Typewriter p w ev).
Proof.
  intros (Ht & Hc & Hf & Hl). destruct ev as [entry| |id|]; cbn [React.step].
  - destruct (React.observer w); now repeat split.
  - destruct (React.mounted w); [|now repeat split].
    unfold React.commit.
    destruct (match React.last_deps w with Some old => _ | None => false end);
      [now repeat split|].
    cbn [React.effect Typewriter]. unfold Typewriter_effect.
    rewrite Hc. cbn [started]. rewrite orb_true_r.
    unfold Typewriter_silenced, React.run_cleanup.
    destruct (React.cleanup w); cbn; rewrite ?Ht, ?Hc, ?Hf, ?Hl; now repeat split.
  - unfold React.fire, React.find_timer. rewrite Ht. now repeat split.
  - destruct (React.mounted w); [|now repeat split].
    unfold Typewriter_silenced, React.run_cleanup.
    destruct (React.cleanup w); cbn; rewrite ?Ht, ?Hc, ?Hl; now repeat split.
Qed.

Lemma silenced_run evs : forall w,
  Typewriter_silenced w -> Typewriter_silenced (React.run Typewriter p w evs).
Proof.
  induction evs as [|ev evs IH]; intros w H; cbn; [exact H|].
  apply IH. now apply silenced_step.
Qed.

(** The render that follows [setStarted(true)] finds the dependency
    [started] changed and runs the cleanup of the effect that had just
    scheduled the timeout. *)
Lemma silenced_by_rerender :
  Typewriter_silenced (Typewriter_run p [Intersect visible; Render; Render]).
Proof. repeat split. Qed.

End TypewriterSilenced.

Section TypewriterPrefix.

Variable p : TypewriterProps.

Lemma slice0_prefix (s : string) : forall i, String.prefix (slice0 s i) s = true.
Proof.
  unfold slice0. induction s as [|c s IH]; intros [|i]; cbn; auto.
  destruct (ascii_dec c c); [apply IH|contradiction].
Qed.

Lemma Forall_filter_keeps {A} (P : A -> Prop) keep (l : list A) :
  Forall P l -> Forall P (filter keep l).
Proof.
  induction 1 as [|x l Hx Hl IH]; cbn; [constructor|].
  destruct (keep x); auto.
Qed.

Lemma texts_cleanup (w : React.world) :
  Typewriter_texts p (React.mem w) -> Typewriter_texts p (React.run_cleanup w).
Proof.
  intros [Hd Ht]. unfold React.run_cleanup.
  destruct (React.cleanup w); [|now split].
  split; [exact Hd|]. cbn. now apply Forall_filter_keeps.
Qed.

Lemma texts_remove id s :
  Typewriter_texts p s -> Typewriter_texts p (React.remove_timer id s).
Proof.
  intros [Hd Ht]. split; [exact Hd|]. cbn. now apply Forall_filter_keeps.
Qed.

Lemma texts_save id fn s :
  Typewriter_captured p fn ->
  Typewriter_texts p s -> Typewriter_texts p (React.save_closure id fn s).
Proof.
  intros Hf [Hd Ht]. split; [exact Hd|]. cbn.
  induction Ht as [|t l Hx Hl IH]; cbn; constructor; auto.
  now destruct (Nat.eqb (React.timer_id t) id).
Qed.

Lemma texts_invoke fn id s :
  Typewriter_captured p fn -> Typewriter_texts p s ->
  Typewriter_captured p (fst (fst (Typewriter_invoke fn id s))) /\
  Typewriter_texts p (snd (Typewriter_invoke fn id s)).
Proof.
  intros Hf [Hd Ht]. destruct fn as [i tx sp|i tx]; cbn in Hf; subst tx; cbn.
  - split; [reflexivity|]. split; [exact Hd|]. cbn.
    apply Forall_app. split; [exact Ht|]. now repeat constructor.
  - destruct (Nat.leb (String.length (text p)) (S i)); cbn;
      (split; [reflexivity|]); (split; [now exists (S i)|]); cbn; auto.
    now apply Forall_filter_keeps.
Qed.

Lemma texts_step (w : React.world) ev :
  Typewriter_texts p (React.mem w) ->
  Typewriter_texts p (React.mem (React.step Typewriter p w ev)).
Proof.
  intros H. destruct ev as [entry| |id|]; cbn [React.step].
  - destruct (React.observer w); exact H.
  - destruct (React.mounted w); [|exact H].
    unfold React.commit.
    destruct (match React.last_deps w with Some old => _ | None => false end);
      [exact H|].
    apply texts_cleanup in H. destruct H as [Hd Ht].
    cbn [React.effect Typewriter]. unfold Typewriter_effect.
    destruct (negb (React.isInView w) || started (React.cells (React.mem w)));
      [now split|].
    split; [exact Hd|]. cbn. apply Forall_app. split; [exact Ht|].
    now repeat constructor.
  - unfold React.fire.
    destruct (React.find_timer id (React.mem w)) as [t|] eqn:F; [|exact H].
    assert (Hc : Typewriter_captured p (React.timer_fn t)).
    { destruct H as [_ Ht]. unfold React.find_timer in F. apply find_some in F.
      rewrite Forall_forall in Ht. now apply Ht. }
    cbn [React.invoke Typewriter].
    set (s1 := if React.timer_repeats t then _ else _).
    assert (H1 : Typewriter_texts p s1).
    { subst s1. destruct (React.timer_repeats t); [exact H|].
      apply texts_remove. exact H. }
    destruct (texts_invoke (React.timer_fn t) id s1 Hc H1) as [Hf H2].
    destruct (Typewriter_invoke (React.timer_fn t) id s1) as [[fn r] s2].
    cbn [fst snd] in Hf, H2.
    assert (H3 : Typewriter_texts p
                   (if React.timer_repeats t then React.save_closure id fn s2 else s2)).
    { destruct (React.timer_repeats t); [now apply texts_save|exact H2]. }
    destruct (React.mounted w); cbn [React.mem React.with_mem]; [exact H3|].
    destruct H as [Hd _], H3 as [_ Ht]. now split.
  - destruct (React.mounted w); [|exact H].
    apply texts_cleanup in H. exact H.
Qed.

(** X8. Typewriter, for every text, speed and delay: whatever events occur
    and in whatever order, the displayed string is a prefix of the text. *)
Lemma Typewriter_displays_prefix (evs : list event) :
  String.prefix (displayed (tw (Typewriter_run p evs))) (text p) = true.
Proof.
  assert (H0 : Typewriter_texts p (React.mem (React.mount Typewriter p))).
  { split; [exists 0%nat; cbn; now destruct (text p)|constructor]. }
  assert (H : Typewriter_texts p (React.mem (Typewriter_run p evs))).
  { unfold Typewriter_run. revert H0. generalize (React.mount Typewriter p).
    induction evs as [|ev evs IH]; intros w H; cbn; [exact H|].
    apply IH. now apply texts_step. }
  destruct H as [[i H] _]. unfold tw. rewrite H. apply slice0_prefix.
Qed.

End TypewriterPrefix.

(** C6. Typewriter Animator, as the code behaves when React renders the
    instance again before the timeout is due: the effect calls
    [setStarted(true)], [started] is one of its dependencies, so the next
    render runs the cleanup [clearTimeout(timeout)] and the new run of the
    effect returns at the [started] gate. From then on no timer is pending,
    no callback ever runs, and the displayed string stays empty: for
    ["Hi"] it never equals the text, whatever time elapses. *)
Theorem Typewriter_rerender_cancels_reveal :
  (forall (p : TypewriterProps) (evs : list event),
      let w := Typewriter_run p (Intersect visible :: Render :: Render :: evs) in
      displayed (tw w) = "" /\
      React.pending w = [] /\
      filter (fun a => match a with Fired _ => true | _ => false end)
             (React.log (React.mem w)) = []) /\
  (let p := Typewriter_defaults "Hi" in
   React.pending (Typewriter_run p [Intersect visible; Render]) = [1%nat] /\
   React.log (React.mem (Typewriter_run p [Intersect visible; Render; Render]))
   = [Cleared 1; SetTimeout 1] /\
   (forall evs,
       String.eqb (displayed (tw (Typewriter_run p
                     (Intersect visible :: Render :: Render :: evs)))) (text p)
       = false)).
Proof.
  assert (G : forall p evs,
             Typewriter_silenced
               (Typewriter_run p (Intersect visible :: Render :: Render :: evs))).
  { intros p evs.
    change (Intersect visible :: Render :: Render :: evs)
      with ([Intersect visible; Render; Render] ++ evs)%list.
    unfold Typewriter_run. rewrite run_app.
    apply silenced_run, silenced_by_rerender. }
  split.
  - intros p evs w. destruct (G p evs) as (Ht & Hc & _ & Hl). subst w.
    unfold tw, React.pending. rewrite Ht, Hc. now repeat split.
  - cbn zeta. split; [reflexivity|]. split; [reflexivity|].
    intros evs. destruct (G (Typewriter_defaults "Hi") evs) as (_ & Hc & _).
    unfold tw. now rewrite Hc.
Qed.

(** On the other order of events, in which the timeout fires before that
    render, the text is revealed one character per tick and the interval
    cancels itself when the text is complete. *)
Example Typewriter_reveals_when_timeout_fires_first :
  let p := Typewriter_defaults "Hi" in
  map (fun evs => displayed (tw (Typewriter_run p evs)))
      [ [Intersect visible; Render; Fire 1];
        [Intersect visible; Render; Fire 1; Fire 2];
        [Intersect visible; Render; Fire 1; Fire 2; Fire 2];
        [Intersect visible; Render; Fire 1; Fire 2; Fire 2; Render; Fire 2] ]
  = [""; "H"; "Hi"; "Hi"] /\
  React.pending (Typewriter_run p [Intersect visible; Render; Fire 1; Fire 2; Fire 2])
  = [].
Proof. split; reflexivity. Qed.

(** C3, Typewriter. The interval is started inside the timeout's
    callback, and the function that callback returns,
    [() => clearInterval(interval)], is dropped by [setTimeout]; the
    effect's cleanup only clears the timeout. For a Typewriter with delay 0
    whose timeout fires before React renders it again, unmounting during the
    reveal leaves interval 2 pending, and its callback runs after the
    unmount; the same happens when the render comes between. *)
Theorem Typewriter_interval_survives_unmount :
  let p := {| text := "Hi"; speed := JS.of_Z 35; delay := JS.of_Z 0 |} in
  let w := Typewriter_run p [Intersect visible; Render; Fire 1; Unmount] in
  let w' := Typewriter_run p [Intersect visible; Render; Fire 1; Render; Unmount] in
  React.mounted w = false /\
  React.pending w = [2%nat] /\
  React.log (React.mem w)
  = [Unmounted; Cleared 1; SetInterval 2; Fired 1; SetTimeout 1] /\
  fired_after_unmount (React.log (React.mem (React.run Typewriter p w [Fire 2; Fire 2])))
  = [2%nat; 2%nat] /\
  React.mounted w' = false /\
  React.pending w' = [2%nat] /\
  fired_after_unmount (React.log (React.mem (React.step Typewriter p w' (Fire 2))))
  = [2%nat].
Proof. repeat split. Qed.

(** ** Counter *)

Section CounterFacts.

Variable p : CounterProps.

Lemma owned_commit w :
  React.mounted w = true -> Counter_owned w ->
  Counter_owned (React.commit Counter p w).
Proof.
  intros Hm [_ H]. unfold React.commit.
  destruct (match React.last_deps w with Some old => _ | None => false end).
  { split; [now rewrite Hm|exact H]. }
  assert (E : React.timers (React.run_cleanup w) = []).
  { unfold React.run_cleanup.
    destruct (React.timers (React.mem w)) as [|t [|t' ts]] eqn:T; [| |easy].
    - destruct (React.cleanup w); cbn; now rewrite ?T.
    - rewrite H. cbn. rewrite T. cbn. now rewrite Nat.eqb_refl. }
  cbn [React.effect Counter]. unfold Counter_effect, Counter_owned.
  destruct (React.isInView w); cbn; rewrite ?E, ?Hm; cbn; now split.
Qed.

Lemma owned_fire id w : Counter_owned w -> Counter_owned (React.fire Counter id w).
Proof.
  intros [Hu H]. unfold React.fire, React.find_timer.
  destruct (find _ _) as [t|] eqn:F; [|now split].
  destruct (React.timers (React.mem w)) as [|t0 [|t1 ts]] eqn:T; [easy| |easy].
  cbn in F. destruct (Nat.eqb (React.timer_id t0) id) eqn:E; [|easy].
  injection F as <-. apply Nat.eqb_eq in E.
  destruct (React.mounted w) eqn:Hm; [|destruct (Hu eq_refl); congruence].
  destruct t0 as [tid rep ms [start step e]]. cbn in E, H. subst tid.
  unfold Counter_owned. cbn [React.timer_fn React.timer_repeats React.invoke Counter].
  unfold Counter_invoke.
  destruct (JS.ge (JS.add start step) e), rep;
    repeat (progress (cbn; rewrite ?T, ?Hm, ?Nat.eqb_refl)); now split.
Qed.

Lemma owned_step w ev : Counter_owned w -> Counter_owned (React.step Counter p w ev).
Proof.
  intros H. destruct ev as [entry| |id|]; cbn [React.step].
  - destruct (React.observer w) eqn:Ho; [|exact H].
    destruct H as [Hu H]. split; [|exact H].
    cbn. intros Hm. destruct (Hu Hm). congruence.
  - destruct (React.mounted w) eqn:Hm; [|exact H]. now apply owned_commit.
  - now apply owned_fire.
  - destruct (React.mounted w) eqn:Hm; [|exact H].
    destruct H as [_ H]. unfold Counter_owned, React.run_cleanup. cbn.
    destruct (React.timers (React.mem w)) as [|t [|t' ts]] eqn:T; [| |easy].
    + destruct (React.cleanup w); cbn; rewrite ?T; now repeat split.
    + rewrite H. cbn. rewrite ?T. cbn. rewrite Nat.eqb_refl. now repeat split.
Qed.

Lemma owned_mount : Counter_owned (React.mount Counter p).
Proof. now split. Qed.

Lemma owned_run evs : forall w,
  Counter_owned w -> Counter_owned (React.run Counter p w evs).
Proof.
  induction evs as [|ev evs IH]; intros w H; cbn; [exact H|].
  apply IH. now apply owned_step.
Qed.

Lemma unmount_unmounts (w : React.world) :
  React.mounted (React.step Counter p w Unmount) = false.
Proof. cbn. now destruct (React.mounted w) eqn:E. Qed.

End CounterFacts.

(** C3, Counter. Whenever a Counter is unmounted, before, during or after
    the ticking, the cleanup of its effect clears the one interval it can
    have: no timer is pending after the unmount, and no later event changes
    anything, so no callback runs. *)
Lemma Counter_unmount_cancels_interval :
  forall (p : CounterProps) (evs evs' : list event),
    let w := Counter_run p (evs ++ [Unmount])%list in
    React.pending w = [] /\
    Counter_run p (evs ++ Unmount :: evs')%list = w.
Proof.
  intros p evs evs' w. subst w. unfold Counter_run.
  change (Unmount :: evs') with ([Unmount] ++ evs')%list.
  rewrite app_assoc, !run_app.
  set (w := React.run Counter p (React.mount Counter p) evs).
  change (React.run Counter p w [Unmount]) with (React.step Counter p w Unmount).
  pose proof (owned_step p w Unmount (owned_run p evs _ (owned_mount p))) as [Hu _].
  destruct (Hu (unmount_unmounts p w)) as [Ho Ht].
  split; [unfold React.pending; now rewrite Ht|].
  apply run_after_unmount; auto using unmount_unmounts.
Qed.

(** A Counter unmounted in the middle of its ticking. *)
Example Counter_unmounted_mid_sequence :
  let p := Counter_defaults (JS.of_Z 100) in
  React.pending (Counter_run p [Intersect visible; Render; Fire 1; Fire 1]) = [1%nat] /\
  JS.to_Z (count (Counter_run p [Intersect visible; Render; Fire 1; Fire 1])) = Some 1 /\
  React.pending (Counter_run p [Intersect visible; Render; Fire 1; Fire 1; Unmount]) = [] /\
  React.log (React.mem (Counter_run p [Intersect visible; Render; Fire 1; Fire 1;
                                       Unmount; Fire 1; Render; Fire 1]))
  = [Unmounted; Cleared 1; Fired 1; Fired 1; SetInterval 1].
Proof. repeat split. Qed.

Section CounterRuns.

Variable p : CounterProps.

(** Whether a run is complete does not depend on the fuel it was given. *)
Lemma Counter_ticks_unique fuel : forall fuel' w vs vs',
  Counter_ticks p fuel w = (vs, true) ->
  Counter_ticks p fuel' w = (vs', true) ->
  vs = vs'.
Proof.
  induction fuel as [|fuel IH]; intros fuel' w vs vs'.
  - destruct fuel'; cbn [Counter_ticks];
      destruct (React.find_timer 1 (React.mem w)); congruence.
  - destruct fuel'; cbn [Counter_ticks];
      destruct (React.find_timer 1 (React.mem w)); try congruence.
    destruct (Counter_ticks p fuel _) as [l b] eqn:E1.
    destruct (Counter_ticks p fuel' _) as [l' b'] eqn:E2.
    intros [= <- ->] [= <- ->]. f_equal. eapply IH; eassumption.
Qed.

Lemma Counter_ticks_length fuel : forall w,
  (List.length (fst (Counter_ticks p fuel w)) <= fuel)%nat.
Proof.
  induction fuel as [|fuel IH]; intros w; cbn [Counter_ticks];
    destruct (React.find_timer 1 (React.mem w)); cbn; try lia.
  specialize (IH (React.fire Counter 1 w)).
  destruct (Counter_ticks p fuel _). cbn in *. lia.
Qed.

(** A pending tick whose accumulator no longer moves and is not at
    [end] never cancels itself. *)
Lemma Counter_ticks_stuck ms start step e fuel : forall w,
  React.timers (React.mem w)
  = [{| React.timer_id := 1; React.timer_repeats := true;
        React.timer_ms := ms; React.timer_fn := Counter_tick start step e |}] ->
  JS.add start step = start ->
  JS.ge start e = false ->
  snd (Counter_ticks p fuel w) = false.
Proof.
  induction fuel as [|fuel IH]; intros w T Ha Hg; cbn [Counter_ticks];
    unfold React.find_timer; rewrite T; cbn [find React.timer_id Nat.eqb];
    [reflexivity|].
  specialize (IH (React.fire Counter 1 w)).
  destruct (Counter_ticks p fuel _) as [l b]. cbn [snd] in *.
  apply IH; auto.
  unfold React.fire, React.find_timer. rewrite T. cbn. rewrite Ha, Hg. cbn.
  rewrite T. cbn. now destruct (React.mounted w).
Qed.

Lemma number_same_refl (x : JS.number) : number_same x x = true.
Proof.
  destruct x as [s|s| |s m e]; cbn; auto using eqb_reflx.
  now rewrite eqb_reflx, Pos.eqb_refl, Z.eqb_refl.
Qed.

Lemma ends_with_cons e x vs : ends_with e vs = true -> ends_with e (x :: vs) = true.
Proof.
  unfold ends_with. cbn [rev]. destruct (rev vs); [discriminate|auto].
Qed.

(** Whenever the interval of a mounted Counter gets cancelled by its own
    tick, the value displayed last is [end]. *)
Lemma Counter_ticks_end_at_end ms step fuel : forall w start vs,
  React.timers (React.mem w)
  = [{| React.timer_id := 1; React.timer_repeats := true;
        React.timer_ms := ms; React.timer_fn := Counter_tick start step (end_ p) |}] ->
  React.mounted w = true ->
  Counter_ticks p fuel w = (vs, true) ->
  ends_with (end_ p) vs = true.
Proof.
  induction fuel as [|fuel IH]; intros w start vs T Hm; cbn [Counter_ticks];
    unfold React.find_timer; rewrite T; cbn [find React.timer_id Nat.eqb];
    [discriminate|].
  destruct (Counter_ticks p fuel _) as [l b] eqn:R. intros [= <- ->].
  revert R. cbn [React.step]. unfold React.fire, React.find_timer. rewrite T. cbn.
  destruct (JS.ge (JS.add start step) (end_ p)) eqn:G; cbn; rewrite ?T, Hm; cbn.
  - intros R. assert (l = []) as ->.
    { destruct fuel; cbn in R; congruence. }
    unfold ends_with, count. cbn. apply number_same_refl.
  - intros R. apply ends_with_cons. eapply IH; [| |exact R]; [reflexivity|exact Hm].
Qed.

Lemma Counter_cancelled_at_end fuel vs :
  Counter_ticks p fuel (Counter_visible p) = (vs, true) ->
  ends_with (end_ p) vs = true.
Proof.
  apply (Counter_ticks_end_at_end (JS.of_Z 16)
           (JS.div (end_ p) (JS.div (duration p) (JS.of_Z 16))) fuel
           (Counter_visible p) (JS.of_Z 0)); reflexivity.
Qed.

End CounterRuns.

Lemma div_zero_by_number (x : JS.number) :
  JS.truthy x = true -> exists s, JS.div (JS.of_Z 0) x = S754_zero s.
Proof.
  destruct x as [s|s| |s m e]; try discriminate; intros _;
    cbn; eexists; reflexivity.
Qed.

Lemma add_zero_zero s : JS.add (JS.of_Z 0) (S754_zero s) = JS.of_Z 0.
Proof. now destruct s. Qed.

(** C2, as amended. Counter with [end = 0] and a duration whose sixteenth
    is a non-zero number: the step is a zero, computed without dividing by
    zero; [count] is 0 at the mount and when the interval starts, the
    interval is pending until its first tick, and that tick leaves [count]
    at 0 and cancels the interval. *)
Theorem Counter_zero_end_settles_at_first_tick :
  forall d : JS.number,
    JS.truthy (JS.div d (JS.of_Z 16)) = true ->
    let p := Counter_props (JS.of_Z 0) d in
    let w := React.step Counter p (Counter_visible p) (Fire 1) in
    (exists s, JS.div (end_ p) (JS.div (duration p) (JS.of_Z 16)) = S754_zero s) /\
    count (React.mount Counter p) = JS.of_Z 0 /\
    count (Counter_visible p) = JS.of_Z 0 /\
    React.pending (Counter_visible p) = [1%nat] /\
    count w = JS.of_Z 0 /\
    React.pending w = [] /\
    Counter_tick_count (JS.of_Z 0) d 1 = Some 1%nat.
Proof.
  intros d H p w. subst w p.
  destruct (div_zero_by_number _ H) as [s Hs].
  split; [now exists s|].
  unfold Counter_tick_count, Counter_visible, count.
  cbn -[JS.div JS.add JS.ge JS.floor JS.of_Z].
  rewrite Hs, add_zero_zero.
  cbn. now repeat split.
Qed.

Lemma Counter_zero_end_settles_at_first_tick_witness :
  JS.truthy (JS.div (JS.of_Z 2000) (JS.of_Z 16)) = true /\
  Counter_tick_count (JS.of_Z 0) (JS.of_Z 2000) 1 = Some 1%nat.
Proof.
  split; [reflexivity|].
  apply (Counter_zero_end_settles_at_first_tick (JS.of_Z 2000)). reflexivity.
Defined.

(** With [duration = 0] the divisor of the step is 0. For a positive
    finite [end] the step is [end / 0 = Infinity]: the first tick sets
    [count] to [end] and cancels the interval. For [end = 0] the step is
    [0 / 0 = NaN]: every tick displays NaN and the interval is never
    cancelled. *)
Lemma Counter_zero_duration_divides_by_zero :
  JS.div (JS.of_Z 0) (JS.of_Z 16) = S754_zero false /\
  (forall m e,
      let en := S754_finite false m e in
      let p := Counter_props en (JS.of_Z 0) in
      let w := React.step Counter p (Counter_visible p) (Fire 1) in
      JS.div (end_ p) (JS.div (duration p) (JS.of_Z 16)) = JS.Infinity /\
      count w = en /\ React.pending w = []) /\
  (let p := Counter_props (JS.of_Z 0) (JS.of_Z 0) in
   let w := React.step Counter p (Counter_visible p) (Fire 1) in
   JS.div (end_ p) (JS.div (duration p) (JS.of_Z 16)) = JS.NaN /\
   count w = JS.NaN /\ React.pending w = [1%nat] /\
   forall fuel, snd (Counter_ticks p fuel w) = false).
Proof.
  split; [reflexivity|]. split.
  - intros m e. cbn. now repeat split.
  - cbn zeta. repeat split.
    intros fuel.
    now apply (Counter_ticks_stuck _ (JS.of_Z 16) JS.NaN JS.NaN (JS.of_Z 0)).
Qed.

(** C2, as stated, fails for [end = 0] with [duration = 0]: the divisor
    is 0, the step is [0 / 0 = NaN], the first tick displays NaN, and the
    interval stays pending. *)
Lemma Counter_zero_duration_does_not_resolve :
  ~ Counter_resolves_at_once (JS.of_Z 0) (JS.of_Z 0).
Proof.
  intros [H _]. vm_compute in H. discriminate.
Qed.

Section CounterSafety.

Variable p : CounterProps.

(** While a mounted Counter ticks, with an accumulator, a step and an
    [end] that are not negative: each displayed value is at least the one
    before and at most [end]. *)
Lemma Counter_ticks_safe ms step fuel : forall w start vs done,
  canon step -> canon (end_ p) ->
  React.timers (React.mem w)
  = [{| React.timer_id := 1; React.timer_repeats := true;
        React.timer_ms := ms; React.timer_fn := Counter_tick start step (end_ p) |}] ->
  React.mounted w = true ->
  canon start ->
  JS.ge (end_ p) (JS.floor start) = true ->
  Counter_ticks p fuel w = (vs, done) ->
  nondecreasing (JS.floor start :: vs) = true /\ bounded_by (end_ p) vs = true.
Proof.
  induction fuel as [|fuel IH]; intros w start vs done Cs Ce T Hm Ca Hf;
    cbn [Counter_ticks]; unfold React.find_timer; rewrite T;
    cbn [find React.timer_id Nat.eqb].
  { intros [= <- <-]. now split. }
  destruct (Counter_ticks p fuel _) as [l b] eqn:R. intros [= <- <-].
  revert R. cbn [React.step]. unfold React.fire, React.find_timer. rewrite T. cbn.
  destruct (add_canon start step Ca Cs) as [Ca' Hge].
  pose proof (canon_nonneg _ Ce) as Ne.
  destruct (JS.ge (JS.add start step) (end_ p)) eqn:G; cbn; rewrite ?T, Hm; cbn.
  - intros R. assert (l = []) as ->.
    { destruct fuel; cbn in R; congruence. }
    unfold count. cbn. rewrite Hf.
    unfold JS.ge. now rewrite (leb_refl _ Ne).
  - intros R.
    assert (Hf' : JS.ge (end_ p) (JS.floor (JS.add start step)) = true).
    { unfold JS.ge in *.
      apply (leb_trans _ (JS.add start step));
        auto using floor_nonneg, canon_nonneg, floor_le.
      apply leb_total; auto using canon_nonneg. }
    assert (NB : nondecreasing (JS.floor (JS.add start step) :: l) = true /\
                 bounded_by (end_ p) l = true).
    { eapply IH; [exact Cs|exact Ce| | |exact Ca'|exact Hf'|exact R];
        [reflexivity|exact Hm]. }
    destruct NB as [N B].
    change (JS.ge (JS.floor (JS.add start step)) (JS.floor start)
            && nondecreasing (JS.floor (JS.add start step) :: l) = true /\
            JS.ge (end_ p) (JS.floor (JS.add start step))
            && bounded_by (end_ p) l = true).
    rewrite N, B, Hf'. split; [|reflexivity].
    rewrite andb_true_r. unfold JS.ge in *. now apply floor_mono.
Qed.

End CounterSafety.

(** For every [end] and [duration] that are not negative, [end] finite,
    [duration / 16] neither zero nor NaN: however many ticks have run, the
    displayed values have not decreased and none exceeds [end]. *)
Lemma Counter_display_safe (e d : JS.number) (fuel : nat) :
  canon e -> e <> JS.Infinity -> canon d ->
  JS.truthy (JS.div d (JS.of_Z 16)) = true ->
  let p := Counter_props e d in
  nondecreasing (JS.of_Z 0 :: fst (Counter_ticks p fuel (Counter_visible p))) = true /\
  bounded_by e (fst (Counter_ticks p fuel (Counter_visible p))) = true.
Proof.
  intros Ce Fe Cd Td p.
  assert (C16 : canon (JS.div d (JS.of_Z 16))).
  { pose proof (div_canon d (JS.of_Z 16) Cd (of_Z_canon 16 ltac:(lia))) as H.
    destruct d as [[|]|[|]| |[|] md ed]; cbn [canon] in Cd; try tauto; exact H. }
  assert (Cs : canon (JS.div e (JS.div d (JS.of_Z 16)))).
  { pose proof (div_canon e _ Ce C16) as H.
    destruct e as [[|]|[|]| |[|] me ee]; cbn [canon] in Ce; try tauto;
      try (exfalso; apply Fe; reflexivity);
      destruct (JS.div d (JS.of_Z 16)) as [[|]|[|]| |[|] m16 e16];
      cbn [canon] in C16; try tauto; try discriminate Td; exact H. }
  destruct (Counter_ticks p fuel (Counter_visible p)) as [vs done] eqn:R.
  cbn [fst].
  apply (Counter_ticks_safe p (JS.of_Z 16) (JS.div e (JS.div d (JS.of_Z 16)))
           fuel (Counter_visible p) (JS.of_Z 0) vs done); auto.
  - exact I.
  - unfold JS.ge. cbn. apply leb_zero. now apply canon_nonneg.
Qed.

Section CounterLiveness.

Variable p : CounterProps.

(** While each addition of the step either reaches [end] or moves the
    accumulator up in the order of representations, the interval of a
    mounted Counter cancels itself after finitely many ticks. *)
Lemma Counter_ticks_complete ms step (n : nat) : forall w start,
  canon step -> canon (end_ p) -> end_ p <> JS.Infinity ->
  (forall a, canon a -> JS.ge a (end_ p) = false ->
             JS.ge (JS.add a step) (end_ p) = true \/ rank a < rank (JS.add a step)) ->
  React.timers (React.mem w)
  = [{| React.timer_id := 1; React.timer_repeats := true;
        React.timer_ms := ms; React.timer_fn := Counter_tick start step (end_ p) |}] ->
  React.mounted w = true ->
  canon start ->
  JS.ge start (end_ p) = false ->
  rank (end_ p) - rank start <= Z.of_nat n ->
  exists fuel vs, Counter_ticks p fuel w = (vs, true).
Proof.
  induction n as [|n IH]; intros w start Cs Ce Fe Pr T Hm Ca G Hn.
  { exfalso. pose proof (rank_below start (end_ p) Ca Ce Fe G). lia. }
  destruct (add_canon start step Ca Cs) as [Ca' _].
  destruct (JS.ge (JS.add start step) (end_ p)) eqn:G'.
  - exists 1%nat. eexists. cbn [Counter_ticks]. unfold React.find_timer. rewrite T.
    cbn [find React.timer_id Nat.eqb]. cbn [React.step].
    unfold React.fire, React.find_timer. rewrite T. cbn. rewrite G'. cbn.
    rewrite ?T, Hm. cbn. reflexivity.
  - destruct (Pr start Ca G) as [X|Lt]; [congruence|].
    pose proof (rank_below _ _ Ca' Ce Fe G') as Lt'.
    destruct (IH (React.fire Counter 1 w) (JS.add start step) Cs Ce Fe Pr)
      as (fuel & vs & R); auto.
    + unfold React.fire, React.find_timer. rewrite T. cbn. rewrite G'. cbn.
      rewrite ?T, Hm. reflexivity.
    + unfold React.fire, React.find_timer. rewrite T. cbn. rewrite G'. cbn.
      rewrite ?T, Hm. reflexivity.
    + lia.
    + exists (S fuel), (count (React.fire Counter 1 w) :: vs).
      cbn [Counter_ticks]. unfold React.find_timer. rewrite T.
      cbn [find React.timer_id Nat.eqb]. cbn [React.step]. now rewrite R.
Qed.

End CounterLiveness.

Lemma Counter_zero_end_one_tick (d : JS.number) :
  JS.truthy (JS.div d (JS.of_Z 16)) = true ->
  let p := Counter_props (JS.of_Z 0) d in
  Counter_ticks p 1 (Counter_visible p) = ([JS.of_Z 0], true).
Proof.
  intros H p. subst p.
  destruct (div_zero_by_number _ H) as [s Hs].
  unfold Counter_visible, count.
  cbn -[JS.div JS.add JS.ge JS.floor JS.of_Z].
  rewrite Hs, add_zero_zero. reflexivity.
Qed.

Lemma duration_in_range_finite (d : JS.number) :
  Counter_duration_in_range d ->
  exists md ed, d = S754_finite false md ed /\ canonical64 md ed /\ -1069 <= ed <= 2.
Proof.
  intros (C & L & M). unfold JS.ge, duration_least, duration_most in *.
  destruct d as [[|]|[|]| |[|] md ed]; cbn [canon] in C; try tauto;
    try discriminate L; try discriminate M.
  exists md, ed. split; [reflexivity|]. split; [tauto|].
  apply leb_finite in L. apply leb_finite in M. lia.
Qed.

Lemma ge_infinity x : nonneg x -> JS.ge JS.Infinity x = true.
Proof. apply leb_infinity. Qed.

Lemma add_infinity a : canon a -> JS.add a JS.Infinity = JS.Infinity.
Proof. destruct a as [[|]|[|]| |[|] m e]; cbn; tauto || reflexivity. Qed.

(** For an integer [end] below 2^53 and a duration in range, the interval
    cancels itself after finitely many ticks. *)
Lemma Counter_run_completes (e : Z) (d : JS.number) :
  0 <= e < 2 ^ 53 -> Counter_duration_in_range d ->
  let p := Counter_props (JS.of_Z e) d in
  exists fuel vs, Counter_ticks p fuel (Counter_visible p) = (vs, true).
Proof.
  intros He Hd p.
  destruct (duration_in_range_finite d Hd) as (md & ed & -> & Cd & Bd).
  destruct (sixteenth_digits md ed Cd Bd) as (m16 & e16 & E16 & C16 & B16 & D16).
  destruct (Z.eq_dec e 0) as [->|Ne].
  { exists 1%nat, [JS.of_Z 0]. subst p. apply Counter_zero_end_one_tick.
    now rewrite E16. }
  assert (Ce : canon (JS.of_Z e)) by (apply of_Z_canon; lia).
  assert (Fe : JS.of_Z e <> JS.Infinity).
  { destruct (of_Z_small e ltac:(lia)) as (me & -> & _). discriminate. }
  set (step := JS.div (JS.of_Z e) (JS.div (S754_finite false md ed) (JS.of_Z 16))).
  assert (Hs : step = JS.Infinity \/
               exists ms es, step = S754_finite false ms es /\
                             canonical64 ms es /\ es <= 971 /\
                             forall me ee, JS.of_Z e = S754_finite false me ee ->
                                           ee < Zdigits2 (Zpos ms) + es).
  { subst step. rewrite E16. apply step_digits; lia. }
  assert (Cs : canon step).
  { destruct Hs as [->|(ms & es & -> & C & B & _)]; cbn; auto. }
  assert (Pr : forall a, canon a -> JS.ge a (JS.of_Z e) = false ->
                 JS.ge (JS.add a step) (JS.of_Z e) = true \/
                 rank a < rank (JS.add a step)).
  { intros a Ca G. destruct Hs as [->|(ms & es & -> & C & B & D)].
    - left. rewrite add_infinity by exact Ca. apply ge_infinity.
      now apply canon_nonneg.
    - destruct (add_progress a (JS.of_Z e) ms es Ca Ce Fe C D G) as [->|Lt];
        [left|right; exact Lt].
      apply ge_infinity. now apply canon_nonneg. }
  apply (Counter_ticks_complete p (JS.of_Z 16) step (Z.to_nat (rank (JS.of_Z e)))
           (Counter_visible p) (JS.of_Z 0)); auto.
  - exact I.
  - destruct (of_Z_small e ltac:(lia)) as (me & E & _). cbn [p end_ Counter_props].
    rewrite E. reflexivity.
  - cbn [p end_ Counter_props].
    change (rank (JS.of_Z 0)) with 0.
    destruct (of_Z_small e ltac:(lia)) as (me & E & _).
    pose proof (rank_below (JS.of_Z 0) (JS.of_Z e) I Ce Fe) as R.
    rewrite E in R |- *. specialize (R eq_refl).
    change (rank (JS.of_Z 0)) with 0 in R. lia.
Qed.

(** Every integer duration from 1 to 2^53 - 1 is in range. *)
Lemma integer_duration_in_range (d : Z) :
  1 <= d < 2 ^ 53 -> Counter_duration_in_range (JS.of_Z d).
Proof.
  intros Hd. split; [apply of_Z_canon; lia|].
  destruct (of_Z_small d ltac:(lia)) as (m & -> & _).
  assert (0 < Zdigits2 d) by (destruct d; cbn; lia).
  assert (Zdigits2 d <= 53).
  { destruct d as [|q|q]; try lia. rewrite Zdigits2_log2.
    assert (Z.log2 (Zpos q) < 53) by (apply Z.log2_lt_pow2; lia). lia. }
  unfold JS.ge, duration_least, duration_most.
  split; apply leb_finite; lia.
Qed.

Lemma duration_in_range_truthy (d : JS.number) :
  Counter_duration_in_range d -> JS.truthy (JS.div d (JS.of_Z 16)) = true.
Proof.
  intros Hd.
  destruct (duration_in_range_finite d Hd) as (md & ed & -> & Cd & Bd).
  destruct (sixteenth_digits md ed Cd Bd) as (m16 & e16 & -> & _). reflexivity.
Qed.

(** C1, as stated, fails for [end = 1] with [duration = Infinity], a
    duration greater than 0: the step is [1 / Infinity = 0], every tick
    leaves the accumulator and the displayed value at 0, and the interval is
    never cancelled, so no final value is reached. *)
Lemma Counter_infinite_duration_never_reaches_end :
  ~ Counter_reaches_end (JS.of_Z 1) JS.Infinity.
Proof.
  intros [fuel H]. unfold Counter_animates in H.
  pose proof (Counter_ticks_stuck (Counter_props (JS.of_Z 1) JS.Infinity)
                (JS.of_Z 16) (JS.of_Z 0) (JS.of_Z 0) (JS.of_Z 1) fuel
                (Counter_visible (Counter_props (JS.of_Z 1) JS.Infinity))
                eq_refl eq_refl eq_refl) as S.
  destruct (Counter_ticks _ fuel _) as [vs done]. cbn in S. subst done.
  discriminate.
Qed.

(** A finite duration can fail as well: for the smallest positive
    number, [duration / 16] rounds to 0 and, with [end = 0], the step is
    NaN. *)
Example Counter_tiny_duration_never_reaches_end :
  ~ Counter_reaches_end (JS.of_Z 0) (S754_finite false 1 (-1074)).
Proof.
  intros [fuel H]. unfold Counter_animates in H.
  set (p := Counter_props (JS.of_Z 0) (S754_finite false 1 (-1074))) in *.
  assert (S : snd (Counter_ticks p fuel (Counter_visible p)) = false).
  { destruct fuel as [|fuel]; [reflexivity|].
    change (snd (let '(vs, done) :=
                   Counter_ticks p fuel (React.fire Counter 1 (Counter_visible p)) in
                 (count (React.fire Counter 1 (Counter_visible p)) :: vs, done))
            = false).
    pose proof (Counter_ticks_stuck p (JS.of_Z 16) JS.NaN JS.NaN (JS.of_Z 0) fuel
                  (React.fire Counter 1 (Counter_visible p))
                  eq_refl eq_refl eq_refl) as S.
    now destruct (Counter_ticks p fuel _). }
  destruct (Counter_ticks p fuel _) as [vs done]. cbn in S. subst done.
  discriminate.
Qed.

(** C8, as stated, fails for the first finding of the page,
    [<Counter end={100} />] with the default duration 2000: the step is
    [100 / 125 = 0.8], the sum of 125 steps is rounded to a value below 100,
    and the interval is cancelled by tick 126, one more than
    [ceil(2000 / 16) = 125]. *)
Lemma Counter_default_duration_takes_126_ticks :
  ~ Counter_within_ceil 100 2000.
Proof.
  intros (fuel & n & H & Hn).
  unfold Counter_tick_count in H.
  set (p := Counter_props (JS.of_Z 100) (JS.of_Z 2000)) in *.
  set (w := Counter_visible p) in *.
  destruct (Counter_ticks p fuel w) as [vs [|]] eqn:R; [|discriminate].
  injection H as <-.
  assert (R' : exists vs', Counter_ticks p 126 w = (vs', true)
                           /\ List.length vs' = 126%nat).
  { eexists. split; [vm_compute; reflexivity|reflexivity]. }
  destruct R' as (vs' & R' & L).
  rewrite (Counter_ticks_unique p _ _ _ _ _ R R'), L in Hn.
  revert Hn. clear. unfold ceil16. cbn. lia.
Qed.

Lemma of_Z_finite e : 0 <= e < 2 ^ 53 -> JS.of_Z e <> JS.Infinity.
Proof.
  intros He. destruct (Z.eq_dec e 0) as [->|N]; [discriminate|].
  destruct (of_Z_small e ltac:(lia)) as (m & -> & _). discriminate.
Qed.

(** C1, as amended. For every integer [end] with [0 <= end < 2^53] and
    every duration from 2^-1017 to the largest number below 2^55: once the
    Counter is visible its interval is cancelled after finitely many ticks,
    and the values displayed by then, from the initial 0 on, never decrease,
    never exceed [end], and end with [end]; the same two bounds hold for the
    values displayed after any number of ticks. *)
Theorem Counter_animates_to_end :
  forall (e : Z) (d : JS.number),
    0 <= e < 2 ^ 53 -> Counter_duration_in_range d ->
    let p := Counter_props (JS.of_Z e) d in
    Counter_reaches_end (JS.of_Z e) d /\
    forall fuel vs done,
      Counter_ticks p fuel (Counter_visible p) = (vs, done) ->
      nondecreasing (JS.of_Z 0 :: vs) = true /\
      bounded_by (JS.of_Z e) vs = true /\
      (done = true -> ends_with (JS.of_Z e) vs = true).
Proof.
  intros e d He Hd p.
  assert (S : forall fuel vs done,
             Counter_ticks p fuel (Counter_visible p) = (vs, done) ->
             nondecreasing (JS.of_Z 0 :: vs) = true /\
             bounded_by (JS.of_Z e) vs = true /\
             (done = true -> ends_with (JS.of_Z e) vs = true)).
  { intros fuel vs done R.
    pose proof (Counter_display_safe (JS.of_Z e) d fuel
                  (of_Z_canon e ltac:(lia)) (of_Z_finite e He)
                  (proj1 Hd) (duration_in_range_truthy d Hd)) as S.
    cbn zeta in S. fold p in S. rewrite R in S. cbn [fst] in S.
    destruct S as [S1 S2]. split; [exact S1|]. split; [exact S2|].
    intros ->. exact (Counter_cancelled_at_end p fuel vs R). }
  split; [|exact S].
  destruct (Counter_run_completes e d He Hd) as (fuel & vs & R). fold p in R.
  exists fuel. unfold Counter_animates. fold p. rewrite R.
  destruct (S fuel vs true R) as (S1 & S2 & S3).
  now rewrite S1, S2, (S3 eq_refl).
Qed.

Lemma Counter_animates_to_end_witness :
  Counter_reaches_end (JS.of_Z 3) (JS.of_Z 48).
Proof.
  apply (Counter_animates_to_end 3 (JS.of_Z 48)).
  - lia.
  - split; [split; [reflexivity|vm_compute; discriminate]|].
    split; reflexivity.
Defined.

Section CounterBound.

Variable p : CounterProps.

(** A complete run is the same with more fuel. *)
Lemma Counter_ticks_more_fuel fuel : forall fuel' w vs,
  Counter_ticks p fuel w = (vs, true) -> (fuel <= fuel')%nat ->
  Counter_ticks p fuel' w = (vs, true).
Proof.
  induction fuel as [|fuel IH]; intros fuel' w vs; cbn [Counter_ticks];
    destruct (React.find_timer 1 (React.mem w)) eqn:F.
  - discriminate.
  - intros [= <-] _. destruct fuel'; cbn [Counter_ticks]; now rewrite F.
  - destruct (Counter_ticks p fuel _) as [l b] eqn:R. intros [= <- ->] L.
    destruct fuel' as [|fuel']; [lia|]. cbn [Counter_ticks]. rewrite F.
    now rewrite (IH fuel' _ _ R ltac:(lia)).
  - intros [= <-] _. destruct fuel'; cbn [Counter_ticks]; now rewrite F.
Qed.

Variables (me ms : positive) (ce es : Z) (step : JS.number).
Hypothesis Ee : end_ p = S754_finite false me ce.
Hypothesis Ce : canonical64 me ce.
Hypothesis Es : step = S754_finite false ms es.
Hypothesis Cs : canonical64 ms es.

(** The accumulator after [k] ticks is at least [k] steps minus one unit
    in the last place of [end] for each addition but the first; so a run
    that cannot be below [end] after [k + fuel] ticks is complete within
    [fuel] more ticks. *)
Lemma Counter_ticks_bounded tms (fuel : nat) : forall w start ma ea k,
  React.timers (React.mem w)
  = [{| React.timer_id := 1; React.timer_repeats := true;
        React.timer_ms := tms; React.timer_fn := Counter_tick start step (end_ p) |}] ->
  React.mounted w = true ->
  start = S754_finite false ma ea ->
  canonical64 ma ea -> es <= ea ->
  JS.ge start (end_ p) = false ->
  k * Zpos ms <= Zpos ma * 2 ^ (ea - es) + (k - 1) * 2 ^ (ce - es) ->
  (forall V,
      (k + Z.of_nat fuel) * Zpos ms <= V + (k + Z.of_nat fuel - 1) * 2 ^ (ce - es) ->
      V < Zpos me * 2 ^ (ce - es) -> False) ->
  exists vs, Counter_ticks p fuel w = (vs, true).
Proof.
  induction fuel as [|fuel IH]; intros w start ma ea k T Hm Ea Ca La G Inv Contra.
  - exfalso. rewrite Ee, Ea in G. pose proof (leb_false_exponent _ _ _ _ G) as Le.
    apply (Contra (Zpos ma * 2 ^ (ea - es))).
    + now replace (k + Z.of_nat 0) with k by lia.
    + apply canonical_lt_value; auto; try lia.
      assert (N : ~ (ce < ea \/ ce = ea /\ Zpos me <= Zpos ma)).
      { rewrite <- leb_finite. unfold JS.ge in G. congruence. }
      lia.
  - assert (X : exists vs, Counter_ticks p fuel (React.fire Counter 1 w) = (vs, true)).
    { destruct (JS.ge (JS.add start step) (end_ p)) eqn:G'.
      - exists []. destruct fuel; cbn [Counter_ticks];
          unfold React.fire, React.find_timer; rewrite T; cbn; rewrite G'; cbn;
          rewrite ?T, Hm; reflexivity.
      - assert (A : exists m2 e2,
                   JS.add start step = S754_finite false m2 e2 /\
                   canonical64 m2 e2 /\ es <= e2 /\
                   Zpos ma * 2 ^ (ea - es) + Zpos ms < (Zpos m2 + 1) * 2 ^ (e2 - es)).
        { rewrite Ea, Es in G' |- *.
          destruct (add_finite_value ma ea ms es Cs La)
            as [I|(m2 & e2 & E2 & C2 & _ & L2 & V2)].
          - rewrite I, Ee in G'. discriminate G'.
          - exists m2, e2. auto. }
        destruct A as (m2 & e2 & E2 & C2 & L2 & V2).
        assert (Le2 : e2 <= ce).
        { rewrite E2, Ee in G'. exact (leb_false_exponent _ _ _ _ G'). }
        apply (IH _ (JS.add start step) m2 e2 (k + 1)); auto.
        + unfold React.fire, React.find_timer. rewrite T. cbn. rewrite G'. cbn.
          rewrite ?T, Hm. reflexivity.
        + unfold React.fire, React.find_timer. rewrite T. cbn. rewrite G'. cbn.
          rewrite ?T, Hm. reflexivity.
        + assert (2 ^ (e2 - es) <= 2 ^ (ce - es)) by (apply Z.pow_le_mono_r; lia).
          replace (k + 1 - 1) with k by lia. nia.
        + intros V. replace (k + 1 + Z.of_nat fuel) with (k + Z.of_nat (S fuel)) by lia.
          apply Contra. }
    destruct X as [vs R]. exists (count (React.fire Counter 1 w) :: vs).
    cbn [Counter_ticks]. unfold React.find_timer. rewrite T.
    cbn [find React.timer_id Nat.eqb]. cbn [React.step]. now rewrite R.
Qed.

End CounterBound.

(** For an integer [end] below 2^53 and an integer duration up to 2^29
    milliseconds, the interval cancels itself within
    [ceil(duration / 16) + 1] ticks. *)
Lemma Counter_run_within (e d : Z) :
  0 <= e < 2 ^ 53 -> 1 <= d <= 2 ^ 29 ->
  let p := Counter_props (JS.of_Z e) (JS.of_Z d) in
  exists vs,
    Counter_ticks p (Z.to_nat (ceil16 d + 1)) (Counter_visible p) = (vs, true).
Proof.
  intros He Hd p.
  assert (Hd' : 1 <= d < 2 ^ 53).
  { split; [lia|]. apply Z.le_lt_trans with (2 ^ 29); [lia|reflexivity]. }
  assert (Hc : 1 <= ceil16 d).
  { unfold ceil16. apply Z.div_le_lower_bound; lia. }
  destruct (Z.eq_dec e 0) as [->|Ne].
  { exists [JS.of_Z 0]. apply (Counter_ticks_more_fuel p 1); [|lia].
    apply Counter_zero_end_one_tick.
    now apply duration_in_range_truthy, integer_duration_in_range. }
  destruct (of_Z_value e ltac:(lia)) as (me & Ee & Ce & De & Ve).
  destruct (of_Z_value d ltac:(lia)) as (md & Ed & Cd & Dd & Vd).
  set (ce := Zdigits2 e - 53) in *. set (cd := Zdigits2 d - 53) in *.
  assert (Bce : -52 <= ce <= 0) by (subst ce; lia).
  assert (Bcd : -52 <= cd <= 0) by (subst cd; lia).
  assert (Dme : Zdigits2 (Zpos me) = 53) by (apply (canonical64_normal me ce Ce); lia).
  assert (Dmd : Zdigits2 (Zpos md) = 53) by (apply (canonical64_normal md cd Cd); lia).
  assert (E16 : JS.div (JS.of_Z d) (JS.of_Z 16) = S754_finite false md (cd - 4)).
  { rewrite Ed. apply div_sixteen_exact; [exact Cd|lia]. }
  set (step := JS.div (JS.of_Z e) (JS.div (JS.of_Z d) (JS.of_Z 16))).
  assert (Hs : step = JS.div (S754_finite false me ce) (S754_finite false md (cd - 4))).
  { subst step. now rewrite E16, Ee. }
  pose proof (div_finite_digits me ce md (cd - 4)) as DD. cbn zeta in DD.
  rewrite Dme, Dmd in DD. specialize (DD ltac:(lia)).
  pose proof (div_finite_value me ce md (cd - 4)) as DV. cbn zeta in DV.
  rewrite Dme, Dmd in DV. specialize (DV ltac:(lia)).
  rewrite <- Hs in DD, DV.
  set (w0 := Counter_visible p).
  assert (T0 : React.timers (React.mem w0)
               = [{| React.timer_id := 1; React.timer_repeats := true;
                     React.timer_ms := JS.of_Z 16;
                     React.timer_fn := Counter_tick (JS.of_Z 0) step (end_ p) |}])
    by reflexivity.
  assert (Hm0 : React.mounted w0 = true) by reflexivity.
  assert (Ep : end_ p = S754_finite false me ce) by exact Ee.
  clearbody w0 step p.
  replace (Z.to_nat (ceil16 d + 1)) with (S (Z.to_nat (ceil16 d)))
    by (rewrite <- Z2Nat.inj_succ by lia; f_equal; lia).
  set (fuel := Z.to_nat (ceil16 d)).
  assert (X : exists vs, Counter_ticks p fuel (React.fire Counter 1 w0) = (vs, true)).
  { assert (A0 : JS.add (JS.of_Z 0) step = step).
    { destruct DD as [[-> _]|(ms & es & -> & _)]; reflexivity. }
    set (start := JS.of_Z 0) in *. clearbody start.
    destruct (JS.ge (JS.add start step) (end_ p)) eqn:G'.
    - exists []. destruct fuel; cbn [Counter_ticks];
        unfold React.fire, React.find_timer; rewrite T0; cbn; rewrite G'; cbn;
        rewrite ?T0, Hm0; reflexivity.
    - destruct DD as [[I _]|(ms & es & Es & Cs & Bs & Ds)].
      { rewrite A0, I, Ep in G'. discriminate G'. }
      assert (Les : es <= ce).
      { rewrite A0, Es, Ep in G'. exact (leb_false_exponent _ _ _ _ G'). }
      assert (Dms : Zdigits2 (Zpos ms) = 53).
      { revert Cs Ds. unfold canonical64, fexp64. lia. }
      pose proof (Zdigits2_pos_spec ms) as Bms. rewrite Dms in Bms.
      pose proof (Zdigits2_pos_spec me) as Bme. rewrite Dme in Bme.
      pose proof (pow2_pos (ce - es) ltac:(lia)) as PP.
      assert (Q : 16 * Zpos me * 2 ^ (ce - es) < (Zpos ms + 1) * d).
      { specialize (DV ms es Es es ltac:(lia) ltac:(lia)).
        rewrite Z.sub_diag, Z.mul_1_r, Vd in DV.
        replace (ce - (cd - 4) - es) with (ce - es + (4 + (53 - Zdigits2 d))) in DV
          by lia.
        rewrite !pow2_split in DV by lia. change (2 ^ 4) with 16 in DV.
        pose proof (pow2_pos (53 - Zdigits2 d) ltac:(lia)). nia. }
      apply (Counter_ticks_bounded p me ms ce es step Ep Ce Es Cs (JS.of_Z 16) fuel
               (React.fire Counter 1 w0) (JS.add start step) ms es 1).
      + unfold React.fire, React.find_timer. rewrite T0. cbn. rewrite G'. cbn.
        rewrite ?T0, Hm0. reflexivity.
      + unfold React.fire, React.find_timer. rewrite T0. cbn. rewrite G'. cbn.
        rewrite ?T0, Hm0. reflexivity.
      + now rewrite A0.
      + exact Cs.
      + lia.
      + exact G'.
      + rewrite Z.sub_diag. lia.
      + intros V H1 H2.
        apply (tick_bound_arith (Zpos ms) (Zpos me) (2 ^ (ce - es)) d V); auto;
          try lia.
        subst fuel. rewrite Z2Nat.id in H1 by lia. unfold ceil16 in H1.
        replace (1 + (d + 15) / 16 - 1) with ((d + 15) / 16) in H1 by lia.
        replace ((d + 15) / 16 + 1) with (1 + (d + 15) / 16) by lia. exact H1. }
  destruct X as [vs R]. exists (count (React.fire Counter 1 w0) :: vs).
  cbn [Counter_ticks]. unfold React.find_timer. rewrite T0.
  cbn [find React.timer_id Nat.eqb]. cbn [React.step]. now rewrite R.
Qed.

(** C8, as amended. For every integer [end] with [0 <= end < 2^53] and
    every integer duration from 1 to 2^29 milliseconds: at least one and at
    most [ceil(duration/16) + 1] ticks run before the interval is
    cancelled. *)
Theorem Counter_ticks_within_ceil_plus_one :
  forall e d : Z,
    0 <= e < 2 ^ 53 -> 1 <= d <= 2 ^ 29 ->
    exists n,
      Counter_tick_count (JS.of_Z e) (JS.of_Z d) (Z.to_nat (ceil16 d + 1)) = Some n /\
      1 <= Z.of_nat n <= ceil16 d + 1.
Proof.
  intros e d He Hd.
  destruct (Counter_run_within e d He Hd) as [vs R].
  unfold Counter_tick_count. rewrite R.
  pose proof (Counter_ticks_length (Counter_props (JS.of_Z e) (JS.of_Z d))
                (Z.to_nat (ceil16 d + 1))
                (Counter_visible (Counter_props (JS.of_Z e) (JS.of_Z d)))) as L.
  rewrite R in L. cbn [fst] in L.
  pose proof (Counter_cancelled_at_end _ _ _ R) as H4.
  exists (List.length vs). split; [reflexivity|].
  assert (0 <= ceil16 d + 1).
  { unfold ceil16. apply Z.add_nonneg_nonneg; [apply Z.div_pos|]; lia. }
  split; [|lia].
  destruct vs; [discriminate H4|cbn [List.length]; lia].
Qed.

Lemma Counter_ticks_within_ceil_plus_one_witness :
  exists n,
    Counter_tick_count (JS.of_Z 1) (JS.of_Z 160) (Z.to_nat (ceil16 160 + 1)) = Some n /\
    1 <= Z.of_nat n <= ceil16 160 + 1.
Proof. apply (Counter_ticks_within_ceil_plus_one 1 160); lia. Defined.

(** The bound is attained: [end = 1] with [duration = 160] takes 11
    ticks, one more than [ceil(160 / 16) = 10]. *)
Example Counter_bound_attained :
  Counter_tick_count (JS.of_Z 1) (JS.of_Z 160) 11 = Some 11%nat /\ ceil16 160 = 10.
Proof. vm_compute. split; reflexivity. Qed.

(** The four counters of the page run with the default duration 2000:
    each is as C1 says; the first two take 126 ticks, the others 125. *)
Lemma Findings_counters_animate :
  map (fun f => Counter_animates (Findings.number f) (JS.of_Z 2000) 126)
      Findings.findings
  = [true; true; true; true] /\
  map (fun f => Counter_tick_count (Findings.number f) (JS.of_Z 2000) 126)
      Findings.findings
  = [Some 126; Some 126; Some 125; Some 125]%nat /\
  ceil16 2000 = 125.
Proof. vm_compute. repeat split. Qed.

(** * Further properties of the code *)

(** ** useInView *)

Section InViewFacts.

Context {props state closure : Type}.
Variable C : React.component (props := props) (state := state) (closure := closure).
Variable p : props.

Lemma commit_connection w :
  React.mounted (React.commit C p w) = React.mounted w /\
  React.observer (React.commit C p w) = React.observer w.
Proof.
  unfold React.commit.
  destruct (match React.last_deps w with Some old => _ | None => false end);
    [now split|].
  destruct (React.effect C p _ _ _) as [c s]. now split.
Qed.

Lemma fire_connection id w :
  React.mounted (React.fire C id w) = React.mounted w /\
  React.observer (React.fire C id w) = React.observer w.
Proof.
  unfold React.fire.
  destruct (React.find_timer id (React.mem w)) as [t|]; [|now split].
  destruct (React.invoke C _ _ _) as [[fn r] s2]. now split.
Qed.

(** Once the observer is disconnected, [isInView] no longer changes. *)
Lemma run_disconnected evs : forall w,
  React.observer w = None ->
  React.isInView (React.run C p w evs) = React.isInView w.
Proof.
  induction evs as [|ev evs IH]; intros w Ho; [reflexivity|].
  cbn [React.run fold_left]. fold (React.run C p (React.step C p w ev) evs).
  destruct ev as [entry| |id|]; cbn [React.step].
  - rewrite Ho. now apply IH.
  - destruct (React.mounted w); [|now apply IH].
    rewrite IH by (now rewrite (proj2 (commit_connection w))).
    apply commit_isInView.
  - rewrite IH by (now rewrite (proj2 (fire_connection id w))).
    apply fire_isInView.
  - destruct (React.mounted w); [|now apply IH]. now rewrite IH.
Qed.

(** While the observer is connected, [isInView] becomes true exactly at
    the first entry that intersects. *)
Lemma run_connected evs : forall w,
  React.mounted w = true -> React.observer w <> None ->
  React.isInView (React.run C p w evs) = React.isInView w || entered evs.
Proof.
  induction evs as [|ev evs IH]; intros w Hm Ho;
    [cbn; now rewrite orb_false_r|].
  cbn [React.run fold_left]. fold (React.run C p (React.step C p w ev) evs).
  destruct ev as [entry| |id|]; cbn [React.step entered].
  - destruct (React.observer w) as [o|] eqn:E; [|congruence].
    rewrite IH; [|exact Hm|cbn; congruence].
    cbn [React.isInView]. unfold useInView_callback.
    destruct (isIntersecting entry), (React.isInView w); reflexivity.
  - rewrite Hm. destruct (commit_connection w) as [E1 E2].
    rewrite IH by (rewrite ?E1, ?E2; assumption).
    now rewrite commit_isInView.
  - destruct (fire_connection id w) as [E1 E2].
    rewrite IH by (rewrite ?E1, ?E2; assumption).
    now rewrite fire_isInView.
  - rewrite Hm. rewrite run_disconnected by reflexivity.
    cbn. now rewrite orb_false_r.
Qed.

Lemma mount_connection :
  React.mounted (React.mount C p) = true /\ React.observer (React.mount C p) <> None.
Proof.
  unfold React.mount. destruct (commit_connection
    {| React.mounted := true;
       React.observer := Some (observer_init (React.inview_options C));
       React.isInView := false;
       React.mem := {| React.cells := React.initial C; React.timers := [];
                       React.next_id := 1; React.log := [] |};
       React.last_deps := None; React.cleanup := None |}) as [-> ->].
  split; [reflexivity|discriminate].
Qed.

Lemma run_isInView_entered evs :
  React.isInView (React.run C p (React.mount C p) evs) = entered evs.
Proof.
  destruct mount_connection as [Hm Ho].
  rewrite run_connected by assumption. now rewrite mount_isInView.
Qed.

End InViewFacts.

(** X1. useInView, for every component that calls it and every sequence
    of events from the mount: [isInView] is true exactly when an entry with
    [isIntersecting] has reached the observer callback before the unmount.
    Entries that do not intersect, renders and timers never set it, and
    entries that arrive after the cleanup [observer.unobserve(el)] are not
    seen. *)
Theorem useInView_true_iff_entered :
  forall (props state closure : Type)
         (C : React.component (props := props) (state := state) (closure := closure))
         (p : props) (evs : list event),
    React.isInView (React.run C p (React.mount C p) evs) = entered evs.
Proof. intros. apply run_isInView_entered. Qed.

(** ** Counter: what it does outside the ticking *)

Section CounterIdle.

Variable p : CounterProps.

Lemma idle_run evs : forall w : React.world,
  React.isInView w = false ->
  React.timers (React.mem w) = [] ->
  count w = JS.of_Z 0 ->
  intervals_set (React.log (React.mem w)) = 0%nat ->
  (React.mounted w = false -> React.observer w = None) ->
  React.observer w = None \/ entered evs = false ->
  let w' := React.run Counter p w evs in
  React.timers (React.mem w') = [] /\ count w' = JS.of_Z 0 /\
  intervals_set (React.log (React.mem w')) = 0%nat.
Proof.
  induction evs as [|ev evs IH]; intros w Hv Ht Hc Hl Hu He; [now repeat split|].
  cbn [React.run fold_left]. fold (React.run Counter p (React.step Counter p w ev) evs).
  destruct ev as [entry| |id|]; cbn [React.step].
  - destruct (React.observer w) as [o|] eqn:Ho.
    + destruct He as [He|He]; [discriminate|]. cbn [entered] in He.
      apply orb_false_iff in He. destruct He as [He1 He2].
      apply IH; cbn; auto. unfold useInView_callback. now rewrite He1.
    + apply IH; auto.
  - destruct (React.mounted w) eqn:Hm; [|apply IH; auto].
    assert (E : React.commit Counter p w = w \/
                React.commit Counter p w
                = {| React.mounted := React.mounted w; React.observer := React.observer w;
                     React.isInView := React.isInView w;
                     React.mem := React.run_cleanup w;
                     React.last_deps :=
                       Some (React.dependencies Counter p (React.isInView w)
                               (React.cells (React.mem w)));
                     React.cleanup := None |}).
    { unfold React.commit.
      destruct (match React.last_deps w with Some old => _ | None => false end);
        [now left|right].
      cbn [React.effect Counter]. unfold Counter_effect. rewrite Hv. reflexivity. }
    destruct E as [->| ->]; [apply IH; auto; intros; congruence|].
    apply IH; cbn [React.isInView React.mem React.mounted React.observer]; auto;
      unfold React.run_cleanup, count in *;
      destruct (React.cleanup w); cbn; rewrite ?Ht; auto; intros; congruence.
  - assert (E : React.fire Counter id w = w).
    { unfold React.fire, React.find_timer. now rewrite Ht. }
    rewrite E. apply IH; auto.
  - destruct (React.mounted w) eqn:Hm; [|apply IH; auto].
    apply IH; cbn [React.isInView React.mem React.mounted React.observer]; auto;
      unfold React.run_cleanup, count, React.note in *;
      destruct (React.cleanup w); cbn; rewrite ?Ht; auto.
Qed.

(** Rendering a Counter twice in a row is rendering it once: the second
    render finds every dependency the same by [Object.is]. *)
Lemma commit_commit (w : React.world) :
  React.commit Counter p (React.commit Counter p w) = React.commit Counter p w.
Proof.
  assert (E : React.commit Counter p w = w \/
              exists c s,
                React.commit Counter p w
                = {| React.mounted := React.mounted w; React.observer := React.observer w;
                     React.isInView := React.isInView w; React.mem := s;
                     React.last_deps :=
                       Some [VBool (React.isInView w); VNumber (end_ p);
                             VNumber (duration p)];
                     React.cleanup := c |}).
  { unfold React.commit.
    destruct (match React.last_deps w with Some old => _ | None => false end);
      [now left|right].
    destruct (React.effect Counter p _ _ _) as [c s]. now exists c, s. }
  destruct E as [E|(c & s & E)]; rewrite E; [exact E|].
  unfold React.commit.
  cbn [React.last_deps React.isInView React.mem React.dependencies Counter
       same_deps same_value].
  rewrite eqb_reflx, !number_same_refl. reflexivity.
Qed.

End CounterIdle.

(** X2. Counter: as long as no entry with [isIntersecting] has reached
    the observer, whatever else happens (entries that do not intersect,
    renders, timer identifiers fired by the host, the unmount and anything
    after it), no interval has ever been started, none is pending, and the
    displayed count is the initial 0. *)
Theorem Counter_idle_until_entered :
  forall (p : CounterProps) (evs : list event),
    entered evs = false ->
    let w := Counter_run p evs in
    React.pending w = [] /\
    count w = JS.of_Z 0 /\
    intervals_set (React.log (React.mem w)) = 0%nat.
Proof.
  intros p evs He w. subst w. unfold Counter_run.
  destruct (idle_run p evs (React.mount Counter p)) as (H1 & H2 & H3);
    auto; try reflexivity; try discriminate.
  unfold React.pending. rewrite H1. now repeat split.
Qed.

Lemma Counter_idle_until_entered_witness :
  let evs := [Intersect hidden; Render; Fire 1; Unmount; Intersect visible; Render] in
  entered evs = false /\
  React.pending (Counter_run (Counter_defaults (JS.of_Z 100)) evs) = [].
Proof.
  split; [reflexivity|].
  apply (Counter_idle_until_entered (Counter_defaults (JS.of_Z 100))). reflexivity.
Defined.

(** X3. Counter: a render that follows a render changes nothing, whatever
    the props and the state of the instance. The dependencies
    [[inView, end, duration]] are compared by [Object.is], for which NaN is
    the same as NaN, so that even [end = NaN] does not make the effect run
    again: a parent that renders again with the same props neither restarts
    nor disturbs the interval. *)
Theorem Counter_render_twice_is_once :
  forall (p : CounterProps)
         (w : React.world (state := JS.number) (closure := Counter_closure)),
    React.step Counter p (React.step Counter p w Render) Render
    = React.step Counter p w Render.
Proof.
  intros p w. cbn [React.step].
  destruct (React.mounted w) eqn:Hm; [|now rewrite Hm].
  assert (E : React.mounted (React.commit Counter p w) = true).
  { now rewrite (proj1 (commit_connection Counter p w)). }
  rewrite E. apply commit_commit.
Qed.

Section CounterWith.

(** What holds of the log of a Counter: nothing was fired after an
    unmount, and while mounted no unmount is on record. *)
Lemma quiet_step (p : CounterProps) (w : React.world) ev :
  Counter_owned w ->
  (React.mounted w = true ->
   existsb (fun a => match a with Unmounted => true | _ => false end)
           (React.log (React.mem w)) = false) ->
  fired_after_unmount (React.log (React.mem w)) = [] ->
  let w' := React.step Counter p w ev in
  (React.mounted w' = true ->
   existsb (fun a => match a with Unmounted => true | _ => false end)
           (React.log (React.mem w')) = false) /\
  fired_after_unmount (React.log (React.mem w')) = [].
Proof.
  intros [Hu Ho] Hx Hf. destruct ev as [entry| |id|]; cbn [React.step].
  - destruct (React.observer w); now split.
  - destruct (React.mounted w) eqn:Hm; [|split; [intros; congruence|exact Hf]].
    specialize (Hx eq_refl). unfold React.commit.
    destruct (match React.last_deps w with Some old => _ | None => false end);
      [now split|].
    cbn [React.effect Counter]. unfold Counter_effect, React.run_cleanup.
    destruct (React.isInView w), (React.cleanup w); cbn; rewrite ?Hx, ?Hf; now split.
  - unfold React.fire, React.find_timer.
    destruct (find _ _) as [t|] eqn:F; [|now split].
    destruct (React.timers (React.mem w)) as [|t0 [|t1 ts]] eqn:T; [easy| |easy].
    cbn in F. destruct (Nat.eqb (React.timer_id t0) id) eqn:E; [|easy].
    injection F as <-.
    destruct (React.mounted w) eqn:Hm; [|destruct (Hu eq_refl); congruence].
    specialize (Hx eq_refl).
    destruct t0 as [tid rep ms [start step e]].
    cbn [React.timer_fn React.timer_repeats React.invoke Counter].
    unfold Counter_invoke.
    destruct (JS.ge (JS.add start step) e), rep; cbn; rewrite ?Hx; now split.
  - destruct (React.mounted w) eqn:Hm; [|split; [intros; congruence|exact Hf]].
    split; [discriminate|]. unfold React.run_cleanup.
    destruct (React.cleanup w); reflexivity.
Qed.

Lemma quiet_run p0 (pevs : list (CounterProps * event)) :
  let w := Counter_run_with p0 pevs in
  Counter_owned w /\
  (React.mounted w = true ->
   existsb (fun a => match a with Unmounted => true | _ => false end)
           (React.log (React.mem w)) = false) /\
  fired_after_unmount (React.log (React.mem w)) = [].
Proof.
  unfold Counter_run_with.
  assert (H0 : Counter_owned (React.mount Counter p0)) by apply owned_mount.
  assert (H1 : React.mounted (React.mount Counter p0) = true ->
               existsb (fun a => match a with Unmounted => true | _ => false end)
                       (React.log (React.mem (React.mount Counter p0))) = false)
    by reflexivity.
  assert (H2 : fired_after_unmount (React.log (React.mem (React.mount Counter p0))) = [])
    by reflexivity.
  revert H0 H1 H2. generalize (React.mount Counter p0).
  induction pevs as [|[p ev] pevs IH]; intros w H0 H1 H2;
    [cbn [fold_left]; auto|].
  cbn [fold_left fst snd].
  destruct (quiet_step p w ev H0 H1 H2) as [H1' H2'].
  apply IH; auto. now apply owned_step.
Qed.

End CounterWith.

(** X4. Counter: at every moment, whatever events occur and whatever
    props the parent passes from one render to the next, at most one
    interval is pending, and it is the one the cleanup of the effect will
    clear: a change of [end] or [duration] never leaves a second interval
    running. *)
Theorem Counter_single_interval :
  forall (p0 : CounterProps) (pevs : list (CounterProps * event)),
    let w := Counter_run_with p0 pevs in
    React.pending w = [] \/
    exists id, React.pending w = [id] /\ React.cleanup w = Some id.
Proof.
  intros p0 pevs w. destruct (quiet_run p0 pevs) as [[_ H] _]. fold w in H.
  unfold React.pending.
  destruct (React.timers (React.mem w)) as [|t [|t' ts]]; [now left| |easy].
  right. exists (React.timer_id t). now split.
Qed.

(** X5. Counter: however the unmount is placed among the events, and
    whatever props were passed before it, no timer callback of the instance
    runs after the unmount, and nothing is pending once it is unmounted. *)
Theorem Counter_silent_after_unmount :
  forall (p0 : CounterProps) (pevs : list (CounterProps * event)),
    let w := Counter_run_with p0 pevs in
    fired_after_unmount (React.log (React.mem w)) = [] /\
    (React.mounted w = false -> React.pending w = []).
Proof.
  intros p0 pevs w. destruct (quiet_run p0 pevs) as ([Hu _] & _ & Hf). fold w in Hu, Hf.
  split; [exact Hf|]. intros Hm. unfold React.pending.
  now rewrite (proj2 (Hu Hm)).
Qed.

Section CounterVisible.

Variable p : CounterProps.

(** Once a Counter was seen and rendered, it stays mounted and in view,
    and the effect last ran with [inView = true] and the props, until it is
    unmounted. *)
Lemma visible_run evs : forall w : React.world,
  has_unmount evs = false ->
  React.mounted w = true ->
  React.isInView w = true ->
  React.last_deps w = Some [VBool true; VNumber (end_ p); VNumber (duration p)] ->
  let w' := React.run Counter p w evs in
  React.mounted w' = true /\ React.isInView w' = true /\
  React.last_deps w' = Some [VBool true; VNumber (end_ p); VNumber (duration p)].
Proof.
  induction evs as [|ev evs IH]; intros w Hn Hm Hv Hd; [now repeat split|].
  cbn [React.run fold_left]. fold (React.run Counter p (React.step Counter p w ev) evs).
  destruct ev as [entry| |id|]; cbn [has_unmount existsb orb] in Hn;
    try discriminate; cbn [React.step].
  - apply IH; auto; destruct (React.observer w); cbn; auto.
    unfold useInView_callback. rewrite Hv. now destruct (isIntersecting entry).
  - rewrite Hm.
    assert (E : React.commit Counter p w = w).
    { unfold React.commit. rewrite Hd, Hv.
      cbn [React.dependencies Counter same_deps same_value Bool.eqb].
      now rewrite !number_same_refl. }
    rewrite E. now apply IH.
  - apply IH; auto.
    + now rewrite (proj1 (fire_connection Counter id w)).
    + now rewrite fire_isInView.
    + unfold React.fire. destruct (React.find_timer id (React.mem w)); [|exact Hd].
      destruct (React.invoke Counter _ _ _) as [[fn r] s]. exact Hd.
Qed.

End CounterVisible.

(** X7. Counter: when a visible Counter is rendered with another [end]
    or another [duration] (different by [Object.is]), the cleanup clears the
    interval that was pending, if any, and the effect starts one new
    interval, whose accumulator starts again from 0 with the step and the
    [end] of the new props. The render itself leaves the displayed count as
    it was: it is the first tick of the new interval that replaces it. *)
Theorem Counter_restarts_on_prop_change :
  forall (p p' : CounterProps) (evs : list event),
    has_unmount evs = false ->
    number_same (end_ p) (end_ p') && number_same (duration p) (duration p') = false ->
    let w := Counter_run p (Intersect visible :: Render :: evs) in
    let w' := React.step Counter p' w Render in
    React.timers (React.mem w')
    = [{| React.timer_id := React.next_id (React.mem w);
          React.timer_repeats := true;
          React.timer_ms := JS.of_Z 16;
          React.timer_fn :=
            Counter_tick (JS.of_Z 0)
                         (JS.div (end_ p') (JS.div (duration p') (JS.of_Z 16)))
                         (end_ p') |}] /\
    React.cleanup w' = Some (React.next_id (React.mem w)) /\
    count w' = count w.
Proof.
  intros p p' evs Hn Hp w w'. subst w'.
  assert (V : React.mounted w = true /\ React.isInView w = true /\
              React.last_deps w
              = Some [VBool true; VNumber (end_ p); VNumber (duration p)]).
  { subst w. unfold Counter_run.
    change (Intersect visible :: Render :: evs)
      with ([Intersect visible; Render] ++ evs)%list.
    rewrite run_app. apply visible_run; auto. }
  assert (O : Counter_owned w).
  { subst w. unfold Counter_run. apply owned_run, owned_mount. }
  clearbody w. destruct V as (Hm & Hv & Hd). destruct O as [_ Ho].
  assert (E : React.timers (React.run_cleanup w) = [] /\
              React.next_id (React.run_cleanup w) = React.next_id (React.mem w) /\
              React.cells (React.run_cleanup w) = React.cells (React.mem w)).
  { unfold React.run_cleanup.
    destruct (React.timers (React.mem w)) as [|t [|t' ts]] eqn:T; [| |easy].
    - destruct (React.cleanup w); cbn; now rewrite ?T.
    - rewrite Ho. cbn. rewrite T. cbn. now rewrite Nat.eqb_refl. }
  destruct E as (E1 & E2 & E3).
  cbn [React.step]. rewrite Hm. unfold React.commit. rewrite Hd, Hv.
  cbn [React.dependencies Counter same_deps same_value Bool.eqb andb].
  rewrite andb_true_r, Hp.
  cbn [React.effect Counter]. unfold Counter_effect, count.
  cbn. rewrite E1, E2, E3. now repeat split.
Qed.

Lemma Counter_restarts_on_prop_change_witness :
  let p := Counter_defaults (JS.of_Z 100) in
  let p' := Counter_defaults (JS.of_Z 50) in
  let w := Counter_run p [Intersect visible; Render; Fire 1; Fire 1] in
  React.cleanup (React.step Counter p' w Render) = Some (React.next_id (React.mem w)).
Proof.
  intros p p' w.
  apply (Counter_restarts_on_prop_change p p' [Fire 1; Fire 1]); reflexivity.
Defined.

(** ** Typewriter: the two orders of events in which it works *)

Section TypewriterReveal.

Variable p : TypewriterProps.




End TypewriterReveal.



Section TypewriterDelay.

Variable p : TypewriterProps.

(** Before any timer callback has run, a Typewriter holds at most the
    timeout, and the cleanup of its effect clears it. *)
Lemma delay_step (w : React.world) ev :
  match ev with Fire _ => False | _ => True end ->
  (React.mounted w = false ->
   React.observer w = None /\ React.timers (React.mem w) = []) ->
  (React.timers (React.mem w) = [] \/
   exists t, React.timers (React.mem w) = [t] /\ React.cleanup w = Some (React.timer_id t)) ->
  filter (fun a => match a with Fired _ => true | _ => false end)
         (React.log (React.mem w)) = [] ->
  let w' := React.step Typewriter p w ev in
  (React.mounted w' = false ->
   React.observer w' = None /\ React.timers (React.mem w') = []) /\
  (React.timers (React.mem w') = [] \/
   exists t, React.timers (React.mem w') = [t] /\
             React.cleanup w' = Some (React.timer_id t)) /\
  filter (fun a => match a with Fired _ => true | _ => false end)
         (React.log (React.mem w')) = [].
Proof.
  intros Hev Hu Ht Hl. destruct ev as [entry| |id|]; [| |easy|]; cbn [React.step].
  - destruct (React.observer w) eqn:Ho;
      cbn [React.mounted React.observer React.mem React.cleanup];
      (split; [intros A; destruct (Hu A) as [B B']; split; [congruence|exact B']|auto]).
  - destruct (React.mounted w) eqn:Hm; [|auto].
    unfold React.commit.
    destruct (match React.last_deps w with Some old => _ | None => false end);
      [rewrite Hm; auto|].
    assert (E : React.timers (React.run_cleanup w) = [] /\
                filter (fun a => match a with Fired _ => true | _ => false end)
                       (React.log (React.run_cleanup w)) = []).
    { unfold React.run_cleanup. destruct Ht as [T|(t & T & Hc)].
      - destruct (React.cleanup w); cbn; now rewrite ?T.
      - rewrite Hc. cbn. rewrite T. cbn. now rewrite Nat.eqb_refl. }
    destruct E as [E1 E2].
    cbn [React.effect Typewriter]. unfold Typewriter_effect.
    destruct (negb (React.isInView w) || started (React.cells (React.mem w)));
      cbn; rewrite ?E1, ?E2, ?Hm; cbn.
    + split; [discriminate|]. split; [now left|reflexivity].
    + split; [discriminate|]. split; [|reflexivity].
      right. eexists. split; reflexivity.
  - destruct (React.mounted w) eqn:Hm; [|auto].
    cbn [React.mounted React.observer React.mem React.cleanup].
    assert (E : React.timers (React.run_cleanup w) = [] /\
                filter (fun a => match a with Fired _ => true | _ => false end)
                       (React.log (React.run_cleanup w)) = []).
    { unfold React.run_cleanup. destruct Ht as [T|(t & T & Hc)].
      - destruct (React.cleanup w); cbn; now rewrite ?T.
      - rewrite Hc. cbn. rewrite T. cbn. now rewrite Nat.eqb_refl. }
    destruct E as [E1 E2]. cbn. rewrite E1, E2. auto.
Qed.

Lemma delay_run evs : forall w : React.world,
  no_fire evs = true ->
  (React.mounted w = false ->
   React.observer w = None /\ React.timers (React.mem w) = []) ->
  (React.timers (React.mem w) = [] \/
   exists t, React.timers (React.mem w) = [t] /\ React.cleanup w = Some (React.timer_id t)) ->
  filter (fun a => match a with Fired _ => true | _ => false end)
         (React.log (React.mem w)) = [] ->
  let w' := React.run Typewriter p w evs in
  (React.mounted w' = false ->
   React.observer w' = None /\ React.timers (React.mem w') = []) /\
  (React.timers (React.mem w') = [] \/
   exists t, React.timers (React.mem w') = [t] /\
             React.cleanup w' = Some (React.timer_id t)) /\
  filter (fun a => match a with Fired _ => true | _ => false end)
         (React.log (React.mem w')) = [].
Proof.
  induction evs as [|ev evs IH]; intros w Hn Hu Ht Hl; [cbn; auto|].
  cbn [React.run fold_left].
  fold (React.run Typewriter p (React.step Typewriter p w ev) evs).
  unfold no_fire in Hn. cbn [forallb] in Hn. apply andb_prop in Hn.
  destruct Hn as [Hn1 Hn2].
  assert (Hev : match ev with Fire _ => False | _ => True end)
    by (destruct ev; try exact I; discriminate).
  destruct (delay_step w ev Hev Hu Ht Hl) as (Hu' & Ht' & Hl').
  now apply IH.
Qed.

End TypewriterDelay.

(** X10. Typewriter, for every text, speed and delay: when the instance
    is unmounted before any timer callback has run, that is during the delay
    at the latest, the cleanup [clearTimeout(timeout)] leaves nothing pending,
    and whatever events follow, no callback ever runs and nothing changes. *)
Theorem Typewriter_unmount_during_delay :
  forall (p : TypewriterProps) (evs evs' : list event),
    no_fire evs = true ->
    let w := Typewriter_run p (evs ++ [Unmount])%list in
    React.pending w = [] /\
    filter (fun a => match a with Fired _ => true | _ => false end)
           (React.log (React.mem w)) = [] /\
    Typewriter_run p (evs ++ Unmount :: evs')%list = w.
Proof.
  intros p evs evs' Hn w. subst w. unfold Typewriter_run.
  change (Unmount :: evs') with ([Unmount] ++ evs')%list.
  rewrite app_assoc, !run_app.
  set (w := React.run Typewriter p (React.mount Typewriter p) evs).
  change (React.run Typewriter p w [Unmount]) with (React.step Typewriter p w Unmount).
  destruct (delay_run p evs (React.mount Typewriter p) Hn) as (Hu & Ht & Hl);
    [discriminate|now left|reflexivity|]. fold w in Hu, Ht, Hl.
  destruct (delay_step p w Unmount I Hu Ht Hl) as (Hu' & Ht' & Hl').
  assert (Hm : React.mounted (React.step Typewriter p w Unmount) = false).
  { cbn. now destruct (React.mounted w) eqn:E. }
  destruct (Hu' Hm) as [Ho Hts].
  split; [unfold React.pending; now rewrite Hts|]. split; [exact Hl'|].
  now apply run_after_unmount.
Qed.

Lemma Typewriter_unmount_during_delay_witness :
  React.pending (Typewriter_run (Typewriter_defaults "Hi")
                   ([Intersect visible; Render] ++ [Unmount])) = [].
Proof.
  apply (Typewriter_unmount_during_delay (Typewriter_defaults "Hi")
           [Intersect visible; Render] [Fire 1; Render]).
  reflexivity.
Defined.

(** ** Exhibit *)

Lemma nth_error_mapi_from {A B : Type} (f : A -> nat -> B) (l : list A) :
  forall k i,
    nth_error (mapi_from f k l) i
    = option_map (fun a => f a (k + i)%nat) (nth_error l i).
Proof.
  induction l as [|a l IH]; intros k [|i]; cbn; auto.
  - now rewrite Nat.add_0_r.
  - rewrite IH. now replace (S k + i)%nat with (k + S i)%nat by lia.
Qed.

(** X11. Exhibit, for every list of result metrics and both values of
    [hovered]: the card has one row per metric, in the order of the list, and
    a row has the bottom border ["none"] exactly when it is the last one; every
    other row has a border line. A card with a single metric has no line, and
    an empty list gives no row. *)
Theorem Exhibit_border_between_rows :
  forall (hovered : bool) (resultMetrics : list Exhibit.metric),
    List.length (Exhibit.rows hovered resultMetrics) = List.length resultMetrics /\
    forall i m b,
      nth_error (Exhibit.rows hovered resultMetrics) i = Some (m, b) ->
      nth_error resultMetrics i = Some m /\
      (b = "none" <-> S i = List.length resultMetrics) /\
      (b <> "none" ->
       b = "1px solid " ++ (if hovered then "rgba(245,240,235,0.1)" else COLORS.faint)).
Proof.
  intros hovered ms. split.
  - unfold Exhibit.rows, mapi. generalize 0%nat.
    generalize (fun (m : Exhibit.metric) (i : nat) => (m, Exhibit.borderBottom hovered ms i)).
    induction ms as [|a l IH]; intros f k; cbn; auto.
  - intros i m b H. unfold Exhibit.rows, mapi in H.
    rewrite nth_error_mapi_from in H. cbn [Nat.add] in H.
    destruct (nth_error ms i) as [m'|] eqn:E; [|discriminate].
    cbn in H. injection H as <- <-. split; [reflexivity|].
    assert (L : (i < List.length ms)%nat).
    { apply nth_error_Some. congruence. }
    unfold Exhibit.borderBottom.
    destruct (Z.ltb_spec (Z.of_nat i) (Z.of_nat (List.length ms) - 1)).
    + split; [|reflexivity]. split; [|lia].
      destruct hovered; discriminate.
    + split; [|congruence]. split; [lia|reflexivity].
Qed.

(** ** Counter: the values it displays are whole numbers *)

(** An integer below 2^53 is read back from its number. *)
Lemma to_Z_of_Z z : 0 <= z < 2 ^ 53 -> JS.to_Z (JS.of_Z z) = Some z.
Proof.
  intros Hz. destruct (Z.eq_dec z 0) as [->|N]; [reflexivity|].
  destruct (of_Z_value z ltac:(lia)) as (m & -> & C & D & V).
  unfold JS.to_Z.
  destruct (Z.leb_spec 0 (Zdigits2 z - 53)) as [L|L].
  - assert (E : Zdigits2 z = 53) by lia. rewrite E in *. cbn in V |- *.
    f_equal. lia.
  - replace (- (Zdigits2 z - 53)) with (53 - Zdigits2 z) by lia.
    rewrite Z.land_ones by lia. rewrite V, Z.mod_mul by (apply Z.pow_nonzero; lia).
    cbn [Z.eqb cond_Zopp]. rewrite Z.shiftr_div_pow2 by lia.
    rewrite Z.div_mul by (apply Z.pow_nonzero; lia). reflexivity.
Qed.

(** [Math.floor] of a finite number that is not negative is a whole
    number that is not negative. *)
Lemma floor_whole x :
  canon x -> x <> JS.Infinity ->
  canon (JS.floor x) /\ exists z, 0 <= z /\ JS.to_Z (JS.floor x) = Some z.
Proof.
  destruct x as [[|]|[|]| |[|] m e]; cbn [canon]; try tauto; intros C F.
  - split; [exact I|]. exists 0. now split.
  - unfold JS.floor. destruct (Z.leb_spec 0 e) as [L|L].
    + split; [exact C|]. exists (Zpos m * 2 ^ e). unfold JS.to_Z.
      destruct (Z.leb_spec 0 e); [|lia]. cbn [cond_Zopp].
      split; [|reflexivity]. pose proof (pow2_pos e L). lia.
    + cbn [cond_Zopp]. set (q := Z.shiftr (Zpos m) (- e)).
      assert (Hq : 0 <= q) by (subst q; apply Z.shiftr_nonneg; lia).
      assert (Bq : q < 2 ^ 53).
      { destruct C as [C _]. destruct (canonical64_bounds m e C) as [_ B].
        subst q. rewrite Z.shiftr_div_pow2 by lia.
        apply Z.div_lt_upper_bound; [apply pow2_pos; lia|].
        pose proof (pow2_pos (- e) ltac:(lia)). nia. }
      change (binary_normalize JS.prec JS.emax q 0 false) with (JS.of_Z q).
      split; [now apply of_Z_canon|]. exists q. split; [exact Hq|].
      apply to_Z_of_Z. lia.
Qed.

(** A whole number that is at most the number of an integer is at most
    that integer. *)
Lemma to_Z_le v z e :
  canon v -> JS.to_Z v = Some z -> 0 <= e < 2 ^ 53 ->
  SFleb v (JS.of_Z e) = true -> z <= e.
Proof.
  intros Cv Hz He Hl.
  destruct v as [[|]|[|]| |[|] m ev]; cbn [canon] in Cv; try tauto;
    try discriminate Hz.
  - injection Hz as <-. lia.
  - destruct (Z.eq_dec e 0) as [->|N]; [discriminate Hl|].
    destruct (of_Z_value e ltac:(lia)) as (me & Ee & Ce & De & Ve).
    rewrite Ee in Hl. apply leb_finite in Hl. destruct Cv as [Cv _].
    set (ce := Zdigits2 e - 53) in *.
    assert (V : Zpos m * 2 ^ (ev - Z.min ev ce) <= Zpos me * 2 ^ (ce - Z.min ev ce)).
    { destruct Hl as [L|[-> L]].
      - apply Z.lt_le_incl. apply canonical_lt_value; auto; lia.
      - pose proof (pow2_pos (ce - Z.min ce ce) ltac:(lia)). nia. }
    unfold JS.to_Z in Hz. cbn [cond_Zopp] in Hz.
    destruct (Z.leb_spec 0 ev) as [L|L].
    + injection Hz as <-.
      assert (E0 : ev = 0) by lia. subst ev.
      assert (E53 : 53 - Zdigits2 e = 0) by (subst ce; lia).
      assert (Ec : ce = 0) by (subst ce; lia).
      rewrite E53, Z.pow_0_r, Z.mul_1_r in Ve.
      change (Zpos m * 2 ^ 0 <= e). rewrite Z.pow_0_r. lia.
    + destruct (Z.eqb_spec (Z.land (Zpos m) (Z.ones (- ev))) 0) as [Z0|]; [|discriminate].
      injection Hz as <-.
      rewrite Z.land_ones in Z0 by lia.
      rewrite Z.shiftr_div_pow2 by lia.
      pose proof (pow2_pos (- ev) ltac:(lia)) as P.
      pose proof (Z.div_mod (Zpos m) (2 ^ (- ev)) ltac:(lia)) as DM.
      rewrite Z0, Z.add_0_r in DM.
      set (z := Zpos m / 2 ^ (- ev)) in *.
      set (u := Z.min ev ce) in *.
      assert (Hu : u <= ev /\ u <= ce /\ u <= 0) by (subst u ce; lia).
      assert (A : Zpos m * 2 ^ (ev - u) = z * 2 ^ (- u)).
      { rewrite DM. replace (- u) with (- ev + (ev - u)) by lia.
        rewrite pow2_split by lia. ring. }
      assert (B : Zpos me * 2 ^ (ce - u) = e * 2 ^ (- u)).
      { rewrite Ve. replace (- u) with (53 - Zdigits2 e + (ce - u)) by (subst ce; lia).
        rewrite pow2_split by (subst ce; lia). ring. }
      rewrite A, B in V. pose proof (pow2_pos (- u) ltac:(lia)). nia.
Qed.

Section CounterWhole.

Variable p : CounterProps.

Lemma Counter_ticks_whole ms step (e : Z) fuel : forall w start vs done,
  0 <= e < 2 ^ 53 -> end_ p = JS.of_Z e ->
  canon step -> canon start ->
  React.timers (React.mem w)
  = [{| React.timer_id := 1; React.timer_repeats := true;
        React.timer_ms := ms; React.timer_fn := Counter_tick start step (end_ p) |}] ->
  React.mounted w = true ->
  Counter_ticks p fuel w = (vs, done) ->
  Forall (fun v => exists z, JS.to_Z v = Some z /\ 0 <= z <= e) vs.
Proof.
  induction fuel as [|fuel IH]; intros w start vs done He Ee Cs Ca T Hm;
    cbn [Counter_ticks]; unfold React.find_timer; rewrite T;
    cbn [find React.timer_id Nat.eqb].
  { intros [= <- <-]. constructor. }
  destruct (Counter_ticks p fuel _) as [l b] eqn:R. intros [= <- <-].
  revert R. cbn [React.step]. unfold React.fire, React.find_timer. rewrite T. cbn.
  destruct (add_canon start step Ca Cs) as [Ca' _].
  assert (Ce : canon (end_ p)) by (rewrite Ee; apply of_Z_canon; lia).
  destruct (JS.ge (JS.add start step) (end_ p)) eqn:G; cbn; rewrite ?T, Hm; cbn.
  - intros R. assert (l = []) as ->.
    { destruct fuel; cbn in R; congruence. }
    constructor; [|constructor]. unfold count. cbn. rewrite Ee.
    exists e. split; [now apply to_Z_of_Z|lia].
  - intros R. constructor.
    + unfold count. cbn.
      assert (F : JS.add start step <> JS.Infinity).
      { intros E. rewrite E in G. unfold JS.ge in G.
        rewrite leb_infinity in G by now apply canon_nonneg. discriminate. }
      destruct (floor_whole _ Ca' F) as (Cf & z & Hz & Z').
      exists z. split; [exact Z'|]. split; [exact Hz|].
      apply (to_Z_le (JS.floor (JS.add start step))); auto.
      rewrite <- Ee. unfold JS.ge in G.
      apply (leb_trans _ (JS.add start step));
        auto using floor_nonneg, canon_nonneg, floor_le.
      apply leb_total; auto using canon_nonneg.
    + eapply IH; [exact He|exact Ee|exact Cs|exact Ca'| | |exact R];
        [reflexivity|exact Hm].
Qed.

End CounterWhole.

(** X6. Counter, for every integer [end] with [0 <= end < 2^53] and every
    duration from 2^-1017 to the largest number below 2^55: however many
    ticks have run, every value the interval has displayed is a whole number
    between 0 and [end]. The fractional accumulator is never shown: each tick
    displays [Math.floor(start)] or [end] itself. *)
Theorem Counter_displays_whole_numbers :
  forall (e : Z) (d : JS.number) (fuel : nat),
    0 <= e < 2 ^ 53 -> Counter_duration_in_range d ->
    let p := Counter_props (JS.of_Z e) d in
    Forall (fun v => exists z, JS.to_Z v = Some z /\ 0 <= z <= e)
           (fst (Counter_ticks p fuel (Counter_visible p))).
Proof.
  intros e d fuel He Hd p.
  assert (Ce : canon (JS.of_Z e)) by (apply of_Z_canon; lia).
  assert (Td := duration_in_range_truthy d Hd).
  destruct Hd as (Cd & _).
  assert (C16 : canon (JS.div d (JS.of_Z 16))).
  { pose proof (div_canon d (JS.of_Z 16) Cd (of_Z_canon 16 ltac:(lia))) as H.
    destruct d as [[|]|[|]| |[|] md ed]; cbn [canon] in Cd; try tauto; exact H. }
  assert (Cs : canon (JS.div (JS.of_Z e) (JS.div d (JS.of_Z 16)))).
  { pose proof (div_canon (JS.of_Z e) _ Ce C16) as H.
    pose proof (of_Z_finite e He) as Fe.
    destruct (JS.of_Z e) as [[|]|[|]| |[|] me ee]; cbn [canon] in Ce; try tauto;
      try (exfalso; apply Fe; reflexivity);
      destruct (JS.div d (JS.of_Z 16)) as [[|]|[|]| |[|] m16 e16];
      cbn [canon] in C16; try tauto; try discriminate Td; exact H. }
  destruct (Counter_ticks p fuel (Counter_visible p)) as [vs done] eqn:R.
  cbn [fst].
  apply (Counter_ticks_whole p (JS.of_Z 16) (JS.div (JS.of_Z e) (JS.div d (JS.of_Z 16)))
           e fuel (Counter_visible p) (JS.of_Z 0) vs done); auto.
  exact I.
Qed.

Lemma Counter_displays_whole_numbers_witness :
  Forall (fun v => exists z, JS.to_Z v = Some z /\ 0 <= z <= 19)
         (fst (Counter_ticks (Counter_props (JS.of_Z 19) (JS.of_Z 2000)) 200
                 (Counter_visible (Counter_props (JS.of_Z 19) (JS.of_Z 2000))))).
Proof.
  apply (Counter_displays_whole_numbers 19 (JS.of_Z 2000) 200); [lia|].
  split; [split; [reflexivity|vm_compute; discriminate]|]. split; reflexivity.
Defined.

(** ** Binary64 arithmetic: rounding below a representable bound *)

Lemma shr_1_exact mrs j :
  0 <= j -> 0 <= shr_m mrs -> shr_r mrs = false -> shr_s mrs = false ->
  shr_m mrs mod 2 ^ (1 + j) = 0 ->
  shr_r (shr_1 mrs) = false /\ shr_s (shr_1 mrs) = false /\
  shr_m (shr_1 mrs) mod 2 ^ j = 0 /\ 0 <= shr_m (shr_1 mrs).
Proof.
  intros Hj Hm Hr Hs Hd. destruct mrs as [m r s].
  cbn [shr_m shr_r shr_s] in Hm, Hr, Hs, Hd. subst r s.
  pose proof (pow2_pos j Hj) as P.
  rewrite pow2_split in Hd by lia. change (2 ^ 1) with 2 in Hd.
  apply Z.mod_divide in Hd; [|lia]. destruct Hd as [z Hz].
  set (y := z * 2 ^ j) in *.
  assert (Hy : m = 2 * y) by (subst y; lia).
  destruct m as [|[p|p|]|p]; cbn [shr_1 shr_m shr_r shr_s orb]; try lia.
  - rewrite Z.mod_0_l by lia. repeat split; lia.
  - assert (E : Zpos p = z * 2 ^ j) by (subst y; lia).
    rewrite E, Z.mod_mul by lia. repeat split; lia.
Qed.

Lemma iter_shr_exact (k : positive) : forall mrs j,
  0 <= j -> 0 <= shr_m mrs -> shr_r mrs = false -> shr_s mrs = false ->
  shr_m mrs mod 2 ^ (Zpos k + j) = 0 ->
  shr_r (iter_pos shr_1 k mrs) = false /\ shr_s (iter_pos shr_1 k mrs) = false /\
  shr_m (iter_pos shr_1 k mrs) mod 2 ^ j = 0 /\ 0 <= shr_m (iter_pos shr_1 k mrs).
Proof.
  induction k as [k IH|k IH|]; intros mrs j Hj Hm Hr Hs Hd; cbn [iter_pos].
  - replace (Zpos k~1 + j) with (1 + (Zpos k + (Zpos k + j))) in Hd by lia.
    destruct (shr_1_exact mrs (Zpos k + (Zpos k + j)) ltac:(lia) Hm Hr Hs Hd)
      as (R1 & S1 & D1 & M1).
    destruct (IH _ (Zpos k + j) ltac:(lia) M1 R1 S1 D1) as (R2 & S2 & D2 & M2).
    exact (IH _ _ Hj M2 R2 S2 D2).
  - replace (Zpos k~0 + j) with (Zpos k + (Zpos k + j)) in Hd by lia.
    destruct (IH _ (Zpos k + j) ltac:(lia) Hm Hr Hs Hd) as (R2 & S2 & D2 & M2).
    exact (IH _ _ Hj M2 R2 S2 D2).
  - exact (shr_1_exact mrs j Hj Hm Hr Hs Hd).
Qed.

(** Shifting out bits that are all zero loses nothing. *)
Lemma shr_exact m n e :
  0 <= m -> 0 <= n -> m mod 2 ^ n = 0 ->
  shr (shr_record_of_loc m loc_Exact) e n
  = ({| shr_m := m / 2 ^ n; shr_r := false; shr_s := false |}, e + n).
Proof.
  intros Hm Hn Hd. destruct n as [|p|p]; [| |lia]; cbn [shr shr_record_of_loc].
  - now rewrite Z.div_1_r, Z.add_0_r.
  - f_equal.
    pose proof (iter_shr_m p {| shr_m := m; shr_r := false; shr_s := false |} Hm) as M.
    destruct (iter_shr_exact p {| shr_m := m; shr_r := false; shr_s := false |} 0
                ltac:(lia) Hm eq_refl eq_refl) as (R & S & _).
    { now rewrite Z.add_0_r. }
    destruct (iter_pos shr_1 p _) as [m' r' s'].
    cbn [shr_m shr_r shr_s] in M, R, S. subst m' r' s'.
    now rewrite Z.shiftr_div_pow2 by lia.
Qed.

Lemma binary_round_aux_exact_at s m e n :
  canonical64 m e -> e <= 971 -> 0 <= n ->
  binary_round_aux JS.prec JS.emax s (Zpos m * 2 ^ n) (e - n) loc_Exact
  = S754_finite s m e.
Proof.
  intros C B Hn. pose proof (pow2_pos n Hn) as P.
  unfold binary_round_aux, shr_fexp. rewrite fexp_fexp64.
  rewrite Zdigits2_mul_pow2 by exact Hn.
  replace (Zdigits2 (Zpos m) + n + (e - n)) with (Zdigits2 (Zpos m) + e) by lia.
  unfold canonical64 in C. rewrite C.
  replace (e - (e - n)) with n by lia.
  rewrite shr_exact; [|lia|exact Hn|apply Z.mod_mul; lia].
  rewrite Z.div_mul by lia.
  cbn [shr_m shr_r shr_s loc_of_shr_record round_nearest_even].
  rewrite fexp_fexp64.
  replace (e - n + n) with e by lia. rewrite C, Z.sub_diag.
  cbn [shr shr_record_of_loc shr_m].
  change (Z.sub JS.emax JS.prec) with 971.
  destruct (Z.leb_spec e 971); [reflexivity|lia].
Qed.

Lemma pow2_rescale_cmp A B al be k k' :
  k <= al -> k <= be -> k' <= al -> k' <= be ->
  (A * 2 ^ (al - k) ?= B * 2 ^ (be - k)) = (A * 2 ^ (al - k') ?= B * 2 ^ (be - k')).
Proof.
  assert (G : forall k k', k' <= k -> k <= al -> k <= be ->
              (A * 2 ^ (al - k') ?= B * 2 ^ (be - k'))
              = (A * 2 ^ (al - k) ?= B * 2 ^ (be - k))).
  { clear k k'. intros k k' L H1 H2.
    replace (al - k') with (al - k + (k - k')) by lia.
    replace (be - k') with (be - k + (k - k')) by lia.
    rewrite !pow2_split by lia. rewrite !Z.mul_assoc.
    symmetry. apply Zmult_compare_compat_r.
    pose proof (pow2_pos (k - k') ltac:(lia)). lia. }
  intros H1 H2 H3 H4. destruct (Z_le_gt_dec k' k).
  - symmetry. now apply G.
  - apply G; lia.
Qed.

(** Among canonical representations, a value that is not above another
    is not after it. *)
Lemma canonical_le_of_value m e mb eb u :
  canonical64 m e -> canonical64 mb eb -> u <= e -> u <= eb ->
  Zpos m * 2 ^ (e - u) <= Zpos mb * 2 ^ (eb - u) ->
  e < eb \/ (e = eb /\ Zpos m <= Zpos mb).
Proof.
  intros C Cb U Ub V.
  destruct (Z_lt_le_dec e eb) as [L|G]; [now left|right].
  destruct (Z.eq_dec e eb) as [->|N].
  - split; [reflexivity|]. pose proof (pow2_pos (eb - u) ltac:(lia)). nia.
  - exfalso.
    pose proof (canonical_lt_value mb eb m e u Cb C Ub U ltac:(lia)). lia.
Qed.

(** Rounding to nearest does not go past a representable bound: a value
    below the bound, or at it and exact, is rounded to a number that is not
    above the bound. *)
Lemma binary_round_aux_within s mx ex lx mb eb :
  0 <= mx -> ex <= fexp64 (Zdigits2 mx + ex) ->
  canonical64 mb eb -> eb < 971 ->
  (mx * 2 ^ (ex - Z.min ex eb) < Zpos mb * 2 ^ (eb - Z.min ex eb) \/
   (mx * 2 ^ (ex - Z.min ex eb) = Zpos mb * 2 ^ (eb - Z.min ex eb) /\
    lx = loc_Exact)) ->
  within (binary_round_aux JS.prec JS.emax s mx ex lx) mb eb.
Proof.
  intros Hm Hp Cb Bb Hv.
  set (c := fexp64 (Zdigits2 mx + ex)) in *.
  destruct (canonical64_bounds mb eb Cb) as [Lb _].
  assert (Hle : mx * 2 ^ (ex - Z.min ex eb) <= Zpos mb * 2 ^ (eb - Z.min ex eb)) by lia.
  assert (Hc : c <= eb).
  { destruct mx as [|p|p]; [| |lia].
    - subst c. cbn [Zdigits2] in *. unfold fexp64 in *. lia.
    - assert (D : Zdigits2 (Zpos p * 2 ^ (ex - Z.min ex eb))
                  <= Zdigits2 (Zpos mb * 2 ^ (eb - Z.min ex eb))).
      { apply Zdigits2_mono. split; [|exact Hle].
        pose proof (pow2_pos (ex - Z.min ex eb) ltac:(lia)). lia. }
      rewrite !Zdigits2_mul_pow2 in D by lia.
      subst c. unfold canonical64, fexp64 in *. lia. }
  replace (Z.min ex eb) with ex in Hv by lia.
  rewrite Z.sub_diag, Z.mul_1_r in Hv.
  set (n := c - ex). assert (Hn : 0 <= n) by (subst n; lia).
  set (Bc := Zpos mb * 2 ^ (eb - c)).
  assert (PB : 0 < Bc).
  { subst Bc. pose proof (pow2_pos (eb - c) ltac:(lia)). lia. }
  assert (EB : Zpos mb * 2 ^ (eb - ex) = Bc * 2 ^ n).
  { subst Bc n. replace (eb - ex) with (eb - c + (c - ex)) by lia.
    rewrite pow2_split by lia. ring. }
  rewrite EB in Hv.
  pose proof (pow2_pos n Hn) as Pn.
  destruct Hv as [Hv|[Hv Hx]].
  - (* below the bound *)
    pose proof (binary_round_aux_spec s mx ex lx Hm Hp) as R. cbn zeta in R.
    fold c in R. fold n in R.
    assert (M1 : Z.shiftr mx n < Bc).
    { rewrite Z.shiftr_div_pow2 by exact Hn.
      apply Z.div_lt_upper_bound; [exact Pn|]. lia. }
    destruct R as [[-> _]|[[_ I]|(m2 & e2 & -> & C2 & B2 & L2 & V2)]];
      [exact I|lia|].
    cbn [within]. split; [exact C2|].
    apply (canonical_le_of_value m2 e2 mb eb c); auto; lia.
  - (* at the bound, exactly *)
    subst lx. destruct Bc as [|B'|B'] eqn:EBc; try lia.
    assert (Dx : Zdigits2 mx = Zdigits2 (Zpos B') + n).
    { rewrite Hv. apply Zdigits2_mul_pow2. exact Hn. }
    assert (CB : canonical64 B' c).
    { unfold canonical64.
      assert (E : Zdigits2 (Zpos B') + c = Zdigits2 mx + ex)
        by (rewrite Dx; subst n; lia).
      rewrite E. reflexivity. }
    rewrite Hv. replace ex with (c - n) by (subst n; lia).
    rewrite binary_round_aux_exact_at by (auto; lia).
    cbn [within]. split; [exact CB|].
    apply (canonical_le_of_value B' c mb eb c); auto; try lia.
    rewrite Z.sub_diag, Z.mul_1_r. lia.
Qed.

Lemma binary_round_aux_sign s mx ex lx :
  0 <= mx -> ex <= fexp64 (Zdigits2 mx + ex) ->
  match binary_round_aux JS.prec JS.emax s mx ex lx with
  | S754_zero s' | S754_infinity s' | S754_finite s' _ _ => s' = s
  | S754_nan => False
  end.
Proof.
  intros Hm Hp.
  destruct (binary_round_aux_spec s mx ex lx Hm Hp)
    as [[-> _]|[[-> _]|(m2 & e2 & -> & _)]]; reflexivity.
Qed.

Lemma binary_round_within s d e mb eb :
  -1074 <= e -> canonical64 mb eb -> eb < 971 ->
  Zpos d * 2 ^ (e - Z.min e eb) <= Zpos mb * 2 ^ (eb - Z.min e eb) ->
  within (binary_round JS.prec JS.emax s d e) mb eb.
Proof.
  intros He Cb Bb Hv. unfold binary_round. rewrite fexp_fexp64.
  change (Z.pos (digits2_pos d)) with (Zdigits2 (Zpos d)).
  set (c := fexp64 (Zdigits2 (Zpos d) + e)).
  pose proof (shl_align_spec d e c) as [S2 S1].
  destruct (shl_align d e c) as [mz ez]. cbn [fst snd] in S1, S2.
  set (ez' := Z.min e c) in *. subst ez.
  assert (Hk : 0 <= e - ez') by (subst ez'; lia).
  assert (Dz : Zdigits2 (Zpos mz) + ez' = Zdigits2 (Zpos d) + e).
  { rewrite S1, Zdigits2_mul_pow2 by exact Hk. lia. }
  apply binary_round_aux_within; auto; try lia.
  - rewrite Dz. fold c. subst ez'. lia.
  - assert (E : Zpos mz * 2 ^ (ez' - Z.min ez' eb) = Zpos d * 2 ^ (e - Z.min ez' eb)).
    { rewrite S1. replace (e - Z.min ez' eb) with (e - ez' + (ez' - Z.min ez' eb)) by lia.
      rewrite pow2_split by lia. ring. }
    rewrite E.
    pose proof (pow2_rescale_cmp (Zpos d) (Zpos mb) e eb (Z.min e eb) (Z.min ez' eb)
                  ltac:(lia) ltac:(lia) ltac:(subst ez'; lia) ltac:(lia)) as R.
    destruct (Z.compare_spec (Zpos d * 2 ^ (e - Z.min e eb))
                             (Zpos mb * 2 ^ (eb - Z.min e eb))) as [Q|Q|Q];
      [right|left|lia]; symmetry in R.
    + apply Z.compare_eq in R. now split.
    + now apply Z.compare_lt_iff in R.
Qed.

Lemma new_location_zero n : new_location n 0 = loc_Exact.
Proof. unfold new_location. destruct (Z.even n); reflexivity. Qed.

(** The quotient and the remainder computed by [SFdiv_core_binary]. *)
Lemma div_core_rem (m1 m2 : positive) (e1 e2 : Z) :
  let '(q, e', l) := SFdiv_core_binary JS.prec JS.emax (Zpos m1) e1 (Zpos m2) e2 in
  e' = Z.min (fexp64 (Zdigits2 (Zpos m1) + e1 - (Zdigits2 (Zpos m2) + e2))) (e1 - e2) /\
  exists r, 0 <= r < Zpos m2 /\
            Zpos m1 * 2 ^ (e1 - e2 - e') = q * Zpos m2 + r /\
            l = new_location (Zpos m2) r.
Proof.
  unfold SFdiv_core_binary. rewrite fexp_fexp64.
  set (d1 := Zdigits2 (Zpos m1)). set (d2 := Zdigits2 (Zpos m2)).
  set (e' := Z.min (fexp64 (d1 + e1 - (d2 + e2))) (e1 - e2)).
  set (s := e1 - e2 - e').
  assert (Hs : 0 <= s) by (subst s e'; lia).
  set (m' := match s with
             | 0 => Zpos m1
             | Zpos _ => Z.shiftl (Zpos m1) s
             | Zneg _ => 0
             end).
  assert (Em : m' = Zpos m1 * 2 ^ s).
  { subst m'. destruct s as [|p|p]; [cbn; lia| |lia].
    apply Z.shiftl_mul_pow2. lia. }
  pose proof (Z_div_mod m' (Zpos m2) ltac:(lia)) as DM.
  destruct (Z.div_eucl m' (Zpos m2)) as [q r]. destruct DM as [DM R].
  cbn zeta. split; [subst e' d1 d2; reflexivity|]. exists r. fold d1 d2 e' s.
  rewrite <- Em. split; [lia|]. split; [lia|reflexivity].
Qed.

Lemma canonical_digits_le m e mb eb :
  canonical64 m e -> canonical64 mb eb ->
  e < eb \/ (e = eb /\ Zpos m <= Zpos mb) ->
  Zdigits2 (Zpos m) + e <= Zdigits2 (Zpos mb) + eb.
Proof.
  intros C Cb [L|[-> L]].
  - unfold canonical64, fexp64 in *. lia.
  - pose proof (Zdigits2_mono (Zpos m) (Zpos mb) ltac:(lia)). lia.
Qed.

Lemma canonical_value_le m e mb eb u :
  canonical64 m e -> canonical64 mb eb -> u <= e -> u <= eb ->
  e < eb \/ (e = eb /\ Zpos m <= Zpos mb) ->
  Zpos m * 2 ^ (e - u) <= Zpos mb * 2 ^ (eb - u).
Proof.
  intros C Cb U Ub [L|[-> L]].
  - apply Z.lt_le_incl. apply canonical_lt_value; auto.
  - pose proof (pow2_pos (eb - u) ltac:(lia)). nia.
Qed.

(** The quotient of a number by one that is not below it is at most 1. *)
Lemma div_within_one mx ex mw ew :
  canonical64 mx ex -> canonical64 mw ew ->
  ex < ew \/ (ex = ew /\ Zpos mx <= Zpos mw) ->
  nonneg (JS.div (S754_finite false mx ex) (S754_finite false mw ew)) /\
  within (JS.div (S754_finite false mx ex) (S754_finite false mw ew)) (2 ^ 52) (-52).
Proof.
  intros Cx Cw Hl. unfold JS.div, SFdiv.
  pose proof (div_core_spec mx mw ex ew) as H. cbn zeta in H.
  pose proof (div_core_rem mx mw ex ew) as V.
  destruct (SFdiv_core_binary JS.prec JS.emax (Zpos mx) ex (Zpos mw) ew) as [[q e'] l].
  destruct H as (Hq & He & _). destruct V as (Ee & r & Hr & Hd & Hloc).
  cbn [xorb].
  pose proof (canonical_digits_le mx ex mw ew Cx Cw Hl) as Dl.
  assert (Le : e' <= -53) by (rewrite Ee; unfold fexp64; lia).
  assert (Ls : e' <= ex - ew) by (rewrite Ee; lia).
  split.
  - pose proof (binary_round_aux_sign false q e' l Hq He) as S.
    destruct (binary_round_aux JS.prec JS.emax false q e' l) as [s|s| |s m e];
      cbn [nonneg]; try subst s; auto.
  - apply binary_round_aux_within; auto; try reflexivity; try lia.
    replace (Z.min e' (-52)) with e' by lia. rewrite Z.sub_diag, Z.mul_1_r.
    replace (Zpos (2 ^ 52) * 2 ^ (-52 - e')) with (2 ^ (- e')).
    2:{ replace (- e') with (52 + (-52 - e')) by lia. rewrite pow2_split by lia.
        reflexivity. }
    pose proof (canonical_value_le mx ex mw ew (ew + e') Cx Cw ltac:(lia) ltac:(lia) Hl)
      as Vl.
    replace (ex - (ew + e')) with (ex - ew - e') in Vl by lia.
    replace (ew - (ew + e')) with (- e') in Vl by lia.
    pose proof (pow2_pos (- e') ltac:(lia)) as P.
    rewrite Hd in Vl.
    destruct (Z.compare_spec q (2 ^ (- e'))) as [Q|Q|Q]; [right|left; exact Q|nia].
    split; [exact Q|].
    assert (r = 0) by nia. subst r. rewrite Hloc. apply new_location_zero.
Qed.

(** [q - 0.5] for a [q] between 0 and 1 is between -0.5 and 0.5. *)
Lemma sub_half_within q :
  nonneg q -> within q (2 ^ 52) (-52) ->
  within (JS.sub q (S754_finite false (2 ^ 52) (-53))) (2 ^ 52) (-53).
Proof.
  destruct q as [[|]|[|]| |[|] mq eq]; cbn [nonneg within]; try tauto; intros _.
  - intros _. cbn. split; [reflexivity|lia].
  - intros [Cq Hl]. unfold JS.sub, SFsub.
    destruct (canonical64_bounds mq eq Cq) as [Lq _].
    set (ez := Z.min eq (-53)).
    pose proof (shl_align_spec mq eq ez) as [_ Sa].
    pose proof (shl_align_spec (2 ^ 52) (-53) ez) as [_ Sb].
    replace (Z.min eq ez) with ez in Sa by (subst ez; lia).
    replace (Z.min (-53) ez) with ez in Sb by (subst ez; lia).
    set (a := fst (shl_align mq eq ez)) in *.
    set (b := fst (shl_align (2 ^ 52) (-53) ez)) in *.
    cbn [cond_Zopp].
    pose proof (canonical_value_le mq eq (2 ^ 52) (-52) ez Cq eq_refl
                  ltac:(subst ez; lia) ltac:(subst ez; lia) Hl) as Vl.
    assert (E2 : Zpos (2 ^ 52) * 2 ^ (-52 - ez) = 2 * Zpos b).
    { rewrite Sb. replace (-52 - ez) with (1 + (-53 - ez)) by lia.
      rewrite pow2_split by (subst ez; lia). change (2 ^ 1) with 2. ring. }
    rewrite <- Sa, E2 in Vl.
    assert (Hb : forall s d, Zpos d <= Zpos b ->
                 within (binary_round JS.prec JS.emax s d ez) (2 ^ 52) (-53)).
    { intros s d Hd. apply binary_round_within; try reflexivity; try (subst ez; lia).
      replace (Z.min ez (-53)) with ez by (subst ez; lia).
      rewrite Z.sub_diag, Z.mul_1_r, <- Sb. exact Hd. }
    unfold binary_normalize.
    destruct (Zpos a - Zpos b) as [|d|d] eqn:D; [exact I| |]; apply Hb; lia.
Qed.

(** [d * 20] for a [d] between -0.5 and 0.5 is between -10 and 10. *)
Lemma mul_twenty_within d :
  within d (2 ^ 52) (-53) ->
  within (JS.mul d (S754_finite false 5629499534213120 (-48)))
         5629499534213120 (-49).
Proof.
  destruct d as [s|s| |s md ed]; cbn [within]; try tauto; try (intros _; exact I).
  intros [Cd Hl]. unfold JS.mul, SFmul.
  rewrite Pos2Z.inj_mul.
  assert (Le : ed <= -53) by lia.
  pose proof (canonical_value_le md ed (2 ^ 52) (-53) ed Cd eq_refl
                ltac:(lia) ltac:(lia) Hl) as Vl.
  rewrite Z.sub_diag, Z.mul_1_r in Vl.
  assert (E2 : Zpos (2 ^ 52) * 2 ^ (-53 - ed) = 2 ^ (-1 - ed)).
  { replace (-1 - ed) with (52 + (-53 - ed)) by lia. rewrite pow2_split by lia.
    reflexivity. }
  rewrite E2 in Vl.
  apply binary_round_aux_within; try reflexivity; try lia.
  - assert (D : Zdigits2 (Zpos md) + 52 <= Zdigits2 (Zpos md * 5629499534213120)).
    { rewrite <- (Zdigits2_mul_pow2 md 52) by lia.
      apply Zdigits2_mono. change (2 ^ 52) with 4503599627370496. lia. }
    assert (0 < Zdigits2 (Zpos md)) by (cbn; lia).
    unfold fexp64. lia.
  - replace (Z.min (ed + -48) (-49)) with (ed + -48) by lia.
    rewrite Z.sub_diag, Z.mul_1_r.
    replace (-49 - (ed + -48)) with (-1 - ed) by lia.
    pose proof (pow2_pos (-1 - ed) ltac:(lia)) as P.
    destruct (Z.compare_spec (Zpos md) (2 ^ (-1 - ed))) as [Q|Q|Q];
      [right|left|lia].
    + split; [|reflexivity]. rewrite Q. ring.
    + nia.
Qed.

Lemma leb_finite_neg m1 e1 m2 e2 :
  SFleb (S754_finite true m1 e1) (S754_finite true m2 e2) = true <->
  e2 < e1 \/ (e1 = e2 /\ Zpos m2 <= Zpos m1).
Proof.
  unfold SFleb, SFcompare.
  destruct (Z.compare_spec e1 e2) as [E|L|G].
  - change (Pos.compare_cont Eq m1 m2) with (Pos.compare m1 m2).
    destruct (Pos.compare_spec m1 m2) as [E'|L'|G']; cbn [CompOpp]; split; intros H;
      try discriminate; try reflexivity; lia.
  - split; [discriminate|lia].
  - split; [lia|reflexivity].
Qed.

(** A number of magnitude at most 10 is between -10 and 10. *)
Lemma within_ten x :
  within x 5629499534213120 (-49) ->
  JS.ge x (JS.of_Z (-10)) = true /\ JS.ge (JS.of_Z 10) x = true.
Proof.
  unfold JS.ge.
  change (JS.of_Z (-10)) with (S754_finite true 5629499534213120 (-49)).
  change (JS.of_Z 10) with (S754_finite false 5629499534213120 (-49)).
  destruct x as [[|]|s| |[|] m e]; cbn [within]; try tauto;
    try (intros _; split; reflexivity).
  - intros [_ H]. split; [|reflexivity]. apply leb_finite_neg. lia.
  - intros [_ H]. split; [reflexivity|]. apply leb_finite. lia.
Qed.

(** [(c / s - 0.5) * 20] for a position [c] from 0 to a positive finite
    size [s]. *)
Lemma offset_within_ten (c s : JS.number) :
  canon c -> positive_finite s -> JS.ge s c = true ->
  let o := JS.mul (JS.sub (JS.div c s) (JS.decimal 5 10)) (JS.of_Z 20) in
  JS.ge o (JS.of_Z (-10)) = true /\ JS.ge (JS.of_Z 10) o = true.
Proof.
  intros Cc Cs Hge o. subst o.
  change (JS.decimal 5 10) with (S754_finite false (2 ^ 52) (-53)).
  change (JS.of_Z 20) with (S754_finite false 5629499534213120 (-48)).
  assert (Q : nonneg (JS.div c s) /\ within (JS.div c s) (2 ^ 52) (-52)).
  { destruct s as [[|]|[|]| |[|] ms es]; cbn [positive_finite] in Cs; try tauto.
    destruct c as [[|]|[|]| |[|] mc ec]; cbn [canon] in Cc; try tauto;
      try (now vm_compute in Hge); try (split; exact I).
    apply div_within_one; try tauto. apply leb_finite. exact Hge. }
  apply within_ten, mul_twenty_within, sub_half_within; tauto.
Qed.

(** A positive finite number divided by itself is exactly 1. *)
Lemma div_self m e :
  canonical64 m e ->
  JS.div (S754_finite false m e) (S754_finite false m e) = JS.of_Z 1.
Proof.
  intros C. unfold JS.div, SFdiv.
  pose proof (div_core_rem m m e e) as V.
  destruct (SFdiv_core_binary JS.prec JS.emax (Zpos m) e (Zpos m) e) as [[q e'] l].
  destruct V as (Ee & r & Hr & Hd & Hloc).
  replace (Zdigits2 (Zpos m) + e - (Zdigits2 (Zpos m) + e)) with 0 in Ee by lia.
  replace (e - e) with 0 in Ee by lia.
  change (Z.min (fexp64 0) 0) with (-53) in Ee. subst e'.
  replace (e - e - -53) with 53 in Hd by lia.
  change (2 ^ 53) with 9007199254740992 in Hd.
  assert (Q : q = 9007199254740992) by nia.
  assert (R : r = 0) by nia.
  subst q r l. rewrite new_location_zero. cbn [xorb].
  exact (binary_round_aux_exact_at false (2 ^ 52) (-52) 1 eq_refl ltac:(lia) ltac:(lia)).
Qed.

(** ** Hero: the offset of the glyph under the pointer *)

(** X12. Hero: while the pointer is inside a window of positive finite width and
    height, both coordinates [handleMouseMove] stores are between -10 and
    10, whatever the rounding of the division, the subtraction and the
    multiplication. *)
Theorem Hero_offset_within_ten :
  forall (window : Hero.Window) (e : Hero.MouseEvent),
    positive_finite (Hero.innerWidth window) ->
    positive_finite (Hero.innerHeight window) ->
    canon (Hero.clientX e) -> canon (Hero.clientY e) ->
    JS.ge (Hero.innerWidth window) (Hero.clientX e) = true ->
    JS.ge (Hero.innerHeight window) (Hero.clientY e) = true ->
    let pos := Hero.handleMouseMove window e in
    (JS.ge (Hero.x pos) (JS.of_Z (-10)) = true /\
     JS.ge (JS.of_Z 10) (Hero.x pos) = true) /\
    (JS.ge (Hero.y pos) (JS.of_Z (-10)) = true /\
     JS.ge (JS.of_Z 10) (Hero.y pos) = true).
Proof.
  intros window e Pw Ph Cx Cy Gx Gy pos. subst pos.
  unfold Hero.handleMouseMove. cbn [Hero.x Hero.y]. split.
  - exact (offset_within_ten _ _ Cx Pw Gx).
  - exact (offset_within_ten _ _ Cy Ph Gy).
Qed.

Lemma Hero_offset_within_ten_witness :
  let pos := Hero.handleMouseMove
               {| Hero.innerWidth := JS.of_Z 1280; Hero.innerHeight := JS.of_Z 720 |}
               {| Hero.clientX := JS.of_Z 333; Hero.clientY := JS.of_Z 719 |} in
  (JS.ge (Hero.x pos) (JS.of_Z (-10)) = true /\
   JS.ge (JS.of_Z 10) (Hero.x pos) = true) /\
  (JS.ge (Hero.y pos) (JS.of_Z (-10)) = true /\
   JS.ge (JS.of_Z 10) (Hero.y pos) = true).
Proof.
  apply (Hero_offset_within_ten
           {| Hero.innerWidth := JS.of_Z 1280; Hero.innerHeight := JS.of_Z 720 |}
           {| Hero.clientX := JS.of_Z 333; Hero.clientY := JS.of_Z 719 |});
    try reflexivity; split; try reflexivity; vm_compute; discriminate.
Defined.

(** X13. Hero: in a window of positive finite width and height, the pointer on
    the left or top edge (coordinate 0) gives exactly -10, and the pointer
    at a coordinate equal to the width or the height gives exactly 10. *)
Theorem Hero_offset_at_edges :
  forall (window : Hero.Window) (e : Hero.MouseEvent),
    positive_finite (Hero.innerWidth window) ->
    positive_finite (Hero.innerHeight window) ->
    let pos := Hero.handleMouseMove window e in
    (Hero.clientX e = JS.of_Z 0 -> Hero.x pos = JS.of_Z (-10)) /\
    (Hero.clientX e = Hero.innerWidth window -> Hero.x pos = JS.of_Z 10) /\
    (Hero.clientY e = JS.of_Z 0 -> Hero.y pos = JS.of_Z (-10)) /\
    (Hero.clientY e = Hero.innerHeight window -> Hero.y pos = JS.of_Z 10).
Proof.
  intros [w h] [cx cy] Pw Ph pos. subst pos.
  unfold Hero.handleMouseMove. cbn [Hero.x Hero.y Hero.clientX Hero.clientY
                                    Hero.innerWidth Hero.innerHeight] in *.
  destruct w as [[|]|[|]| |[|] mw ew]; cbn [positive_finite] in Pw; try tauto.
  destruct h as [[|]|[|]| |[|] mh eh]; cbn [positive_finite] in Ph; try tauto.
  repeat split; intros ->.
  - reflexivity.
  - rewrite div_self by tauto. reflexivity.
  - reflexivity.
  - rewrite div_self by tauto. reflexivity.
Qed.

Lemma Hero_offset_at_edges_witness :
  let window := {| Hero.innerWidth := JS.of_Z 1280; Hero.innerHeight := JS.of_Z 720 |} in
  let e := {| Hero.clientX := JS.of_Z 1280; Hero.clientY := JS.of_Z 0 |} in
  (Hero.clientX e = Hero.innerWidth window /\ Hero.clientY e = JS.of_Z 0) /\
  Hero.x (Hero.handleMouseMove window e) = JS.of_Z 10 /\
  Hero.y (Hero.handleMouseMove window e) = JS.of_Z (-10).
Proof.
  intros window e.
  assert (Pw : positive_finite (Hero.innerWidth window))
    by (split; [reflexivity|vm_compute; discriminate]).
  assert (Ph : positive_finite (Hero.innerHeight window))
    by (split; [reflexivity|vm_compute; discriminate]).
  destruct (Hero_offset_at_edges window e Pw Ph) as (_ & R & T & _).
  split; [split; reflexivity|]. split; [apply R|apply T]; reflexivity.
Defined.

(** X14. Hero: in a window whose width is 0 the division has no finite result:
    the stored [x] is NaN for a pointer at 0 and Infinity for any pointer to
    the right of it; the same holds of [y] with the height. *)
Theorem Hero_zero_size_window :
  forall (window : Hero.Window) (e : Hero.MouseEvent),
    let pos := Hero.handleMouseMove window e in
    (Hero.innerWidth window = JS.of_Z 0 -> nonneg (Hero.clientX e) ->
     Hero.x pos = if JS.truthy (Hero.clientX e) then JS.Infinity else JS.NaN) /\
    (Hero.innerHeight window = JS.of_Z 0 -> nonneg (Hero.clientY e) ->
     Hero.y pos = if JS.truthy (Hero.clientY e) then JS.Infinity else JS.NaN).
Proof.
  intros [w h] [cx cy] pos. subst pos.
  unfold Hero.handleMouseMove. cbn [Hero.x Hero.y Hero.clientX Hero.clientY
                                    Hero.innerWidth Hero.innerHeight].
  split; intros -> N.
  - destruct cx as [[|]|[|]| |[|] m c]; cbn [nonneg] in N; try tauto; reflexivity.
  - destruct cy as [[|]|[|]| |[|] m c]; cbn [nonneg] in N; try tauto; reflexivity.
Qed.
